(** * SpeedPing: the probe engine's sample ring, reply tracker and target registry

    A shallow embedding of [src/model.go] and [src/ping.go], with the parts
    of [src/ui_lib.go] (configuration, debounced saver, series colors), of
    [src/pinggraph.go] and [src/util.go] (repaint tickers) and of the UI
    ([StartPinging]) that they work with.

    Go values are modelled as follows.
    - [int] and [time.Duration] are [Z]; a duration counts nanoseconds in a
      64-bit signed integer, and the arithmetic the code performs on durations
      is wrapped to 64 bits ([wrap64]).
    - [float64] is Rocq's primitive binary64 float.
    - A slice is a header [(array, offset, len, cap)] over a heap of arrays, so
      that two slices can share storage; indexing out of range, re-slicing
      past the capacity, a negative [make] and a division by zero panic, which
      is [None].
    - [*Ring] is threaded explicitly; a [*Host] is an address into a store of
      host objects; [map[int]*pending] is a [gmap Z pending], a record being
      reachable only through the map or a handler's local variable. *)

From Stdlib Require Import ZArith Floats Uint63.
From stdpp Require Import base option list gmap strings.

Open Scope Z_scope.

(** ** Samples ([model.go], lines 28-47) *)

Inductive SampleState := SampleOK | SampleLoss | SampleLate.

Definition DefaultRingCap : Z := 600.

Record Sample := mkSample {
  T : Z;              (* time.Time, as an instant on the caller's clock *)
  MS : float;         (* ms latency; negative for loss/timeouts *)
  Seq : Z;            (* ICMP sequence number *)
  State : SampleState
}.

(** The zero value of [Sample], which [make] fills a fresh array with. *)
Definition zeroSample : Sample := mkSample 0 0%float 0 SampleOK.

Global Instance SampleState_eq_dec : EqDecision SampleState.
Proof. solve_decision. Defined.

(** ** Slices over a heap of arrays *)

Abbreviation addr := nat.

(** The heap: every array ever allocated, by address. *)
Abbreviation heap := (list (list Sample)).

Record slice := mkSlice {
  arr : option addr;   (* [None] for the nil slice *)
  off : Z;
  slen : Z;
  scap : Z
}.

Definition nilSlice : slice := mkSlice None 0 0 0.

(** [make([]Sample, n)] for [0 <= n]: a fresh zeroed array. *)
Definition make (h : heap) (n : Z) : heap * slice :=
  (h ++ [replicate (Z.to_nat n) zeroSample],
   mkSlice (Some (length h)) 0 n n).

(** [s[i]] as an r-value. *)
Definition index (h : heap) (s : slice) (i : Z) : option Sample :=
  if bool_decide (0 ≤ i < slen s) then
    a ← arr s; l ← h !! a; l !! Z.to_nat (off s + i)
  else None.

(** [s[i] = x]. *)
Definition assign (h : heap) (s : slice) (i : Z) (x : Sample) : option heap :=
  if bool_decide (0 ≤ i < slen s) then
    a ← arr s; l ← h !! a;
    if bool_decide (Z.to_nat (off s + i) < length l)%nat
    then Some (<[a := <[Z.to_nat (off s + i) := x]> l]> h)
    else None
  else None.

(** [s[:n]]. *)
Definition reslice (s : slice) (n : Z) : option slice :=
  if bool_decide (0 ≤ n ≤ scap s)
  then Some (mkSlice (arr s) (off s) n (scap s))
  else None.

(** The elements a slice shows, in order. *)
Definition contents (h : heap) (s : slice) : list Sample :=
  match arr s with
  | Some a =>
      match h !! a with
      | Some l => take (Z.to_nat (slen s)) (drop (Z.to_nat (off s)) l)
      | None => []
      end
  | None => []
  end.

(** Two slices alias when they are views of one array. *)
Definition shares (s1 s2 : slice) : Prop :=
  ∃ a, arr s1 = Some a ∧ arr s2 = Some a.

(** A slice is valid in a heap when its whole capacity lies inside its
    array. *)
Definition slice_ok (h : heap) (s : slice) : Prop :=
  0 ≤ off s ∧ 0 ≤ slen s ≤ scap s ∧
  match arr s with
  | Some a => ∃ l, h !! a = Some l ∧ off s + scap s ≤ Z.of_nat (length l)
  | None => scap s = 0
  end.

(** ** The ring ([model.go], lines 49-101) *)

Record Ring := mkRing {
  data : slice;
  head : Z;
  count : Z
}.

(** [len(r.data)]. *)
Definition len (r : Ring) : Z := slen (data r).

Definition NewRing (h : heap) (capacity : Z) : option (heap * Ring) :=
  if bool_decide (capacity < 0) then None   (* makeslice: len out of range *)
  else let '(h', d) := make h capacity in Some (h', mkRing d 0 0).

Definition Push (h : heap) (r : Ring) (s : Sample) : option (heap * Ring * Z) :=
  if bool_decide (len r = 0) then Some (h, r, -1)
  else
    let idx := head r in
    h' ← assign h (data r) idx s;
    Some (h',
          mkRing (data r)
                 (Z.rem (head r + 1) (len r))
                 (if bool_decide (count r < len r) then count r + 1 else count r),
          idx).

Definition UpdateAt (h : heap) (r : Ring) (idx : Z) (update : Sample → Sample)
  : option heap :=
  if bool_decide (count r = 0 ∨ idx < 0 ∨ len r ≤ idx) then Some h
  else x ← index h (data r) idx; assign h (data r) idx (update x).

(** The copy loop of [Snapshot]: [k] iterations remain, the next one is [i]. *)
Fixpoint snapshot_loop (r : Ring) (dst : slice) (start : Z) (k : nat) (i : Z)
    (h : heap) : option heap :=
  match k with
  | O => Some h
  | S k' =>
      x ← index h (data r) (Z.rem (start + i) (len r));
      h' ← assign h dst i x;
      snapshot_loop r dst start k' (i + 1) h'
  end.

Definition Snapshot (h : heap) (r : Ring) (dst : slice) : option (heap * slice) :=
  if bool_decide (count r = 0) then d ← reslice dst 0; Some (h, d)
  else
    let n := count r in
    '(h1, d) ← (if bool_decide (scap dst < n) then Some (make h n)
                else d ← reslice dst n; Some (h, d));
    if bool_decide (len r = 0) then None   (* integer divide by zero *)
    else
      let start := Z.rem (head r - count r + len r) (len r) in
      h2 ← snapshot_loop r d start (Z.to_nat n) 0 h1;
      Some (h2, d).

(** [Snapshot(nil)], as every caller in [pinggraph.go] reads a ring, returning
    the samples of the slice it gets. *)
Definition snapshot (h : heap) (r : Ring) : option (list Sample) :=
  '(h', out) ← Snapshot h r nilSlice; Some (contents h' out).

(** Pushing a list of samples, first to last. *)
Fixpoint push_all (h : heap) (r : Ring) (xs : list Sample) : option (heap * Ring) :=
  match xs with
  | [] => Some (h, r)
  | x :: xs' => '(h', r', _) ← Push h r x; push_all h' r' xs'
  end.

(** The last [n] elements of a list. *)
Definition lastn {A} (n : nat) (l : list A) : list A := drop (length l - n) l.

(** ** Durations and latencies ([ping.go]) *)

(** Two's-complement wrap-around of 64-bit signed arithmetic. *)
Definition wrap64 (z : Z) : Z := (z + 2 ^ 63) `mod` 2 ^ 64 - 2 ^ 63.

Definition max_int64 : Z := 2 ^ 63 - 1.

Definition Millisecond : Z := 1000000.
Definition Second : Z := 1000 * Millisecond.

(** [float64(n)] for a 64-bit integer [n], rounded to nearest. *)
Definition float64 (n : Z) : float :=
  if bool_decide (n < 0)
  then PrimFloat.opp (PrimFloat.of_uint63 (Uint63.of_Z (- n)))
  else PrimFloat.of_uint63 (Uint63.of_Z n).

(** [d.Microseconds()]: Go's integer division truncates toward zero. *)
Definition Microseconds (d : Z) : Z := Z.quot d 1000.

(** [float64(rtt.Microseconds()) / 1000.0]. *)
Definition latency_ms (rtt : Z) : float :=
  PrimFloat.div (float64 (Microseconds rtt)) 1000%float.

(** ** The probing backend ([ping.go], lines 32-59) *)

Record ProbingBackend := mkBackend {
  Privileged : bool;
  Interval : Z;
  MaxRTT : Z;
  GraceLate : Z     (* how long after MaxRTT we still call it late *)
}.

Definition maxDur (a b : Z) : Z := if bool_decide (a > b) then a else b.

(** The "sane defaults" block of [RunForHost], lines 50-59; each assignment
    sees the ones before it. *)
Definition withDefaults (pb : ProbingBackend) : ProbingBackend :=
  let interval := if bool_decide (Interval pb ≤ 0) then Second else Interval pb in
  let maxRTT :=
    if bool_decide (MaxRTT pb ≤ 0)
    then maxDur (wrap64 (3 * interval)) (150 * Millisecond)
    else MaxRTT pb in
  let grace :=
    if bool_decide (GraceLate pb ≤ 0) then 100 * Millisecond else GraceLate pb in
  mkBackend (Privileged pb) interval maxRTT grace.

(** ** Pending replies and deadline timers ([ping.go], lines 79-155) *)

(** A [time.Timer] made by [time.AfterFunc]: it fires at most once, and
    [Stop] keeps an armed timer from firing. [tseq] is the sequence number
    its callback closes over, [tafter] the delay it was armed with. *)
Inductive timerState := Armed | Fired | Stopped.

Record Timer := mkTimer {
  tseq : Z;
  tafter : Z;
  tstate : timerState
}.

Global Instance timerState_eq_dec : EqDecision timerState.
Proof. solve_decision. Defined.

Record pending := mkPending {
  timer : nat;       (* the timer, by its position in [timers] *)
  idx : Z;           (* index in ring where LOSS went *)
  pushed : bool      (* true once LOSS inserted *)
}.

(** What one run of [RunForHost] owns and writes: the memory holding the
    host's ring, the ring [h.buf], the map [pends], the timers it created,
    and whether the pinger is still running.

    A handler is modelled as one step. [OnSend] and [OnRecv] are called from
    the pinger's single loop, one after the other; only a deadline callback
    can run beside them. The callback works wholly under the lock [mu];
    [OnRecv] reads and deletes its record under [mu] and writes the ring
    afterwards, under the ring's lock. A callback that slips in between
    belongs to another sequence (the record of this one is already deleted,
    so its own callback returns at once), touches another record, and so
    commutes with the first half of [OnRecv]: every interleaving is one of
    the sequential orders below. *)
Record Loop := mkLoop {
  mem : heap;
  ring : Ring;
  pends : gmap Z pending;
  timers : list Timer;
  running : bool
}.

(** [t.Stop()]. *)
Definition stopTimer (ts : list Timer) (id : nat) : list Timer :=
  match ts !! id with
  | Some t =>
      if bool_decide (tstate t = Armed)
      then <[id := mkTimer (tseq t) (tafter t) Stopped]> ts
      else ts
  | None => ts
  end.

(** [pinger.OnSend], lines 90-111. *)
Definition OnSend (pb : ProbingBackend) (st : Loop) (seq : Z) : Loop :=
  let t := length (timers st) in
  mkLoop (mem st) (ring st)
         (<[seq := mkPending t (-1) false]> (pends st))
         (timers st ++ [mkTimer seq (MaxRTT pb) Armed])
         (running st).

(** The callback given to [time.AfterFunc], lines 92-107. *)
Definition onDeadline (st : Loop) (seq now : Z) : option Loop :=
  match pends st !! seq with
  | None => Some st   (* reply already handled *)
  | Some p =>
      '(h', r', i) ← Push (mem st) (ring st)
                          (mkSample now (-1)%float seq SampleLoss);
      Some (mkLoop h' r' (<[seq := mkPending (timer p) i true]> (pends st))
                   (timers st) (running st))
  end.

(** The mutator the grace branch hands to [UpdateAt], lines 140-144. *)
Definition toLate (rtt now : Z) (s : Sample) : Sample :=
  mkSample now (latency_ms rtt) (Seq s) SampleLate.

(** [pinger.OnRecv], lines 114-155. *)
Definition OnRecv (pb : ProbingBackend) (st : Loop) (seq rtt now : Z)
  : option Loop :=
  let p := pends st !! seq in
  let ts := match p with
            | Some p => stopTimer (timers st) (timer p)
            | None => timers st
            end in
  let ps := delete seq (pends st) in
  if bool_decide (rtt ≤ MaxRTT pb) then
    (* on-time: normal point *)
    '(h', r', _) ← Push (mem st) (ring st)
                        (mkSample now (latency_ms rtt) seq SampleOK);
    Some (mkLoop h' r' ps ts (running st))
  else
    match p with
    | Some p =>
        if pushed p && bool_decide (rtt ≤ wrap64 (MaxRTT pb + GraceLate pb)) then
          (* within grace and LOSS already inserted: convert it to LATE *)
          h' ← UpdateAt (mem st) (ring st) (idx p) (toLate rtt now);
          Some (mkLoop h' (ring st) ps ts (running st))
        else
          '(h', r', _) ← Push (mem st) (ring st)
                              (mkSample now (latency_ms rtt) seq SampleLate);
          Some (mkLoop h' r' ps ts (running st))
    | None =>
        (* standalone LATE marker *)
        '(h', r', _) ← Push (mem st) (ring st)
                            (mkSample now (latency_ms rtt) seq SampleLate);
        Some (mkLoop h' r' ps ts (running st))
    end.

(** What happens while [pinger.Run()] runs: a packet is sent, an armed timer
    fires, a reply is received. A timer that is not armed does not fire. *)
Inductive event :=
  | EvSend (seq : Z)
  | EvFire (t : nat) (now : Z)
  | EvRecv (seq rtt now : Z).

Definition step (pb : ProbingBackend) (st : Loop) (ev : event) : option Loop :=
  match ev with
  | EvSend seq => Some (OnSend pb st seq)
  | EvFire t now =>
      match timers st !! t with
      | Some tm =>
          if bool_decide (tstate tm = Armed) then
            onDeadline (mkLoop (mem st) (ring st) (pends st)
                               (<[t := mkTimer (tseq tm) (tafter tm) Fired]> (timers st))
                               (running st))
                       (tseq tm) now
          else Some st
      | None => Some st
      end
  | EvRecv seq rtt now => OnRecv pb st seq rtt now
  end.

Fixpoint run (pb : ProbingBackend) (st : Loop) (evs : list event) : option Loop :=
  match evs with
  | [] => Some st
  | ev :: evs' => st' ← step pb st ev; run pb st' evs'
  end.

(** ** [RunForHost] ([ping.go], lines 40-176) *)

Inductive HostState := HostStopped | HostRunning.

Record Host := mkHost {
  Name : string;       (* display name *)
  Addr : string;       (* ip or hostname *)
  ColorI : Z;          (* color index *)
  RunState : HostState;  (* the field [State] of [Host] *)
  buf : Ring
}.

(** Go [error] values that can leave [RunForHost]: the two errors of package
    [context], and whatever the pinger reports. *)
Inductive error :=
  | Canceled
  | DeadlineExceeded
  | PingerError (msg : string).

(** Why [ctx.Done()] was closed; [ctx.Err()] is then the matching error. *)
Inductive doneReason := ByCancel | ByDeadline.

Definition ctxErr (c : doneReason) : error :=
  match c with ByCancel => Canceled | ByDeadline => DeadlineExceeded end.


(** Which case of the final [select] is taken. *)
Inductive ending :=
  | CtxDone (c : doneReason)
  | RunReturned (err : option error).

(** The [ctx.Done()] case, lines 162-172: stop the pinger, stop the timer of
    every pending record, replace the map by an empty one. *)
Definition onCancel (st : Loop) : Loop :=
  mkLoop (mem st) (ring st) ∅
         (map_fold (λ _ p ts, stopTimer ts (timer p)) (timers st) (pends st))
         false.

(** [RunForHost]: [newPinger] is the error of [probing.NewPinger], [evs] what
    happens while the pinger runs, [fin] how the run ends. The result is the
    loop's final state, when one was started, and the error returned. The
    settings handed to the pinger (privilege, interval, the 24 h timeout,
    packet size) configure the library and have no counterpart here. *)
Definition RunForHost (pb : ProbingBackend) (m : heap) (h : option Host)
    (newPinger : option error) (evs : list event) (fin : ending)
  : option (option Loop * option error) :=
  match h with
  | None => Some (None, Some Canceled)
  | Some host =>
      match newPinger with
      | Some e => Some (None, Some e)
      | None =>
          let pb := withDefaults pb in
          st ← run pb (mkLoop m (buf host) ∅ [] true) evs;
          match fin with
          | CtxDone c => Some (Some (onCancel st), Some (ctxErr c))
          | RunReturned e => Some (Some st, e)
          end
      end
  end.

(** ** The target registry ([model.go], lines 119-262) *)

(** [hosts] is the slice [m.hosts] of pointers; [objects] holds the [Host]
    each pointer refers to, [arrays] the memory of their rings. *)
Record AppModel := mkAppModel {
  arrays : heap;
  objects : list Host;
  hosts : list nat;
  pingIntervalMs : Z
}.

Definition NewAppModel : AppModel := mkAppModel [] [] [] 1000.

Definition Hosts (m : AppModel) : list nat := hosts m.

Definition Count (m : AppModel) : Z := Z.of_nat (length (hosts m)).

Definition AddHost (m : AppModel) (name addr : string) (ringCap : Z)
  : option (AppModel * nat) :=
  '(h', r) ← NewRing (arrays m) ringCap;
  let p := length (objects m) in
  let host := mkHost name addr (Z.of_nat (length (hosts m))) HostStopped r in
  Some (mkAppModel h' (objects m ++ [host]) (hosts m ++ [p]) (pingIntervalMs m), p).

Definition AddHostWithCap (m : AppModel) (name addr : string) (ringCap : Z)
  : option (AppModel * nat) :=
  let ringCap := if bool_decide (ringCap ≤ 0) then DefaultRingCap else ringCap in
  '(h', r) ← NewRing (arrays m) ringCap;
  let p := length (objects m) in
  let host := mkHost name addr (Z.of_nat (length (hosts m))) HostStopped r in
  Some (mkAppModel h' (objects m ++ [host]) (hosts m ++ [p]) (pingIntervalMs m), p).

Definition setColorI (i : Z) (h : Host) : Host :=
  mkHost (Name h) (Addr h) i (RunState h) (buf h).

(** [for i := range m.hosts { m.hosts[i].ColorI = i }], from position [i]. *)
Fixpoint renumber (objs : list Host) (hs : list nat) (i : Z) : list Host :=
  match hs with
  | [] => objs
  | p :: hs' => renumber (alter (setColorI i) p objs) hs' (i + 1)
  end.

Definition RemoveHostAt (m : AppModel) (idx : Z) : AppModel * bool :=
  if bool_decide (idx < 0 ∨ Z.of_nat (length (hosts m)) ≤ idx) then (m, false)
  else
    (* compact slice *)
    let hs := take (Z.to_nat idx) (hosts m) ++ drop (Z.to_nat (idx + 1)) (hosts m) in
    (* reassign ColorI for stable legend order/colors *)
    (mkAppModel (arrays m) (renumber (objects m) hs 0) hs (pingIntervalMs m), true).

Definition ClearHosts (m : AppModel) : AppModel :=
  mkAppModel (arrays m) (objects m) [] (pingIntervalMs m).

(** Registry operations, to speak of every sequence of them. *)
Inductive regOp :=
  | OpAdd (name addr : string) (ringCap : Z)
  | OpAddWithCap (name addr : string) (ringCap : Z)
  | OpRemoveAt (idx : Z)
  | OpClear.

Definition apply_op (m : AppModel) (o : regOp) : option AppModel :=
  match o with
  | OpAdd n a c => fst <$> AddHost m n a c
  | OpAddWithCap n a c => fst <$> AddHostWithCap m n a c
  | OpRemoveAt i => Some (fst (RemoveHostAt m i))
  | OpClear => Some (ClearHosts m)
  end.

Fixpoint apply_ops (m : AppModel) (os : list regOp) : option AppModel :=
  match os with
  | [] => Some m
  | o :: os' => m' ← apply_op m o; apply_ops m' os'
  end.

(** The host a position of the list refers to. *)
Definition host_at (m : AppModel) (i : nat) : option Host :=
  p ← hosts m !! i; objects m !! p.

(** ** Derived notions used in the statements *)

(** The samples with sequence number [seq]. *)
Definition with_seq (seq : Z) (l : list Sample) : list Sample :=
  filter (λ x, Seq x = seq) l.

Definition sample_of (n : Z) : Sample := mkSample n 1%float n SampleOK.

(** The ring's representation invariant: the backing slice is valid, the
    cursor and the count stay inside it, and until the ring has filled once
    the cursor equals the count. *)
Definition ring_inv (h : heap) (r : Ring) : Prop :=
  slice_ok h (data r) ∧
  0 ≤ count r ≤ len r ∧
  0 ≤ head r ∧ (head r < len r ∨ (len r = 0 ∧ head r = 0)) ∧
  (count r < len r → head r = count r).

(** The slot of the oldest retained sample, as [Snapshot] computes it. *)
Definition start_of (r : Ring) : Z := Z.rem (head r - count r + len r) (len r).

(** The retained samples, oldest first: the backing array read from
    [start_of] around the end, [count] elements of it. *)
Definition retained (h : heap) (r : Ring) : list Sample :=
  let d := contents h (data r) in
  let st := Z.to_nat (start_of r) in
  take (Z.to_nat (count r)) (drop st d ++ take st d).

(** The position, in the retained history, of the sample in slot [i]. *)
Definition pos_of (r : Ring) (i : Z) : Z := (i - start_of r) `mod` len r.

(** Slot [i] is retained and holds [x]. *)
Definition slot_holds (h : heap) (r : Ring) (i : Z) (x : Sample) : Prop :=
  0 ≤ i < len r ∧ retained h r !! Z.to_nat (pos_of r i) = Some x.

(** The samples the host's ring retains, oldest first: what a snapshot of
    it returns. *)
Definition history (st : Loop) : list Sample := retained (mem st) (ring st).

(** A loop just started on a fresh ring of capacity [c], and a backend as
    the UI configures it for a 100 ms interval; the examples run on these. *)
Definition fresh_loop (c : Z) : Loop :=
  mkLoop (make [] c).1 (mkRing (make [] c).2 0 0) ∅ [] true.

Definition ui_backend : ProbingBackend :=
  mkBackend false (100 * Millisecond) (300 * Millisecond) (100 * Millisecond).

(** The registry's invariant: no host is listed twice, and the host a
    position refers to carries that position as its color index. *)
Definition reg_inv (m : AppModel) : Prop :=
  NoDup (hosts m) ∧
  ∀ i p, hosts m !! i = Some p →
         ∃ h, objects m !! p = Some h ∧ ColorI h = Z.of_nat i.

(** The state a run from [st] ends in. *)
Definition after (pb : ProbingBackend) (st : Loop) (evs : list event) : Loop :=
  default st (run pb st evs).

(** A duration that fits 64 bits. *)
Definition int64 (z : Z) : Prop := - 2 ^ 63 ≤ z ≤ max_int64.

(** The test of the grace branch of [OnRecv], line 139. *)
Definition in_grace (pb : ProbingBackend) (st : Loop) (seq rtt : Z) : Prop :=
  ∃ p, pends st !! seq = Some p ∧ pushed p = true ∧
       rtt ≤ wrap64 (MaxRTT pb + GraceLate pb).

(** The sample [OnRecv] pushes outside the grace branch. *)
Definition reply_sample (pb : ProbingBackend) (seq rtt now : Z) : Sample :=
  mkSample now (latency_ms rtt) seq
           (if bool_decide (rtt ≤ MaxRTT pb) then SampleOK else SampleLate).

(** The LOSS sample the deadline callback pushes. *)
Definition loss_sample (seq now : Z) : Sample :=
  mkSample now (-1)%float seq SampleLoss.

(** An event that is not a send or a reply of sequence [seq]. *)
Definition silent (seq : Z) (ev : event) : Prop :=
  match ev with
  | EvSend s => s ≠ seq
  | EvRecv s _ _ => s ≠ seq
  | EvFire _ _ => True
  end.

(** No armed timer is a deadline of sequence [seq]. *)
Definition no_armed (seq : Z) (ts : list Timer) : Prop :=
  ∀ t tm, ts !! t = Some tm → tseq tm = seq → tstate tm ≠ Armed.

(** Every armed timer is the one its sequence's pending record holds. With
    sequence numbers sent once each, this holds throughout a run. *)
Definition tracked (st : Loop) : Prop :=
  ∀ t tm, timers st !! t = Some tm → tstate tm = Armed →
          ∃ p, pends st !! tseq tm = Some p ∧ timer p = t.

(** The sequence numbers a run sends. *)
Definition sends (evs : list event) : list Z :=
  omap (λ ev, match ev with EvSend s => Some s | _ => None end) evs.

(** ** The ping interval ([model.go], lines 223-236) *)

Definition SetPingIntervalMs (m : AppModel) (v : Z) : AppModel :=
  let v := if bool_decide (v ≤ 0) then 1000 else v in
  mkAppModel (arrays m) (objects m) (hosts m) v.

Definition PingIntervalMs (m : AppModel) : Z := pingIntervalMs m.

(** ** The configuration ([ui_lib.go], lines 193-259) *)

Module Cfg.

Record HostConfig := mkHostConfig {
  Name : string;
  Addr : string;
  Enabled : bool
}.

Record PingConfig := mkPingConfig {
  IntervalMs : Z;
  Hosts : list HostConfig
}.

Record SpeedConfig := mkSpeedConfig {
  Server : string;
  Port : Z;
  DurationSec : Z;
  IntervalSec : Z;
  Parallel : Z;
  Reverse : bool
}.

Record WindowConfig := mkWindowConfig {
  X : Z;
  Y : Z;
  W : Z;
  H : Z
}.

Record TracerouteConfig := mkTracerouteConfig {
  Target : string;
  MaxHops : Z;
  TimeoutSec : float;     (* per-probe timeout (s) *)
  Probes : Z;             (* probes per hop *)
  DontResolve : bool;
  PulseSeconds : float
}.

Record AppConfig := mkAppConfig {
  Ping : PingConfig;
  Speed : SpeedConfig;
  Trace : TracerouteConfig;
  Window : WindowConfig
}.

End Cfg.

(** The value [defaultConfig] allocates; [Window] is left at its zero
    value. *)
Definition defaultConfig : Cfg.AppConfig :=
  Cfg.mkAppConfig
    (Cfg.mkPingConfig 1000 [])
    (Cfg.mkSpeedConfig EmptyString 5201 10 1 1 false)
    (Cfg.mkTracerouteConfig EmptyString 30 1%float 1 false 6%float)
    (Cfg.mkWindowConfig 0 0 0 0).

(** ** Loading and saving the registry ([model.go], lines 131-169) *)

(** The whole [AppModel]: the registry fields above, the pointer [m.cfg]
    ([None] for nil) and the store of [AppConfig] objects it points into.
    A configuration is shared by pointer: the caller of [LoadFromConfig]
    keeps the pointer it passed, and [SnapshotConfig] returns [m.cfg]
    itself. The slice [Ping.Hosts] is only ever replaced as a whole, so it
    is a list. *)
Record App := mkApp {
  model : AppModel;
  configs : list Cfg.AppConfig;
  cfg : option nat
}.

Definition NewApp : App := mkApp NewAppModel [] None.

Definition Config (a : App) : option nat := cfg a.

(** The loop of [LoadFromConfig], lines 147-151. *)
Fixpoint load_hosts (m : AppModel) (hs : list Cfg.HostConfig) : option AppModel :=
  match hs with
  | [] => Some m
  | h :: hs' =>
      if Cfg.Enabled h then
        '(m', _) ← AddHost m (Cfg.Name h) (Cfg.Addr h) DefaultRingCap;
        load_hosts m' hs'
      else load_hosts m hs'
  end.

Definition LoadFromConfig (a : App) (c : option nat) : option App :=
  let '(store, p) :=
    match c with
    | None => (configs a ++ [defaultConfig], length (configs a))
    | Some p => (configs a, p)
    end in
  conf ← store !! p;
  let m := if bool_decide (Cfg.IntervalMs (Cfg.Ping conf) > 0)
           then SetPingIntervalMs (model a) (Cfg.IntervalMs (Cfg.Ping conf))
           else model a in
  m' ← load_hosts (ClearHosts m) (Cfg.Hosts (Cfg.Ping conf));
  Some (mkApp m' store (Some p)).

(** The loop of [SnapshotConfig], lines 160-163: [out] is the slice [hosts]
    built so far, [ps] what remains of [m.Hosts()]. *)
Fixpoint host_configs (objs : list Host) (ps : list nat) (out : list Cfg.HostConfig)
  : option (list Cfg.HostConfig) :=
  match ps with
  | [] => Some out
  | p :: ps' =>
      h ← objs !! p;
      host_configs objs ps' (out ++ [Cfg.mkHostConfig (Name h) (Addr h) true])
  end.

(** [SnapshotConfig] returns the pointer [m.cfg], after writing through it. *)
Definition SnapshotConfig (a : App) (winGeom : Cfg.WindowConfig)
  : option (App * nat) :=
  let '(store, p) :=
    match cfg a with
    | None => (configs a ++ [defaultConfig], length (configs a))
    | Some p => (configs a, p)
    end in
  hs ← host_configs (objects (model a)) (Hosts (model a)) [];
  conf ← store !! p;
  let conf' := Cfg.mkAppConfig
                 (Cfg.mkPingConfig (PingIntervalMs (model a)) hs)
                 (Cfg.Speed conf) (Cfg.Trace conf) winGeom in
  Some (mkApp (model a) (<[p := conf']> store) (Some p), p).

(** What the callers do to an [AppModel]: the registry operations, the
    interval slider, loading and saving; a caller allocating a configuration
    (as [LoadConfig] and [defaultConfig] do) and writing through a pointer
    to one (as the Add and Remove buttons do to [Config().Ping.Hosts]). *)
Inductive appOp :=
  | OpReg (o : regOp)
  | OpSetInterval (v : Z)
  | OpNewConfig (conf : Cfg.AppConfig)
  | OpStoreConfig (p : nat) (conf : Cfg.AppConfig)
  | OpLoad (c : option nat)
  | OpSnapshot (winGeom : Cfg.WindowConfig).

Definition apply_app_op (a : App) (o : appOp) : option App :=
  match o with
  | OpReg o => m ← apply_op (model a) o; Some (mkApp m (configs a) (cfg a))
  | OpSetInterval v => Some (mkApp (SetPingIntervalMs (model a) v) (configs a) (cfg a))
  | OpNewConfig conf => Some (mkApp (model a) (configs a ++ [conf]) (cfg a))
  | OpStoreConfig p conf =>
      if bool_decide (p < length (configs a))%nat
      then Some (mkApp (model a) (<[p := conf]> (configs a)) (cfg a))
      else None
  | OpLoad c => LoadFromConfig a c
  | OpSnapshot w => fst <$> SnapshotConfig a w
  end.

Fixpoint apply_app_ops (a : App) (os : list appOp) : option App :=
  match os with
  | [] => Some a
  | o :: os' => a' ← apply_app_op a o; apply_app_ops a' os'
  end.

(** The configuration entry [SnapshotConfig] writes for a host. *)
Definition host_entry (h : Host) : Cfg.HostConfig :=
  Cfg.mkHostConfig (Name h) (Addr h) true.

(** The hosts of a configuration that are enabled, in order. *)
Definition enabled_hosts (conf : Cfg.AppConfig) : list Cfg.HostConfig :=
  filter (λ hc, Cfg.Enabled hc = true) (Cfg.Hosts (Cfg.Ping conf)).

(** The hosts of the registry, in list order. *)
Definition listed (m : AppModel) : list Host :=
  omap (λ p, objects m !! p) (hosts m).

(** ** The debounced saver ([ui_lib.go], lines 294-304) *)

(** A [time.Timer] made by [Trigger], with the delay and the callback it was
    armed with; [F] is the type of callbacks. *)
Record SaveTimer (F : Type) := mkSaveTimer {
  sdelay : Z;
  sfn : F;
  sstate : timerState
}.

Arguments mkSaveTimer {F} _ _ _.
Arguments sdelay {F} _.
Arguments sfn {F} _.
Arguments sstate {F} _.

(** A [DebouncedSaver] with the timers it has made, and the callbacks that
    have run so far, in order. [stimer] is the field [timer], nil in the
    zero value. *)
Record Saver (F : Type) := mkSaver {
  stimers : list (SaveTimer F);
  stimer : option nat;
  ran : list F
}.

Arguments mkSaver {F} _ _ _.
Arguments stimers {F} _.
Arguments stimer {F} _.
Arguments ran {F} _.

Definition zeroSaver {F} : Saver F := mkSaver [] None [].

(** [d.timer.Stop()]. *)
Definition stopSave {F} (ts : list (SaveTimer F)) (t : nat) : list (SaveTimer F) :=
  match ts !! t with
  | Some tm =>
      if bool_decide (sstate tm = Armed)
      then <[t := mkSaveTimer (sdelay tm) (sfn tm) Stopped]> ts
      else ts
  | None => ts
  end.

Definition Trigger {F} (d : Saver F) (delay : Z) (fn : F) : Saver F :=
  let ts := match stimer d with
            | Some t => stopSave (stimers d) t
            | None => stimers d
            end in
  mkSaver (ts ++ [mkSaveTimer delay fn Armed]) (Some (length ts)) (ran d).

(** The delay of timer [t] elapses: an armed timer fires and runs its
    callback, any other does nothing. *)
Definition expire {F} (d : Saver F) (t : nat) : Saver F :=
  match stimers d !! t with
  | Some tm =>
      if bool_decide (sstate tm = Armed)
      then mkSaver (<[t := mkSaveTimer (sdelay tm) (sfn tm) Fired]> (stimers d))
                   (stimer d) (ran d ++ [sfn tm])
      else d
  | None => d
  end.

Inductive saveEvent (F : Type) :=
  | SvTrigger (delay : Z) (fn : F)
  | SvExpire (t : nat).

Arguments SvTrigger {F} _ _.
Arguments SvExpire {F} _.

Definition save_step {F} (d : Saver F) (ev : saveEvent F) : Saver F :=
  match ev with
  | SvTrigger delay fn => Trigger d delay fn
  | SvExpire t => expire d t
  end.

Definition save_run {F} (d : Saver F) (evs : list (saveEvent F)) : Saver F :=
  foldl save_step d evs.

(** ** The backend the UI starts ([unnamed/part_001], lines 431-441) *)

(** The [ProbingBackend] that [StartPinging] builds when the interval slider
    shows [v]; the slider's range is 100 to 1000. *)
Definition StartPinging_backend (v : Z) : ProbingBackend :=
  mkBackend false
            (wrap64 (v * Millisecond))
            (maxDur (wrap64 (wrap64 (2 * v) * Millisecond)) (300 * Millisecond))
            (100 * Millisecond).

(** ** The repaint tickers ([pinggraph.go], lines 68-83; [util.go], lines
    186-194) *)

Definition frameRateToMs (frameRate : Z) : Z :=
  if bool_decide (frameRate ≤ 0) then 33 else Z.quot 1000 frameRate.

(** [GraphWidget.StartTicker]: the period the ticker is started with. *)
Definition StartTicker (frameRate : Z) : Z :=
  let ms := frameRateToMs frameRate in
  if bool_decide (ms ≤ 0) then 33 else ms.

(** [SpeedGraphWidget.StartTicker] divides without a guard. *)
Definition SpeedStartTicker (frameRate : Z) : option Z :=
  if bool_decide (frameRate = 0) then None   (* integer divide by zero *)
  else
    let ms := Z.quot 1000 frameRate in
    Some (if bool_decide (ms ≤ 0) then 33 else ms).

(** ** Series colors ([ui_lib.go], lines 38-52) *)

Definition palette : list (Z * Z * Z) :=
  [ (90, 180, 255);    (* azure *)
    (255, 120, 120);   (* salmon *)
    (255, 200, 80);    (* amber *)
    (120, 230, 140);   (* mint *)
    (200, 140, 255);   (* purple *)
    (80, 220, 200);    (* teal *)
    (255, 160, 220);   (* pink *)
    (160, 200, 255) ]. (* light blue *)

(** [seriesColor(i)], as the RGBA value handed to [qcolor]; Go's [%] takes
    the sign of [i], and a negative index panics. *)
Definition seriesColor (i : Z) : option (Z * Z * Z * Z) :=
  let k := Z.rem i (Z.of_nat (length palette)) in
  if bool_decide (0 ≤ k) then
    c ← palette !! Z.to_nat k; Some (c.1.1, c.1.2, c.2, 255)
  else None.

(** ** Further notions used in the statements *)


(** The documented shape of a LOSS sample ("ms latency; negative for
    loss/timeouts"): its latency is -1. *)
Definition loss_ok (s : Sample) : Prop :=
  State s = SampleLoss → MS s = (-1)%float.

(** The state [RunForHost] starts its handlers in. *)
Definition start_loop (m : heap) (host : Host) : Loop :=
  mkLoop m (buf host) ∅ [] true.

(** The rings of a registry: every host object owns a valid, still empty
    ring, in an array of its own. *)
Definition rings_inv (m : AppModel) : Prop :=
  length (arrays m) = length (objects m) ∧
  ∀ p h, objects m !! p = Some h →
         ring_inv (arrays m) (buf h) ∧ arr (data (buf h)) = Some p ∧
         count (buf h) = 0.

(** What every reachable [AppModel] satisfies. *)
Definition app_inv (a : App) : Prop :=
  reg_inv (model a) ∧ rings_inv (model a) ∧
  0 < pingIntervalMs (model a) ∧
  ∀ p, cfg a = Some p → (p < length (configs a))%nat.

(** The saver's invariant: an armed timer is the one [d.timer] holds. *)
Definition saver_inv {F} (d : Saver F) : Prop :=
  ∀ t tm, stimers d !! t = Some tm → sstate tm = Armed → stimer d = Some t.

(** * Properties *)

Example snapshot_wraps :
  ('(h, r) ← NewRing [] 3;
   '(h, r) ← push_all h r (sample_of <$> [1; 2; 3; 4; 5]);
   snapshot h r) = Some (sample_of <$> [3; 4; 5]).
Proof. reflexivity. Qed.

Example snapshot_short :
  ('(h, r) ← NewRing [] 3; '(h, r) ← push_all h r (sample_of <$> [1; 2]);
   snapshot h r) = Some (sample_of <$> [1; 2]).
Proof. reflexivity. Qed.

(** ** Slices *)

Lemma contents_length h s :
  slice_ok h s → length (contents h s) = Z.to_nat (slen s).
Proof.
  intros (Ho & Hl & Ha). unfold contents.
  destruct (arr s) as [a|]; [|simpl; lia].
  destruct Ha as (l & -> & Hb).
  rewrite length_take, length_drop. lia.
Qed.

Lemma index_contents h s i :
  slice_ok h s → 0 ≤ i < slen s →
  index h s i = contents h s !! Z.to_nat i.
Proof.
  intros (Ho & Hl & Ha) Hi. unfold index, contents.
  rewrite bool_decide_eq_true_2 by done.
  destruct (arr s) as [a|]; simpl; [|lia].
  destruct Ha as (l & -> & Hb). simpl.
  rewrite lookup_take_lt by lia. rewrite lookup_drop.
  f_equal. lia.
Qed.

Lemma index_outside h s i : ¬ (0 ≤ i < slen s) → index h s i = None.
Proof. intros Hi. unfold index. by rewrite bool_decide_eq_false_2. Qed.

(** What [s[i] = x] does to the heap: it succeeds inside the slice, rewrites
    position [i] of that slice, keeps every array's length and leaves every
    other array alone. *)
Lemma assign_spec h s i x :
  slice_ok h s → 0 ≤ i < slen s →
  ∃ h', assign h s i x = Some h' ∧
        contents h' s = <[Z.to_nat i := x]> (contents h s) ∧
        length h' = length h ∧
        (∀ a, arr s ≠ Some a → h' !! a = h !! a) ∧
        (∀ a l, h !! a = Some l → ∃ l', h' !! a = Some l' ∧ length l' = length l).
Proof.
  intros (Ho & Hl & Ha) Hi. unfold assign, contents.
  rewrite bool_decide_eq_true_2 by done.
  destruct (arr s) as [a|] eqn:Earr; simpl; [|lia].
  destruct Ha as (l & Hla & Hb). rewrite Hla. simpl.
  rewrite bool_decide_eq_true_2 by lia.
  eexists; split; [done|].
  assert (a < length h)%nat by (by eapply lookup_lt_Some).
  split; [|split; [|split]].
  - rewrite list_lookup_insert_eq by done.
    rewrite drop_insert_ge by lia.
    rewrite take_insert_lt by lia.
    f_equal. lia.
  - by rewrite length_insert.
  - intros a' Hne. rewrite list_lookup_insert_ne; [done|congruence].
  - intros a' l' Hl'. destruct (decide (a' = a)) as [->|Hne].
    + rewrite list_lookup_insert_eq by done. eexists; split; [done|].
      rewrite length_insert. congruence.
    + rewrite list_lookup_insert_ne by done. eauto.
Qed.

Lemma slice_ok_mono h h' s :
  (∀ a l, h !! a = Some l → ∃ l', h' !! a = Some l' ∧ length l' = length l) →
  slice_ok h s → slice_ok h' s.
Proof.
  intros Hh (Ho & Hl & Ha). split; [done|]. split; [done|].
  destruct (arr s) as [a|]; [|done].
  destruct Ha as (l & Hla & Hb). destruct (Hh _ _ Hla) as (l' & -> & Hlen).
  eexists; split; [done|]. lia.
Qed.

Lemma contents_frame h h' s :
  (∀ a, arr s = Some a → h' !! a = h !! a) → contents h' s = contents h s.
Proof.
  intros Hh. unfold contents. destruct (arr s) as [a|]; [|done].
  by rewrite Hh.
Qed.

Lemma make_spec h n :
  0 ≤ n →
  let '(h', s) := make h n in
  slice_ok h' s ∧ contents h' s = replicate (Z.to_nat n) zeroSample ∧
  arr s = Some (length h) ∧ slen s = n ∧ scap s = n ∧
  (∀ a l, h !! a = Some l → h' !! a = Some l).
Proof.
  intros Hn. unfold make. simpl. split; [|split].
  - repeat split; simpl; try lia.
    eexists. rewrite lookup_app_r by lia. rewrite Nat.sub_diag. simpl.
    split; [done|]. rewrite length_replicate. lia.
  - unfold contents. simpl. rewrite lookup_app_r by lia.
    rewrite Nat.sub_diag. simpl. rewrite drop_0.
    rewrite take_ge; [done|]. rewrite length_replicate. lia.
  - repeat split; try done. intros a l Hl.
    rewrite lookup_app_l; [done|]. by eapply lookup_lt_Some.
Qed.

(** ** The ring *)

Lemma lastn_short {A} n (l : list A) : (length l ≤ n)%nat → lastn n l = l.
Proof. intros H. unfold lastn. replace (length l - n)%nat with 0%nat by lia. done. Qed.

Lemma lastn_length {A} n (l : list A) : length (lastn n l) = Nat.min n (length l).
Proof. unfold lastn. rewrite length_drop. lia. Qed.

Lemma lastn_snoc_full {A} n (l : list A) x :
  length l = n → (0 < n)%nat → lastn n (l ++ [x]) = drop 1 l ++ [x].
Proof.
  intros Hl Hn. unfold lastn. rewrite length_app. simpl.
  replace (length l + 1 - n)%nat with 1%nat by lia.
  rewrite drop_app_le by lia. done.
Qed.

Lemma lastn_lastn_app {A} n (l k : list A) :
  lastn n (lastn n l ++ k) = lastn n (l ++ k).
Proof.
  unfold lastn. rewrite !length_app, !drop_app, drop_drop, !length_drop.
  f_equal; f_equal; lia.
Qed.

Lemma start_of_short h r : ring_inv h r → count r < len r → start_of r = 0.
Proof.
  intros (_ & Hc & Hh & Hb & Hs) Hlt. unfold start_of.
  rewrite Hs by done. replace (count r - count r + len r) with (len r) by lia.
  apply Z.rem_same. lia.
Qed.

Lemma start_of_full h r :
  ring_inv h r → count r = len r → 0 < len r → start_of r = head r.
Proof.
  intros (_ & Hc & Hh & Hb & Hs) He Hpos. unfold start_of.
  replace (head r - count r + len r) with (head r) by lia.
  apply Z.rem_small. lia.
Qed.

Lemma retained_short h r :
  ring_inv h r → count r < len r →
  retained h r = take (Z.to_nat (count r)) (contents h (data r)).
Proof.
  intros Hinv Hlt. unfold retained. rewrite (start_of_short h r) by done.
  simpl. by rewrite app_nil_r.
Qed.

Lemma retained_full h r :
  ring_inv h r → count r = len r →
  retained h r = drop (Z.to_nat (head r)) (contents h (data r))
                 ++ take (Z.to_nat (head r)) (contents h (data r)).
Proof.
  intros Hinv He. pose proof Hinv as (Hok & Hc & Hh & Hb & Hs).
  pose proof (contents_length _ _ Hok) as Hlen. fold (len r) in Hlen.
  unfold retained. destruct (decide (len r = 0)) as [H0|Hn0].
  - assert (contents h (data r) = []) as ->.
    { apply length_zero_iff_nil. lia. }
    rewrite !drop_nil, !take_nil. simpl. by rewrite take_nil.
  - rewrite (start_of_full h r) by (done || lia).
    apply take_ge. rewrite length_app, length_drop, length_take. lia.
Qed.

Lemma retained_length h r :
  ring_inv h r → length (retained h r) = Z.to_nat (count r).
Proof.
  intros Hinv. pose proof Hinv as (Hok & Hc & Hh & Hb & Hs).
  pose proof (contents_length _ _ Hok) as Hlen. fold (len r) in Hlen.
  destruct (decide (count r < len r)).
  - rewrite retained_short by done. rewrite length_take. lia.
  - rewrite retained_full by (done || lia).
    rewrite length_app, length_drop, length_take. lia.
Qed.

Lemma Push_empty h r s : len r = 0 → Push h r s = Some (h, r, -1).
Proof. intros H. unfold Push. by rewrite bool_decide_eq_true_2. Qed.

(** One push into a ring of positive capacity: it cannot fail, it writes the
    slot under the cursor and nothing else, and it keeps the invariant. *)
Lemma Push_spec h r s :
  ring_inv h r → 0 < len r →
  ∃ h',
    Push h r s =
      Some (h', mkRing (data r) (Z.rem (head r + 1) (len r))
                       (Z.min (count r + 1) (len r)), head r) ∧
    contents h' (data r) = <[Z.to_nat (head r) := s]> (contents h (data r)) ∧
    length h' = length h ∧
    (∀ a, arr (data r) ≠ Some a → h' !! a = h !! a) ∧
    (∀ a l, h !! a = Some l → ∃ l', h' !! a = Some l' ∧ length l' = length l) ∧
    ring_inv h' (mkRing (data r) (Z.rem (head r + 1) (len r))
                        (Z.min (count r + 1) (len r))).
Proof.
  intros Hinv Hpos. pose proof Hinv as (Hok & Hc & Hh & Hb & Hs).
  destruct (assign_spec h (data r) (head r) s Hok) as (h' & Ha & Hcont & Hlen & Hfr & Hsz).
  { unfold len in *. lia. }
  exists h'. unfold Push. rewrite bool_decide_eq_false_2 by lia.
  rewrite Ha. simpl.
  assert ((if bool_decide (count r < len r) then count r + 1 else count r)
          = Z.min (count r + 1) (len r)) as ->.
  { case_bool_decide; lia. }
  split; [done|]. split; [done|]. split; [done|]. split; [done|]. split; [done|].
  assert (0 ≤ Z.rem (head r + 1) (len r) < len r) as Hrem.
  { rewrite Z.rem_mod_nonneg by lia. apply Z.mod_pos_bound. lia. }
  split; [by eapply slice_ok_mono|]. unfold len in *. simpl.
  split; [lia|]. split; [lia|]. split; [lia|].
  intros Hlt. rewrite Hs by lia. rewrite Z.rem_small by lia. lia.
Qed.

(** The retained history after a push is the old one with the new sample
    appended, cut to the last [len r]. *)
Lemma Push_retained h r s h' r' i :
  ring_inv h r → Push h r s = Some (h', r', i) →
  retained h' r' = lastn (Z.to_nat (len r)) (retained h r ++ [s]).
Proof.
  intros Hinv HP. pose proof Hinv as (Hok & Hc & Hh & Hb & Hs).
  pose proof (contents_length _ _ Hok) as Hlen. fold (len r) in Hlen.
  destruct (decide (len r = 0)) as [H0|Hn0].
  { rewrite Push_empty in HP by done. injection HP as <- <- <-.
    unfold lastn. rewrite H0. simpl. rewrite Nat.sub_0_r, drop_all.
    unfold retained. replace (count r) with 0 by lia. done. }
  assert (0 < len r) as Hpos by (unfold len in *; lia).
  destruct (Push_spec h r s Hinv Hpos) as (h1 & HP' & Hcont & _ & _ & _ & Hinv').
  rewrite HP in HP'. injection HP' as -> -> ->. clear HP.
  set (r' := mkRing _ _ _) in *.
  set (d := contents h (data r)) in *.
  destruct (decide (count r < len r)) as [Hlt|Hge].
  - (* not yet full: the cursor equals the count *)
    rewrite (retained_short h r) by done. fold d.
    rewrite lastn_short by (rewrite length_app, length_take; simpl; lia).
    assert (head r = count r) as Hhd by auto.
    destruct (decide (count r + 1 < len r)) as [Hlt'|Hfull].
    + rewrite retained_short by (done || (subst r'; unfold len; simpl; fold (len r); lia)).
      subst r'. simpl. rewrite Hcont. fold d. rewrite Hhd.
      replace (Z.min (count r + 1) (len r)) with (count r + 1) by lia.
      replace (Z.to_nat (count r + 1)) with (S (Z.to_nat (count r))) by lia.
      rewrite (take_S_r _ _ s) by (apply list_lookup_insert_eq; lia).
      by rewrite take_insert_ge by lia.
    + rewrite retained_full by (done || (subst r'; unfold len; simpl; fold (len r); lia)).
      subst r'. simpl. rewrite Hcont. fold d. rewrite Hhd.
      assert (count r + 1 = len r) as Hcl by lia.
      rewrite Hcl, Z.rem_same by lia. simpl. rewrite drop_0, app_nil_r.
      rewrite <- (take_ge (<[_ := _]> d) (S (Z.to_nat (count r))))
        by (rewrite length_insert; lia).
      rewrite (take_S_r _ _ s) by (apply list_lookup_insert_eq; lia).
      by rewrite take_insert_ge by lia.
  - (* full: the oldest sample sits under the cursor and is overwritten *)
    assert (count r = len r) as Hcl by lia.
    rewrite (retained_full h r) by done. fold d.
    rewrite lastn_snoc_full
      by (rewrite ?length_app, ?length_drop, ?length_take; lia).
    rewrite retained_full by (done || (subst r'; unfold len; simpl; fold (len r); lia)).
    subst r'. simpl. rewrite Hcont. fold d.
    assert (head r < len r) as Hhl by lia.
    destruct (lookup_lt_is_Some_2 d (Z.to_nat (head r))) as [x Hx]; [lia|].
    rewrite (drop_S d x (Z.to_nat (head r))) by done. simpl.
    destruct (decide (head r + 1 < len r)) as [Hin|Hwrap].
    + rewrite Z.rem_small by lia.
      replace (Z.to_nat (head r + 1)) with (S (Z.to_nat (head r))) by lia.
      rewrite drop_insert_lt by lia.
      rewrite (take_S_r _ _ s) by (apply list_lookup_insert_eq; lia).
      rewrite take_insert_ge by lia. rewrite drop_0. by rewrite <- app_assoc.
    + assert (head r + 1 = len r) as Hhl' by lia.
      rewrite Hhl', Z.rem_same by lia.
      change (Z.to_nat 0) with 0%nat. rewrite !drop_0, take_0, app_nil_r.
      rewrite (drop_ge d (S _)) by lia. simpl.
      rewrite <- (take_ge (<[_ := _]> d) (S (Z.to_nat (head r))))
        by (rewrite length_insert; lia).
      rewrite (take_S_r _ _ s) by (apply list_lookup_insert_eq; lia).
      by rewrite take_insert_ge by lia.
Qed.

(** The [i]-th retained sample is the one [Snapshot] reads in its [i]-th
    iteration. *)
Lemma retained_lookup h r i :
  ring_inv h r → 0 ≤ i < count r →
  index h (data r) (Z.rem (start_of r + i) (len r)) = retained h r !! Z.to_nat i.
Proof.
  intros Hinv Hi. pose proof Hinv as (Hok & Hc & Hh & Hb & Hs).
  pose proof (contents_length _ _ Hok) as Hlen. fold (len r) in Hlen.
  assert (0 < len r) as Hpos by lia.
  destruct (decide (count r < len r)) as [Hlt|Hge].
  - rewrite (start_of_short h r), retained_short by done.
    rewrite Z.add_0_l, Z.rem_small by lia.
    rewrite index_contents by (done || (unfold len in *; lia)).
    by rewrite lookup_take_lt by lia.
  - rewrite (start_of_full h r), retained_full by (done || lia).
    destruct (decide (head r + i < len r)) as [Hin|Hout].
    + rewrite Z.rem_small by lia.
      rewrite index_contents by (done || (unfold len in *; lia)).
      rewrite lookup_app_l by (rewrite length_drop; lia).
      rewrite lookup_drop. f_equal. lia.
    + rewrite Z.rem_mod_nonneg by lia.
      replace (head r + i) with (head r + i - len r + 1 * len r) by lia.
      rewrite Z.mod_add, Z.mod_small by lia.
      rewrite index_contents by (done || (unfold len in *; lia)).
      rewrite lookup_app_r by (rewrite length_drop; lia).
      rewrite length_drop, lookup_take_lt by lia. f_equal. lia.
Qed.

(** The copy loop, started at iteration [i] with the first [i] elements of
    the destination already equal to the retained samples, fills in the rest.
    It reads the ring and writes the destination only. *)
Lemma snapshot_loop_spec r dst tgt k : ∀ i h,
  slice_ok h (data r) → slice_ok h dst → ¬ shares dst (data r) →
  (∀ j, i ≤ j < i + Z.of_nat k →
        index h (data r) (Z.rem (start_of r + j) (len r)) = tgt !! Z.to_nat j) →
  length tgt = Z.to_nat (slen dst) → 0 ≤ i → i + Z.of_nat k = slen dst →
  take (Z.to_nat i) (contents h dst) = take (Z.to_nat i) tgt →
  ∃ h', snapshot_loop r dst (start_of r) k i h = Some h' ∧
        contents h' dst = tgt ∧
        length h' = length h ∧
        (∀ a, arr dst ≠ Some a → h' !! a = h !! a) ∧
        (∀ a l, h !! a = Some l → ∃ l', h' !! a = Some l' ∧ length l' = length l).
Proof.
  induction k as [|k IH]; intros i h Hr Hd Hns Hrd Hlt Hi Hik Hpre.
  - exists h. simpl. split; [done|]. split; [|by eauto].
    pose proof (contents_length _ _ Hd) as Hl.
    rewrite <- (take_ge (contents h dst) (Z.to_nat i)) by lia.
    rewrite <- (take_ge tgt (Z.to_nat i)) by lia. done.
  - simpl.
    destruct (lookup_lt_is_Some_2 tgt (Z.to_nat i)) as [x Hx]; [lia|].
    rewrite Hrd by lia. rewrite Hx. simpl.
    destruct (assign_spec h dst i x Hd) as (h1 & Ha & Hc1 & Hl1 & Hf1 & Hs1); [lia|].
    rewrite Ha. simpl.
    assert (∀ a, arr (data r) = Some a → h1 !! a = h !! a) as Hring.
    { intros a Ha'. apply Hf1. intros Hda. apply Hns. by exists a. }
    destruct (IH (i + 1) h1) as (h2 & Hloop & Hc2 & Hl2 & Hf2 & Hs2).
    + by eapply slice_ok_mono.
    + by eapply slice_ok_mono.
    + done.
    + intros j Hj. rewrite <- Hrd by lia. unfold index.
      case_bool_decide; [|done].
      destruct (arr (data r)) as [a|] eqn:Ea; [|done]. simpl.
      by rewrite Hring.
    + done.
    + lia.
    + lia.
    + rewrite Hc1. replace (Z.to_nat (i + 1)) with (S (Z.to_nat i)) by lia.
      pose proof (contents_length _ _ Hd) as Hl.
      rewrite (take_S_r _ _ x) by (apply list_lookup_insert_eq; lia).
      rewrite (take_S_r tgt _ x) by done.
      rewrite take_insert_ge by lia. by rewrite Hpre.
    + exists h2. split; [done|]. split; [done|]. split; [congruence|].
      split.
      * intros a Ha'. rewrite Hf2 by done. by apply Hf1.
      * intros a l Hl. destruct (Hs1 _ _ Hl) as (l1 & Hl1' & Hlen1).
        destruct (Hs2 _ _ Hl1') as (l2 & Hl2' & Hlen2).
        exists l2. split; [done|]. congruence.
Qed.

Lemma slice_ok_addr h s a : slice_ok h s → arr s = Some a → (a < length h)%nat.
Proof.
  intros (_ & _ & Ha) E. rewrite E in Ha. destruct Ha as (l & Hl & _).
  by eapply lookup_lt_Some.
Qed.

(** [Snapshot] into a valid destination that is not a view of the ring's own
    array: it cannot fail, the slice it returns shows the retained samples,
    that slice is a view of the destination's array or of a fresh one, never
    of the ring's, and the ring's array is not written. *)
Lemma Snapshot_spec h r dst :
  ring_inv h r → slice_ok h dst → ¬ shares dst (data r) →
  ∃ h' out,
    Snapshot h r dst = Some (h', out) ∧
    contents h' out = retained h r ∧
    ¬ shares out (data r) ∧
    slice_ok h' out ∧
    (arr out = arr dst ∨ arr out = Some (length h)) ∧
    (∀ a, (a < length h)%nat → arr out ≠ Some a → h' !! a = h !! a) ∧
    (∀ a l, h !! a = Some l → ∃ l', h' !! a = Some l' ∧ length l' = length l).
Proof.
  intros Hinv Hd Hns. pose proof Hinv as (Hok & Hc & Hh & Hb & Hs).
  unfold Snapshot. case_bool_decide as Hc0.
  - (* empty ring: dst[:0] *)
    unfold reslice. destruct Hd as (Ho & Hl & Ha).
    rewrite bool_decide_eq_true_2 by lia. simpl.
    eexists _, _. split; [done|]. split.
    { unfold retained. rewrite Hc0. simpl. unfold contents. simpl.
      destruct (arr dst); [|done]. by destruct (h !! _). }
    split; [done|]. split; [by repeat split; simpl; try lia|].
    split; [by left|]. eauto.
  - assert (0 < count r) as Hpos by lia.
    assert (0 < len r) as Hlpos by lia.
    pose proof (retained_length h r Hinv) as Hrl.
    assert (∃ h1 d,
      (if bool_decide (scap dst < count r) then Some (make h (count r))
       else d ← reslice dst (count r); Some (h, d)) = Some (h1, d) ∧
      slice_ok h1 d ∧ slen d = count r ∧ ¬ shares d (data r) ∧
      (arr d = arr dst ∨ arr d = Some (length h)) ∧
      (∀ a l, h !! a = Some l → h1 !! a = Some l) ∧
      (length h ≤ length h1)%nat) as (h1 & d & -> & Hd1 & Hlen1 & Hns1 & Harr & Hext & Hgrow).
    { case_bool_decide as Hcap.
      - pose proof (make_spec h (count r) ltac:(lia)) as Hm.
        destruct (make h (count r)) as [h1 d] eqn:Em.
        destruct Hm as (Hm1 & Hm2 & Hm3 & Hm4 & Hm5 & Hm6).
        exists h1, d. split; [done|]. split; [done|]. split; [done|]. split.
        { intros (a & Ha1 & Ha2). rewrite Hm3 in Ha1. simplify_eq.
          pose proof (slice_ok_addr _ _ _ Hok Ha2). lia. }
        split; [by right|]. split; [done|].
        unfold make in Em. simplify_eq. rewrite length_app. lia.
      - unfold reslice. destruct Hd as (Ho & Hl & Ha).
        rewrite bool_decide_eq_true_2 by lia. simpl.
        eexists _, _. split; [done|]. split; [by repeat split; simpl; try lia|].
        split; [done|]. split; [done|]. split; [by left|]. split; [done|]. done. }
    simpl. rewrite bool_decide_eq_false_2 by lia.
    fold (start_of r).
    destruct (snapshot_loop_spec r d (retained h r) (Z.to_nat (count r)) 0 h1)
      as (h2 & Hloop & Hc2 & Hl2 & Hf2 & Hs2).
    + eapply slice_ok_mono; [|done]. intros a l Hl. eauto.
    + done.
    + done.
    + intros j Hj. rewrite <- retained_lookup by (done || lia).
      unfold index. case_bool_decide; [|done].
      destruct Hok as (_ & _ & Hok). destruct (arr (data r)) as [a|]; [|done].
      destruct Hok as (l & Hl & _). simpl. by rewrite (Hext _ _ Hl), Hl.
    + lia.
    + done.
    + lia.
    + done.
    + rewrite Hloop. simpl. exists h2, d. split; [done|]. split; [done|].
      split; [done|]. split; [by eapply slice_ok_mono|]. split; [done|].
      split.
      * intros a Ha Hne. rewrite Hf2 by done.
        destruct (lookup_lt_is_Some_2 h a Ha) as [l Hl]. by rewrite (Hext _ _ Hl).
      * intros a l Hl. apply Hs2. eauto.
Qed.

Lemma snapshot_retained h r : ring_inv h r → snapshot h r = Some (retained h r).
Proof.
  intros Hinv. unfold snapshot.
  destruct (Snapshot_spec h r nilSlice Hinv) as (h' & out & -> & Hc & _).
  - by repeat split.
  - by intros (a & Ha & _).
  - simpl. by rewrite Hc.
Qed.

Lemma NewRing_spec h c h' r :
  NewRing h c = Some (h', r) →
  0 ≤ c ∧ ring_inv h' r ∧ len r = c ∧ count r = 0 ∧ head r = 0 ∧
  arr (data r) = Some (length h) ∧ retained h' r = [].
Proof.
  unfold NewRing. case_bool_decide as Hc; [done|].
  pose proof (make_spec h c ltac:(lia)) as Hm.
  destruct (make h c) as [h1 d]. intros [= <- <-].
  destruct Hm as (Hm1 & Hm2 & Hm3 & Hm4 & Hm5 & Hm6).
  split; [lia|]. split.
  { split; [done|]. unfold len. simpl. lia. }
  unfold len, retained. simpl. repeat split; try done.
Qed.

Lemma ring_inv_mono h h' r :
  (∀ a l, h !! a = Some l → ∃ l', h' !! a = Some l' ∧ length l' = length l) →
  ring_inv h r → ring_inv h' r.
Proof. intros Hh (Hok & Hrest). split; [by eapply slice_ok_mono|done]. Qed.

(** Any number of pushes: they cannot fail, they keep the invariant and the
    backing slice, they write the ring's array only, and the retained history
    is the old one followed by the pushed samples, cut to the capacity. *)
Lemma push_all_spec xs : ∀ h r,
  ring_inv h r →
  ∃ h' r',
    push_all h r xs = Some (h', r') ∧ ring_inv h' r' ∧ data r' = data r ∧
    retained h' r' = lastn (Z.to_nat (len r)) (retained h r ++ xs) ∧
    length h' = length h ∧
    (∀ a, arr (data r) ≠ Some a → h' !! a = h !! a) ∧
    (∀ a l, h !! a = Some l → ∃ l', h' !! a = Some l' ∧ length l' = length l).
Proof.
  induction xs as [|x xs IH]; intros h r Hinv.
  - exists h, r. simpl. split; [done|]. split; [done|]. split; [done|].
    split; [|by eauto].
    rewrite app_nil_r, lastn_short; [done|].
    rewrite retained_length by done. destruct Hinv as (_ & ? & _). lia.
  - simpl.
    assert (∃ h1 r1 i, Push h r x = Some (h1, r1, i) ∧ ring_inv h1 r1 ∧
              data r1 = data r ∧ length h1 = length h ∧
              (∀ a, arr (data r) ≠ Some a → h1 !! a = h !! a) ∧
              (∀ a l, h !! a = Some l →
                      ∃ l', h1 !! a = Some l' ∧ length l' = length l))
      as (h1 & r1 & i & HP & Hinv1 & Hd1 & Hl1 & Hf1 & Hs1).
    { destruct (decide (len r = 0)) as [H0|Hn0].
      - rewrite Push_empty by done. exists h, r, (-1). by eauto 10.
      - destruct (Push_spec h r x Hinv) as (h1 & -> & _ & ? & ? & ? & ?).
        { destruct Hinv as (_ & ? & _). lia. }
        eexists _, _, _. by eauto 10. }
    rewrite HP. simpl.
    destruct (IH h1 r1 Hinv1) as (h2 & r2 & -> & Hinv2 & Hd2 & Hr2 & Hl2 & Hf2 & Hs2).
    exists h2, r2. split; [done|]. split; [done|]. split; [congruence|].
    split; [|split; [congruence|split]].
    + rewrite Hr2. rewrite (Push_retained h r x h1 r1 i) by done.
      unfold len. rewrite Hd1. fold (len r).
      rewrite lastn_lastn_app. by rewrite <- app_assoc.
    + intros a Ha. rewrite Hf2 by congruence. by apply Hf1.
    + intros a l Hl. destruct (Hs1 _ _ Hl) as (l1 & Hl1' & Hlen1).
      destruct (Hs2 _ _ Hl1') as (l2 & Hl2' & Hlen2).
      exists l2. split; [done|]. congruence.
Qed.

(** C1. After any [N] pushes into a fresh ring of capacity [C], a snapshot
    is exactly the [min N C] most recently pushed samples, oldest first, so
    the older ones are absent. The slice returned is never a view of the
    ring's own array (given a destination that is not one), and pushes made
    after the snapshot do not change what it shows. *)
Theorem snapshot_after_pushes h0 C xs h r :
  NewRing h0 C = Some (h, r) →
  ∃ h1 r1,
    push_all h r xs = Some (h1, r1) ∧
    snapshot h1 r1 = Some (lastn (Z.to_nat C) xs) ∧
    length (lastn (Z.to_nat C) xs) = Nat.min (length xs) (Z.to_nat C) ∧
    ∀ dst, slice_ok h1 dst → ¬ shares dst (data r1) →
      ∃ h2 out,
        Snapshot h1 r1 dst = Some (h2, out) ∧
        contents h2 out = lastn (Z.to_nat C) xs ∧
        ¬ shares out (data r1) ∧
        ∀ ys h3 r3, push_all h2 r1 ys = Some (h3, r3) →
                    contents h3 out = lastn (Z.to_nat C) xs.
Proof.
  intros HN. apply NewRing_spec in HN as (HC & Hinv & Hlen & _ & _ & _ & Hret).
  destruct (push_all_spec xs h r Hinv) as (h1 & r1 & HP & Hinv1 & Hd1 & Hr1 & _).
  rewrite Hret, Hlen in Hr1. simpl in Hr1.
  exists h1, r1. split; [done|]. split; [by rewrite snapshot_retained, Hr1|].
  split; [rewrite lastn_length; lia|].
  intros dst Hdst Hns.
  destruct (Snapshot_spec h1 r1 dst Hinv1 Hdst Hns)
    as (h2 & out & HS & Hc & Hns' & Hok' & _ & _ & Hsz).
  exists h2, out. split; [done|]. split; [congruence|]. split; [done|].
  intros ys h3 r3 HP3.
  destruct (push_all_spec ys h2 r1 (ring_inv_mono _ _ _ Hsz Hinv1))
    as (h3' & r3' & HP3' & _ & _ & _ & _ & Hf3 & _).
  rewrite HP3 in HP3'. injection HP3' as <- <-.
  rewrite <- Hr1, <- Hc. apply contents_frame.
  intros a Ha. apply Hf3. intros Hra. apply Hns'. by exists a.
Qed.

Lemma snapshot_after_pushes_witness :
  ∃ h1 r1,
    push_all (make [] 2).1 (mkRing (make [] 2).2 0 0) (sample_of <$> [1; 2; 3])
      = Some (h1, r1) ∧
    snapshot h1 r1 = Some (sample_of <$> [2; 3]).
Proof.
  destruct (snapshot_after_pushes [] 2 (sample_of <$> [1; 2; 3])
              (make [] 2).1 (mkRing (make [] 2).2 0 0) eq_refl)
    as (h1 & r1 & HP & HS & _).
  exists h1, r1. split; [exact HP | exact HS].
Defined.

(** ** [UpdateAt] *)

Lemma UpdateAt_noop h r i f :
  count r = 0 ∨ i < 0 ∨ len r ≤ i → UpdateAt h r i f = Some h.
Proof. intros H. unfold UpdateAt. by rewrite bool_decide_eq_true_2. Qed.

(** Inside the guard, [UpdateAt] cannot fail: it rewrites slot [i] of the
    backing array with the mutator applied to what the slot holds, and
    nothing else. *)
Lemma UpdateAt_spec h r i f :
  ring_inv h r → count r ≠ 0 → 0 ≤ i < len r →
  ∃ x h',
    contents h (data r) !! Z.to_nat i = Some x ∧
    UpdateAt h r i f = Some h' ∧
    contents h' (data r) = <[Z.to_nat i := f x]> (contents h (data r)) ∧
    length h' = length h ∧
    (∀ a, arr (data r) ≠ Some a → h' !! a = h !! a) ∧
    (∀ a l, h !! a = Some l → ∃ l', h' !! a = Some l' ∧ length l' = length l).
Proof.
  intros Hinv Hc Hi. pose proof Hinv as (Hok & _).
  pose proof (contents_length _ _ Hok) as Hlen. fold (len r) in Hlen.
  destruct (lookup_lt_is_Some_2 (contents h (data r)) (Z.to_nat i)) as [x Hx]; [lia|].
  destruct (assign_spec h (data r) i (f x) Hok) as (h' & Ha & Hcont & Hl & Hf & Hs).
  { unfold len in *. lia. }
  exists x, h'. split; [done|]. unfold UpdateAt.
  rewrite bool_decide_eq_false_2 by lia.
  rewrite index_contents by (done || (unfold len in *; lia)).
  rewrite Hx. simpl. by rewrite Ha.
Qed.

(** Rewriting slot [i] of the backing array rewrites position [pos_of r i]
    of the retained history (and nothing, when that slot is not retained). *)
Lemma retained_insert h h' r i y :
  ring_inv h r → ring_inv h' r → 0 ≤ i < len r →
  contents h' (data r) = <[Z.to_nat i := y]> (contents h (data r)) →
  retained h' r = <[Z.to_nat (pos_of r i) := y]> (retained h r).
Proof.
  intros Hinv Hinv' Hi Hc'. pose proof Hinv as (Hok & Hc & Hh & Hb & Hs).
  pose proof (contents_length _ _ Hok) as Hlen. fold (len r) in Hlen.
  unfold pos_of. destruct (decide (count r < len r)) as [Hlt|Hge].
  - rewrite (start_of_short h r) by done. rewrite Z.sub_0_r, Z.mod_small by lia.
    rewrite !retained_short by done. rewrite Hc'.
    destruct (decide (i < count r)).
    + by rewrite take_insert_lt by lia.
    + rewrite take_insert_ge by lia.
      by rewrite list_insert_ge by (rewrite length_take; lia).
  - rewrite (start_of_full h r) by (done || lia).
    rewrite !retained_full by (done || lia). rewrite Hc'.
    destruct (decide (head r ≤ i)) as [Hle|Hgt].
    + rewrite Z.mod_small by lia.
      rewrite drop_insert_ge, take_insert_ge by lia.
      rewrite insert_app_l by (rewrite length_drop; lia).
      do 2 f_equal. lia.
    + replace (i - head r) with (i - head r + len r + (-1) * len r) by lia.
      rewrite Z.mod_add, Z.mod_small by lia.
      rewrite drop_insert_lt, take_insert_lt by lia.
      rewrite insert_app_r_alt by (rewrite length_drop; lia).
      rewrite length_drop. do 2 f_equal. lia.
Qed.

Lemma start_of_nonneg h r : ring_inv h r → 0 ≤ start_of r.
Proof.
  intros Hinv. pose proof Hinv as (Hok & Hc & Hh & Hb & Hs).
  destruct (decide (count r < len r)).
  - rewrite (start_of_short h r); (done || lia).
  - destruct (decide (len r = 0)) as [H0|].
    + unfold start_of. rewrite H0. rewrite Z.rem_0_r_ext by done. lia.
    + rewrite (start_of_full h r); (done || lia).
Qed.

(** A retained slot's position is inside the history, and the slot and the
    position hold the same sample. *)
Lemma slot_holds_contents h r i x :
  ring_inv h r → slot_holds h r i x →
  contents h (data r) !! Z.to_nat i = Some x ∧ 0 ≤ pos_of r i < count r.
Proof.
  intros Hinv (Hi & Hx). pose proof Hinv as (Hok & Hc & Hh & Hb & Hs).
  pose proof (contents_length _ _ Hok) as Hlen. fold (len r) in Hlen.
  assert (0 ≤ pos_of r i < len r) as Hp by (apply Z.mod_pos_bound; lia).
  assert (pos_of r i < count r) as Hpc.
  { apply lookup_lt_Some in Hx. rewrite retained_length in Hx by done. lia. }
  split; [|lia].
  rewrite <- Hx, <- retained_lookup by (done || lia).
  rewrite <- index_contents by (done || (unfold len in *; lia)).
  f_equal. unfold pos_of in *.
  pose proof (start_of_nonneg h r Hinv).
  rewrite Z.rem_mod_nonneg by lia.
  rewrite Zplus_mod_idemp_r.
  replace (start_of r + (i - start_of r)) with i by lia.
  by rewrite Z.mod_small by lia.
Qed.

(** The slot a push returns holds the pushed sample, as the newest one. *)
Lemma Push_slot_holds h r s h' r' i :
  ring_inv h r → 0 < len r → Push h r s = Some (h', r', i) →
  slot_holds h' r' i s ∧ count r' - pos_of r' i = 1 ∧ i = head r.
Proof.
  intros Hinv Hpos HP. pose proof Hinv as (Hok & Hc & Hh & Hb & Hs).
  destruct (Push_spec h r s Hinv Hpos) as (h1 & HP' & Hcont & _ & _ & _ & Hinv').
  rewrite HP in HP'. injection HP' as -> -> ->.
  set (r' := mkRing _ _ _) in *.
  assert (len r' = len r) as Hlen' by done.
  assert (count r' = Z.min (count r + 1) (len r)) as Hcnt' by done.
  assert (head r' = Z.rem (head r + 1) (len r)) as Hhd' by done.
  assert (pos_of r' (head r) = count r' - 1) as Hpos'.
  { unfold pos_of. rewrite Hlen'. destruct (decide (count r + 1 < len r)).
    - rewrite (start_of_short h1 r') by (done || lia).
      rewrite Hs by lia. rewrite Z.sub_0_r, Z.mod_small by lia. lia.
    - rewrite (start_of_full h1 r') by (done || lia). rewrite Hhd'.
      destruct (decide (count r < len r)).
      + rewrite Hs by lia. replace (count r + 1) with (len r) by lia.
        rewrite Z.rem_same by lia. rewrite Z.sub_0_r, Z.mod_small by lia. lia.
      + destruct (decide (head r + 1 < len r)).
        * rewrite Z.rem_small by lia.
          replace (head r - (head r + 1)) with (len r - 1 + (-1) * len r) by lia.
          rewrite Z.mod_add, Z.mod_small by lia. lia.
        * replace (head r + 1) with (len r) by lia.
          rewrite Z.rem_same by lia. rewrite Z.sub_0_r, Z.mod_small by lia. lia. }
  split; [|split; [lia|done]].
  split; [lia|]. rewrite Hpos'.
  rewrite (Push_retained h r s h1 r' (head r)) by done.
  pose proof (retained_length h r Hinv) as Hrl.
  unfold lastn. rewrite lookup_drop, length_app. simpl.
  rewrite lookup_app_r by lia.
  match goal with |- [s] !! ?n = _ => replace n with 0%nat by lia end.
  done.
Qed.

(** A push leaves a retained sample in its slot, one step older, unless
    that sample is the oldest of a full ring. *)
Lemma Push_keeps_slot h r s h' r' j i x :
  ring_inv h r → slot_holds h r i x → count r - pos_of r i < len r →
  Push h r s = Some (h', r', j) →
  slot_holds h' r' i x ∧ count r' - pos_of r' i = count r - pos_of r i + 1.
Proof.
  intros Hinv Hsl Hage HP. pose proof Hinv as (Hok & Hc & Hh & Hb & Hs).
  destruct (slot_holds_contents h r i x Hinv Hsl) as (Hx & Hp).
  destruct Hsl as (Hi & Hsl).
  assert (0 < len r) as Hpos by lia.
  destruct (Push_spec h r s Hinv Hpos) as (h1 & HP' & Hcont & _ & _ & _ & Hinv').
  rewrite HP in HP'. injection HP' as -> -> ->.
  set (r' := mkRing _ _ _) in *.
  assert (len r' = len r) as Hlen' by done.
  assert (count r' = Z.min (count r + 1) (len r)) as Hcnt' by done.
  assert (head r' = Z.rem (head r + 1) (len r)) as Hhd' by done.
  pose proof (retained_length h r Hinv) as Hrl.
  assert (pos_of r' i = if bool_decide (count r < len r) then pos_of r i
                        else pos_of r i - 1) as Hpos'.
  { unfold pos_of in *. rewrite Hlen'. case_bool_decide as Hlt.
    - rewrite (start_of_short h r) by done.
      destruct (decide (count r + 1 < len r)).
      + by rewrite (start_of_short h1 r') by (done || lia).
      + rewrite (start_of_full h1 r') by (done || lia). rewrite Hhd'.
        rewrite Hs by lia. replace (count r + 1) with (len r) by lia.
        by rewrite Z.rem_same by lia.
    - rewrite (start_of_full h r) in * by (done || lia).
      rewrite (start_of_full h1 r') by (done || lia). rewrite Hhd'.
      destruct (decide (head r + 1 < len r)).
      + rewrite Z.rem_small by lia.
        destruct (decide (head r ≤ i)).
        * rewrite Z.mod_small in Hage by lia.
          rewrite !Z.mod_small by lia. lia.
        * replace (i - head r) with (i - head r + len r + (-1) * len r) by lia.
          replace (i - (head r + 1)) with (i - head r - 1 + len r + (-1) * len r) by lia.
          rewrite !Z.mod_add, !Z.mod_small by lia. lia.
      + replace (head r + 1) with (len r) by lia.
        rewrite Z.rem_same by lia. rewrite Z.sub_0_r.
        destruct (decide (head r ≤ i)).
        * rewrite Z.mod_small in Hage by lia. lia.
        * replace (i - head r) with (i - head r + len r + (-1) * len r) by lia.
          rewrite !Z.mod_add, !Z.mod_small by lia. lia. }
  split; [split; [lia|]|].
  - rewrite (Push_retained h r s h1 r' (head r)) by done.
    unfold lastn. rewrite lookup_drop, length_app. simpl. rewrite Hpos'.
    rewrite lookup_app_l by (case_bool_decide; lia).
    rewrite <- Hsl. f_equal. case_bool_decide; lia.
  - rewrite Hpos'. case_bool_decide; lia.
Qed.

Lemma insert_lastn_snoc {A} n (l ys : list A) s y :
  (length ys < n)%nat →
  <[(Nat.min n (length (l ++ s :: ys)) - 1 - length ys)%nat := y]>
    (lastn n (l ++ s :: ys)) = lastn n (l ++ y :: ys).
Proof.
  intros Hys. unfold lastn. rewrite !length_app. simpl.
  set (k := (length l + S (length ys) - n)%nat).
  replace (Nat.min n (length l + S (length ys)) - 1 - length ys)%nat
    with (length l - k)%nat by lia.
  rewrite <- drop_insert_ge by lia. f_equal.
  rewrite insert_app_r_alt by lia. by rewrite Nat.sub_diag.
Qed.

(** The slot a push returned stays the slot of that sample for as long as
    fewer than [len r] samples are pushed after it. *)
Lemma push_all_keeps_slot ys : ∀ h r i x,
  ring_inv h r → slot_holds h r i x →
  count r - pos_of r i + Z.of_nat (length ys) ≤ len r →
  ∃ h' r',
    push_all h r ys = Some (h', r') ∧ ring_inv h' r' ∧ data r' = data r ∧
    slot_holds h' r' i x ∧
    count r' - pos_of r' i = count r - pos_of r i + Z.of_nat (length ys).
Proof.
  induction ys as [|y ys IH]; intros h r i x Hinv Hsl Hage.
  - exists h, r. simpl. split; [done|]. split; [done|]. split; [done|].
    split; [done|]. lia.
  - simpl in *. destruct Hsl as (Hi & Hsl).
    destruct (Push_spec h r y Hinv) as (h1 & HP & _ & _ & _ & _ & Hinv1); [lia|].
    rewrite HP. simpl.
    destruct (Push_keeps_slot h r y _ _ _ i x Hinv (conj Hi Hsl) ltac:(lia) HP)
      as (Hsl1 & Hage1).
    destruct (IH _ _ i x Hinv1 Hsl1) as (h2 & r2 & -> & Hinv2 & Hd2 & Hsl2 & Hage2).
    { unfold len in *. simpl in *. lia. }
    exists h2, r2. split; [done|]. split; [done|]. split; [done|].
    split; [done|]. lia.
Qed.

(** What [UpdateAt] does to the retained history, in range or not. *)
Lemma UpdateAt_retained h r i f :
  ring_inv h r →
  ∃ h', UpdateAt h r i f = Some h' ∧ ring_inv h' r ∧
        length h' = length h ∧
        (∀ a, arr (data r) ≠ Some a → h' !! a = h !! a) ∧
        ((count r = 0 ∨ i < 0 ∨ len r ≤ i) ∧ h' = h ∨
         ∃ x, 0 ≤ i < len r ∧ index h (data r) i = Some x ∧
              index h' (data r) i = Some (f x) ∧
              retained h' r = <[Z.to_nat (pos_of r i) := f x]> (retained h r)).
Proof.
  intros Hinv. pose proof Hinv as (Hok & _).
  destruct (decide (count r = 0 ∨ i < 0 ∨ len r ≤ i)) as [Hno|Hin].
  - exists h. rewrite UpdateAt_noop by done. by eauto 10.
  - destruct (UpdateAt_spec h r i f Hinv) as (x & h' & Hx & HU & Hc & Hl & Hf & Hs);
      [lia|lia|].
    assert (ring_inv h' r) as Hinv' by (by eapply ring_inv_mono).
    pose proof Hinv' as (Hok' & _).
    pose proof (contents_length _ _ Hok) as Hlen. fold (len r) in Hlen.
    exists h'. split; [done|]. split; [done|]. split; [done|]. split; [done|].
    right. exists x. split; [lia|].
    rewrite !index_contents by (done || (unfold len in *; lia)).
    split; [done|]. split.
    + rewrite Hc. apply list_lookup_insert_eq. lia.
    + apply (retained_insert h); (done || lia).
Qed.

(** C6, as the code has it. [UpdateAt] is a no-op exactly when the ring is
    empty or the index lies outside the backing array. Otherwise it applies
    the mutator to whatever sample occupies that slot, and touches no other
    slot. The index a push returned therefore reaches the sample it was
    issued for as long as fewer than [len r] samples were pushed since; the
    ring keeps no record of which push a slot belongs to. *)
Theorem UpdateAt_in_place h r i f :
  ring_inv h r →
  (count r = 0 ∨ i < 0 ∨ len r ≤ i → UpdateAt h r i f = Some h) ∧
  (count r ≠ 0 → 0 ≤ i < len r →
   ∃ x h',
     index h (data r) i = Some x ∧ UpdateAt h r i f = Some h' ∧
     index h' (data r) i = Some (f x) ∧
     (∀ j, j ≠ i → index h' (data r) j = index h (data r) j) ∧
     snapshot h' r = Some (<[Z.to_nat (pos_of r i) := f x]> (retained h r))) ∧
  (∀ s ys h1 r1 h2 r2,
     0 < len r → Push h r s = Some (h1, r1, i) →
     push_all h1 r1 ys = Some (h2, r2) → Z.of_nat (length ys) < len r →
     ∃ h3, UpdateAt h2 r2 i f = Some h3 ∧
           snapshot h3 r2 =
             Some (lastn (Z.to_nat (len r)) (retained h r ++ f s :: ys))).
Proof.
  intros Hinv. split; [apply UpdateAt_noop|]. split.
  - intros Hc Hi. pose proof Hinv as (Hok & _).
    destruct (UpdateAt_spec h r i f Hinv Hc Hi) as (x & h' & Hx & HU & Hc' & Hl & Hf & Hs).
    assert (ring_inv h' r) as Hinv' by (by eapply ring_inv_mono).
    pose proof Hinv' as (Hok' & _).
    pose proof (contents_length _ _ Hok) as Hlen. fold (len r) in Hlen.
    exists x, h'.
    rewrite !index_contents by (done || (unfold len in *; lia)).
    split; [done|]. split; [done|]. split.
    { rewrite Hc'. apply list_lookup_insert_eq. lia. }
    split.
    + intros j Hj. destruct (decide (0 ≤ j < len r)) as [Hin|Hout].
      * rewrite !index_contents by (done || (unfold len in *; lia)).
        rewrite Hc'. apply list_lookup_insert_ne. lia.
      * by rewrite !index_outside.
    + rewrite snapshot_retained by done. f_equal.
      apply (retained_insert h); (done || lia).
  - intros s ys h1 r1 h2 r2 Hpos HP HPs Hys.
    destruct (Push_slot_holds h r s h1 r1 i Hinv Hpos HP) as (Hsl & Hage & ->).
    destruct (Push_spec h r s Hinv Hpos) as (h1' & HP' & _ & _ & _ & _ & Hinv1).
    rewrite HP in HP'. injection HP' as <- ->.
    destruct (push_all_keeps_slot ys _ _ _ s Hinv1 Hsl) as
      (h2' & r2' & HPs' & Hinv2 & Hd2 & Hsl2 & Hage2).
    { unfold len in *. simpl in *. lia. }
    rewrite HPs in HPs'. injection HPs' as <- <-.
    destruct (push_all_spec ys _ _ Hinv1) as (h2' & r2' & HPs' & _ & _ & Hr2 & _).
    rewrite HPs in HPs'. injection HPs' as <- <-.
    rewrite (Push_retained h r s _ _ _ Hinv HP) in Hr2.
    change (len (mkRing (data r) _ _)) with (len r) in Hr2.
    rewrite lastn_lastn_app, <- app_assoc in Hr2. simpl in Hr2.
    destruct (UpdateAt_retained h2 r2 (head r) f Hinv2)
      as (h3 & HU & Hinv3 & _ & _ & [(Hno & _)|(x & Hi & Hx & _ & Hr3)]).
    { destruct Hsl2 as (Hi2 & Hl2). apply lookup_lt_Some in Hl2.
      rewrite retained_length in Hl2 by done. lia. }
    exists h3. split; [done|]. rewrite snapshot_retained by done. f_equal.
    destruct (slot_holds_contents h2 r2 (head r) s Hinv2 Hsl2) as (Hs2 & Hp2).
    rewrite index_contents in Hx by (apply Hinv2 || (unfold len in *; lia)).
    assert (x = s) as -> by congruence.
    rewrite Hr3, Hr2.
    pose proof (retained_length h2 r2 Hinv2) as Hl2. rewrite Hr2 in Hl2.
    rewrite lastn_length in Hl2.
    rewrite <- (insert_lastn_snoc (Z.to_nat (len r)) (retained h r) ys s (f s)) by lia.
    f_equal. rewrite Hage in Hage2. lia.
Qed.

Lemma UpdateAt_in_place_witness :
  UpdateAt (make [] 2).1 (mkRing (make [] 2).2 0 0) 7 (toLate 5 9)
    = Some (make [] 2).1.
Proof.
  refine (proj1 (UpdateAt_in_place (make [] 2).1 (mkRing (make [] 2).2 0 0) 7
                   (toLate 5 9) _) _).
  - apply (NewRing_spec [] 2). reflexivity.
  - right. right. unfold len. simpl. lia.
Defined.

(** C6 as the specification words it fails: in a ring of capacity 2, the
    index returned for the first sample is stale after two more pushes, and
    [UpdateAt] with it rewrites the third sample, which now has that slot. *)
Lemma UpdateAt_stale_index_hits_newer :
  ∃ h r h1 r1 i h2 r2 j h3 r3 k h4,
    NewRing [] 2 = Some (h, r) ∧
    Push h r (sample_of 1) = Some (h1, r1, i) ∧
    Push h1 r1 (sample_of 2) = Some (h2, r2, j) ∧
    Push h2 r2 (sample_of 3) = Some (h3, r3, k) ∧
    snapshot h3 r3 = Some [sample_of 2; sample_of 3] ∧
    UpdateAt h3 r3 i (toLate 5 9) = Some h4 ∧
    snapshot h4 r3 = Some [sample_of 2; toLate 5 9 (sample_of 3)] ∧
    toLate 5 9 (sample_of 3) ≠ sample_of 3.
Proof.
  do 12 eexists.
  split; [reflexivity|]. split; [reflexivity|]. split; [reflexivity|].
  split; [reflexivity|]. split; [reflexivity|]. split; [reflexivity|].
  split; [reflexivity|]. discriminate.
Qed.

(** ** The handlers of [RunForHost] *)

Lemma wrap64_id z : int64 z → wrap64 z = z.
Proof.
  unfold int64, max_int64, wrap64. intros Hz.
  rewrite Z.mod_small by lia. lia.
Qed.

Lemma Push_total h r s :
  ring_inv h r →
  ∃ h' r' i, Push h r s = Some (h', r', i) ∧ ring_inv h' r' ∧ data r' = data r.
Proof.
  intros Hinv. destruct (decide (len r = 0)) as [H0|Hn0].
  - rewrite Push_empty by done. by eauto 10.
  - destruct (Push_spec h r s Hinv) as (h1 & -> & _ & _ & _ & _ & ?).
    { destruct Hinv as (_ & ? & _). lia. }
    by eauto 10.
Qed.

(** [OnRecv] cannot fail on a well-formed ring. It always deletes the
    pending record and stops its timer; then it either rewrites the recorded
    slot (the grace branch) or pushes one sample. *)
Lemma OnRecv_cases pb st seq rtt now :
  ring_inv (mem st) (ring st) →
  ∃ st',
    OnRecv pb st seq rtt now = Some st' ∧
    ring_inv (mem st') (ring st') ∧
    data (ring st') = data (ring st) ∧
    pends st' = delete seq (pends st) ∧
    timers st' = match pends st !! seq with
                 | Some p => stopTimer (timers st) (timer p)
                 | None => timers st
                 end ∧
    running st' = running st ∧
    ((MaxRTT pb < rtt ∧ in_grace pb st seq rtt ∧ ring st' = ring st ∧
      ∃ p, pends st !! seq = Some p ∧
           UpdateAt (mem st) (ring st) (idx p) (toLate rtt now) = Some (mem st')) ∨
     (¬ (MaxRTT pb < rtt ∧ in_grace pb st seq rtt) ∧
      ∃ i, Push (mem st) (ring st) (reply_sample pb seq rtt now)
           = Some (mem st', ring st', i))).
Proof.
  intros Hinv. unfold OnRecv, in_grace, reply_sample.
  case_bool_decide as Hrtt.
  - destruct (Push_total (mem st) (ring st)
                (mkSample now (latency_ms rtt) seq SampleOK) Hinv)
      as (h' & r' & i & HP & Hinv' & Hd).
    rewrite HP. simpl. eexists. split; [done|]. simpl.
    split; [done|]. split; [done|]. split; [done|]. split; [done|]. split; [done|].
    right. split; [lia|]. by exists i.
  - destruct (pends st !! seq) as [p|] eqn:Ep.
    + destruct (pushed p) eqn:Epu; simpl; [case_bool_decide as Hg|].
      * destruct (UpdateAt_retained (mem st) (ring st) (idx p) (toLate rtt now) Hinv)
          as (h' & HU & Hinv' & _).
        rewrite HU. simpl. eexists. split; [done|]. simpl.
        split; [done|]. split; [done|]. split; [done|]. split; [done|]. split; [done|].
        left. split; [lia|]. split; [by eauto|]. split; [done|]. by eauto.
      * destruct (Push_total (mem st) (ring st)
                    (mkSample now (latency_ms rtt) seq SampleLate) Hinv)
          as (h' & r' & i & HP & Hinv' & Hd).
        rewrite HP. simpl. eexists. split; [done|]. simpl.
        split; [done|]. split; [done|]. split; [done|]. split; [done|]. split; [done|].
        right. split; [|by exists i].
        intros (_ & p' & Hp' & _ & Hle). done.
      * destruct (Push_total (mem st) (ring st)
                    (mkSample now (latency_ms rtt) seq SampleLate) Hinv)
          as (h' & r' & i & HP & Hinv' & Hd).
        rewrite HP. simpl. eexists. split; [done|]. simpl.
        split; [done|]. split; [done|]. split; [done|]. split; [done|]. split; [done|].
        right. split; [|by exists i].
        intros (_ & p' & Hp' & Hpu & _). congruence.
    + destruct (Push_total (mem st) (ring st)
                  (mkSample now (latency_ms rtt) seq SampleLate) Hinv)
        as (h' & r' & i & HP & Hinv' & Hd).
      rewrite HP. simpl. eexists. split; [done|]. simpl.
      split; [done|]. split; [done|]. split; [done|]. split; [done|]. split; [done|].
      right. split; [|by exists i].
      intros (_ & p' & Hp' & _). done.
Qed.

(** The deadline callback on a well-formed ring: with no record it does
    nothing; with one it pushes the LOSS sample and writes the slot and the
    flag into the record, which stays in the map. *)
Lemma onDeadline_cases st seq now :
  ring_inv (mem st) (ring st) →
  ∃ st',
    onDeadline st seq now = Some st' ∧
    ring_inv (mem st') (ring st') ∧
    data (ring st') = data (ring st) ∧
    timers st' = timers st ∧ running st' = running st ∧
    ((pends st !! seq = None ∧ st' = st) ∨
     (∃ p i, pends st !! seq = Some p ∧
             Push (mem st) (ring st) (loss_sample seq now)
               = Some (mem st', ring st', i) ∧
             pends st' = <[seq := mkPending (timer p) i true]> (pends st))).
Proof.
  intros Hinv. unfold onDeadline, loss_sample.
  destruct (pends st !! seq) as [p|] eqn:Ep.
  - destruct (Push_total (mem st) (ring st)
                (mkSample now (-1)%float seq SampleLoss) Hinv)
      as (h' & r' & i & HP & Hinv' & Hd).
    rewrite HP. simpl. eexists. split; [done|]. simpl.
    split; [done|]. split; [done|]. split; [done|]. split; [done|].
    right. by exists p, i.
  - exists st. by eauto 10.
Qed.

(** ** Samples of one sequence number in a history *)

Lemma lastn_snoc {A} n (l : list A) x :
  (0 < n)%nat → lastn n (l ++ [x]) = lastn (n - 1) l ++ [x].
Proof.
  intros Hn. unfold lastn. rewrite length_app. simpl.
  rewrite drop_app_le by lia. do 2 f_equal. lia.
Qed.

Lemma with_seq_split seq l k :
  with_seq seq l = with_seq seq (take k l) ++ with_seq seq (drop k l).
Proof. unfold with_seq. by rewrite <- filter_app, take_drop. Qed.

Lemma with_seq_drop_nil seq l k :
  with_seq seq l = [] → with_seq seq (drop k l) = [].
Proof.
  rewrite (with_seq_split seq l k). intros H.
  by apply app_eq_nil in H as [_ ?].
Qed.

Lemma with_seq_middle seq l k x :
  l !! k = Some x → Seq x = seq → with_seq seq l = [x] →
  with_seq seq (take k l) = [] ∧ with_seq seq (drop (S k) l) = [].
Proof.
  intros Hk Hx. rewrite <- (take_drop_middle l k x Hk) at 1.
  unfold with_seq. rewrite filter_app, filter_cons_True by done.
  intros H. apply (f_equal length) in H as Hlen.
  rewrite length_app in Hlen. simpl in Hlen.
  split; apply length_zero_iff_nil; lia.
Qed.

Lemma with_seq_insert seq l k x y :
  l !! k = Some x → Seq x = seq → Seq y = seq → with_seq seq l = [x] →
  with_seq seq (<[k := y]> l) = [y].
Proof.
  intros Hk Hx Hy Hl.
  destruct (with_seq_middle seq l k x Hk Hx Hl) as (Ht & Hd).
  rewrite insert_take_drop by (by eapply lookup_lt_Some).
  unfold with_seq in *. rewrite filter_app, filter_cons_True by done.
  by rewrite Ht, Hd.
Qed.

Lemma with_seq_drop_keep seq l k n x :
  l !! k = Some x → Seq x = seq → with_seq seq l = [x] → (n ≤ k)%nat →
  with_seq seq (drop n l) = [x].
Proof.
  intros Hk Hx Hl Hn.
  destruct (with_seq_middle seq l k x Hk Hx Hl) as (Ht & Hd).
  rewrite <- (take_drop_middle l k x Hk).
  rewrite drop_app_le by (rewrite length_take; apply lookup_lt_Some in Hk; lia).
  unfold with_seq in *. rewrite filter_app, filter_cons_True by done.
  rewrite Hd. fold (with_seq seq (drop n (take k l))).
  by rewrite (with_seq_drop_nil seq (take k l) n Ht).
Qed.

(** Appending one sample to a history that has none of sequence [seq]. *)
Lemma with_seq_push_fresh seq n l x :
  with_seq seq l = [] → Seq x = seq → (0 < n)%nat →
  with_seq seq (lastn n (l ++ [x])) = [x].
Proof.
  intros Hl Hx Hn. rewrite lastn_snoc by done. unfold lastn, with_seq.
  rewrite filter_app, filter_cons_True by done.
  fold (with_seq seq (drop (length l - (n - 1)) l)).
  by rewrite with_seq_drop_nil.
Qed.

(** Appending a second sample of sequence [seq] while the first survives. *)
Lemma with_seq_push_second seq n l k x y :
  l !! k = Some x → Seq x = seq → with_seq seq l = [x] → Seq y = seq →
  (length l < n ∨ 0 < k)%nat → (0 < n)%nat → (length l ≤ n)%nat →
  with_seq seq (lastn n (l ++ [y])) = [x; y].
Proof.
  intros Hk Hx Hl Hy Hkeep Hn Hlen. rewrite lastn_snoc by done.
  unfold lastn, with_seq. rewrite filter_app, filter_cons_True by done.
  fold (with_seq seq (drop (length l - (n - 1)) l)).
  rewrite (with_seq_drop_keep seq l k _ x); [done..|].
  apply lookup_lt_Some in Hk. lia.
Qed.

(** ** A reply within [MaxRTT] *)


Lemma Push_history st s h' r' i :
  ring_inv (mem st) (ring st) → Push (mem st) (ring st) s = Some (h', r', i) →
  ring_inv h' r' ∧ len r' = len (ring st) ∧
  snapshot h' r' = Some (lastn (Z.to_nat (len (ring st))) (history st ++ [s])).
Proof.
  intros Hinv HP.
  destruct (Push_total (mem st) (ring st) s Hinv) as (h1 & r1 & i1 & HP' & Hinv' & Hd).
  rewrite HP in HP'. injection HP' as <- <- <-.
  split; [done|]. split; [unfold len; by rewrite Hd|].
  rewrite snapshot_retained by done. f_equal. by eapply Push_retained.
Qed.


Lemma fresh_loop_inv c : 0 ≤ c → ring_inv (mem (fresh_loop c)) (ring (fresh_loop c)).
Proof.
  intros Hc. apply (NewRing_spec [] c). unfold NewRing.
  by rewrite bool_decide_eq_false_2 by lia.
Qed.


(** ** The deadline of a probe that gets no reply *)

Lemma retained_pos h r i :
  ring_inv h r → 0 ≤ i < len r → pos_of r i < count r →
  retained h r !! Z.to_nat (pos_of r i) = contents h (data r) !! Z.to_nat i.
Proof.
  intros Hinv Hi Hpc. pose proof Hinv as (Hok & Hc & Hh & Hb & Hs).
  assert (0 ≤ pos_of r i < len r) as Hp by (apply Z.mod_pos_bound; lia).
  rewrite <- retained_lookup by (done || lia).
  rewrite <- index_contents by (done || (unfold len in *; lia)).
  f_equal. unfold pos_of in *.
  pose proof (start_of_nonneg h r Hinv).
  rewrite Z.rem_mod_nonneg by lia.
  rewrite Zplus_mod_idemp_r.
  replace (start_of r + (i - start_of r)) with i by lia.
  by rewrite Z.mod_small by lia.
Qed.

Lemma fmap_lastn {A B} (f : A → B) n l : f <$> lastn n l = lastn n (f <$> l).
Proof. unfold lastn. by rewrite fmap_drop, length_fmap. Qed.

(** The grace branch's mutator keeps the sequence number, so whichever slot
    [UpdateAt] rewrites, the sequence numbers in the history stay put. *)
Lemma UpdateAt_seqs h r i rtt now h' :
  ring_inv h r → UpdateAt h r i (toLate rtt now) = Some h' →
  Seq <$> retained h' r = Seq <$> retained h r.
Proof.
  intros Hinv HU.
  destruct (UpdateAt_retained h r i (toLate rtt now) Hinv)
    as (h1 & HU' & _ & _ & _ & [(_ & ->)|(x & Hi & Hx & _ & Hr)]);
    rewrite HU in HU'; injection HU' as <-; [done|].
  rewrite Hr, list_fmap_insert. apply list_insert_id'.
  rewrite length_fmap, retained_length by done. intros Hlt.
  rewrite list_lookup_fmap, retained_pos by (done || lia).
  rewrite <- index_contents by (apply Hinv || (unfold len in *; lia)).
  by rewrite Hx.
Qed.

(** Every step of a run succeeds on a well-formed ring and keeps it so. The
    sequence numbers in the history grow by at most the event's own. *)
Lemma step_spec pb st ev :
  ring_inv (mem st) (ring st) →
  ∃ st' zs,
    step pb st ev = Some st' ∧
    ring_inv (mem st') (ring st') ∧ data (ring st') = data (ring st) ∧
    Seq <$> history st' =
      lastn (Z.to_nat (len (ring st))) ((Seq <$> history st) ++ zs) ∧
    ∀ seq, silent seq ev → no_armed seq (timers st) →
           (seq ∉ zs) ∧ no_armed seq (timers st') ∧
           pends st' !! seq = pends st !! seq.
Proof.
  intros Hinv.
  assert (Hid : Seq <$> history st =
                lastn (Z.to_nat (len (ring st))) ((Seq <$> history st) ++ [])).
  { rewrite app_nil_r, lastn_short; [done|].
    unfold history. rewrite length_fmap, retained_length by done.
    destruct Hinv as (_ & ? & _). lia. }
  assert (Hpush : ∀ s h' r' i,
            Push (mem st) (ring st) s = Some (h', r', i) →
            Seq <$> retained h' r' =
              lastn (Z.to_nat (len (ring st))) ((Seq <$> history st) ++ [Seq s])).
  { intros s h' r' i HP. rewrite (Push_retained _ _ _ _ _ _ Hinv HP).
    by rewrite fmap_lastn, fmap_app. }
  destruct ev as [s|t now|s rtt now]; simpl.
  - (* a send touches neither the memory nor the ring *)
    exists (OnSend pb st s), []. split; [done|]. split; [done|]. split; [done|].
    split; [done|]. intros seq Hsil Hna. split; [apply not_elem_of_nil|]. split.
    + intros t tm Ht Hseq. simpl in Ht.
      apply lookup_app_Some in Ht as [Ht|[_ Ht]]; [by eapply Hna|].
      apply list_lookup_singleton_Some in Ht as [_ <-]. simpl in *. congruence.
    + simpl in *. by rewrite lookup_insert_ne.
  - destruct (timers st !! t) as [tm|] eqn:Et;
      [|exists st, []; split; [done|]; split; [done|]; split; [done|];
        split; [done|]; intros; split; [apply not_elem_of_nil|done]].
    case_bool_decide as Harm;
      [|exists st, []; split; [done|]; split; [done|]; split; [done|];
        split; [done|]; intros; split; [apply not_elem_of_nil|done]].
    set (st1 := mkLoop _ _ _ _ _).
    destruct (onDeadline_cases st1 (tseq tm) now Hinv)
      as (st' & HD & Hinv' & Hd & Hts & _ & [(_ & ->)|(p & i & Hp & HP & Hps)]).
    + exists st1, []. split; [done|]. split; [done|]. split; [done|].
      split; [done|]. intros seq _ Hna. split; [apply not_elem_of_nil|]. split; [|done].
      intros t' tm' Ht' Hseq. simpl in Ht'.
      destruct (decide (t' = t)) as [->|Hne].
      * rewrite list_lookup_insert_eq in Ht' by (by eapply lookup_lt_Some).
        injection Ht' as <-. done.
      * rewrite list_lookup_insert_ne in Ht' by done. by eapply Hna.
    + exists st', [tseq tm]. split; [done|]. split; [done|]. split; [done|].
      split; [exact (Hpush _ _ _ i HP)|].
      intros seq _ Hna.
      assert (tseq tm ≠ seq) as Hne by (intros <-; by eapply Hna).
      split; [by intros ?%list_elem_of_singleton|]. split.
      * rewrite Hts. intros t' tm' Ht' Hseq. simpl in Ht'.
        destruct (decide (t' = t)) as [->|Hne'].
        -- rewrite list_lookup_insert_eq in Ht' by (by eapply lookup_lt_Some).
           injection Ht' as <-. done.
        -- rewrite list_lookup_insert_ne in Ht' by done. by eapply Hna.
      * rewrite Hps. simpl. by rewrite lookup_insert_ne.
  - destruct (OnRecv_cases pb st s rtt now Hinv)
      as (st' & HR & Hinv' & Hd & Hps & Hts & _ & Hcase).
    assert (Hna' : ∀ seq, no_armed seq (timers st) → no_armed seq (timers st')).
    { intros seq Hna. rewrite Hts. destruct (pends st !! s) as [p|]; [|done].
      unfold stopTimer. destruct (timers st !! timer p) as [tm|] eqn:Et; [|done].
      case_bool_decide; [|done]. intros t' tm' Ht' Hseq.
      destruct (decide (t' = timer p)) as [->|Hne'].
      - rewrite list_lookup_insert_eq in Ht' by (by eapply lookup_lt_Some).
        injection Ht' as <-. done.
      - rewrite list_lookup_insert_ne in Ht' by done. by eapply Hna. }
    destruct Hcase as [(_ & _ & Hr & p & _ & HU)|(_ & i & HP)].
    + exists st', []. split; [done|]. split; [done|]. split; [done|].
      split.
      { unfold history at 1. rewrite Hr.
        rewrite (UpdateAt_seqs _ _ _ _ _ _ Hinv HU). done. }
      intros seq Hsil Hna. split; [apply not_elem_of_nil|]. split; [by apply Hna'|].
      rewrite Hps. simpl in Hsil. by rewrite lookup_delete_ne.
    + exists st', [s]. split; [done|]. split; [done|]. split; [done|].
      split; [exact (Hpush _ _ _ i HP)|].
      intros seq Hsil Hna. simpl in Hsil.
      split; [by intros ?%list_elem_of_singleton|].
      split; [by apply Hna'|]. rewrite Hps. by rewrite lookup_delete_ne.
Qed.

(** A run of events that are silent about [seq], from a state with no armed
    deadline of [seq]: it cannot fail, it pushes no sample of [seq], and it
    leaves the pending record of [seq] as it is. *)
Lemma run_silent pb seq evs : ∀ st,
  ring_inv (mem st) (ring st) → Forall (silent seq) evs →
  no_armed seq (timers st) →
  ∃ st' zs,
    run pb st evs = Some st' ∧
    ring_inv (mem st') (ring st') ∧ data (ring st') = data (ring st) ∧
    (seq ∉ zs) ∧
    Seq <$> history st' =
      lastn (Z.to_nat (len (ring st))) ((Seq <$> history st) ++ zs) ∧
    no_armed seq (timers st') ∧ pends st' !! seq = pends st !! seq.
Proof.
  induction evs as [|ev evs IH]; intros st Hinv Hsil Hna.
  - exists st, []. simpl. split; [done|]. split; [done|]. split; [done|].
    split; [apply not_elem_of_nil|]. split; [|done].
    rewrite app_nil_r, lastn_short; [done|].
    unfold history. rewrite length_fmap, retained_length by done.
    destruct Hinv as (_ & ? & _). lia.
  - apply Forall_cons in Hsil as [Hev Hsil]. simpl.
    destruct (step_spec pb st ev Hinv) as (st1 & zs1 & -> & Hinv1 & Hd1 & Hs1 & Hq).
    destruct (Hq seq Hev Hna) as (Hz1 & Hna1 & Hp1). simpl.
    destruct (IH st1 Hinv1 Hsil Hna1)
      as (st2 & zs2 & -> & Hinv2 & Hd2 & Hz2 & Hs2 & Hna2 & Hp2).
    exists st2, (zs1 ++ zs2). split; [done|]. split; [done|].
    split; [congruence|]. split; [by apply not_elem_of_app|].
    split; [|split; [done|congruence]].
    rewrite Hs2, Hs1. unfold len. rewrite Hd1.
    by rewrite lastn_lastn_app, app_assoc.
Qed.

Lemma with_seq_length seq l :
  length (with_seq seq l) = length (filter (λ z, z = seq) (Seq <$> l)).
Proof.
  unfold with_seq. induction l as [|x l IH]; [done|]. simpl.
  rewrite !filter_cons. destruct (decide (Seq x = seq)); simpl; by rewrite IH.
Qed.

Lemma filter_lastn_fresh (seq : Z) n (l zs : list Z) :
  seq ∉ zs →
  (length (filter (λ z, z = seq) (lastn n (l ++ zs)))
   ≤ length (filter (λ z, z = seq) l))%nat.
Proof.
  intros Hz. unfold lastn.
  assert (filter (λ z, z = seq) zs = []) as Hzs.
  { apply elem_of_nil_inv. intros x [-> Hx]%list_elem_of_filter. done. }
  pose proof (f_equal (filter (λ z, z = seq))
                (take_drop (length (l ++ zs) - n) (l ++ zs))) as H.
  rewrite !filter_app, Hzs, app_nil_r in H.
  apply (f_equal length) in H. rewrite length_app in H. lia.
Qed.



(** ** A reply after [MaxRTT] *)

Lemma in_grace_intro pb st seq rtt p :
  pends st !! seq = Some p → pushed p = true →
  rtt ≤ MaxRTT pb + GraceLate pb → int64 (MaxRTT pb + GraceLate pb) →
  in_grace pb st seq rtt.
Proof. intros Hp Hpu Hr Hi. exists p. by rewrite wrap64_id. Qed.

Lemma with_seq_single seq l k x :
  l !! k = Some x → Seq x = seq → (length (with_seq seq l) ≤ 1)%nat →
  with_seq seq l = [x].
Proof.
  intros Hk Hx Hlen.
  assert (x ∈ with_seq seq l) as Hin.
  { apply list_elem_of_filter. split; [done|]. by eapply list_elem_of_lookup_2. }
  destruct (with_seq seq l) as [|y [|z l']]; simpl in *; [|..|lia].
  - by apply elem_of_nil in Hin.
  - by apply list_elem_of_singleton in Hin as ->.
Qed.

(** The grace branch, when the slot on the pending record holds a sample of
    the reply's sequence: that sample, and no other, becomes the LATE sample
    with the measured latency and the receive time; nothing is pushed. *)
Lemma OnRecv_grace_slot pb st seq rtt now p x :
  ring_inv (mem st) (ring st) →
  pends st !! seq = Some p → pushed p = true →
  slot_holds (mem st) (ring st) (idx p) x → Seq x = seq →
  MaxRTT pb < rtt → rtt ≤ MaxRTT pb + GraceLate pb →
  int64 (MaxRTT pb + GraceLate pb) →
  ∃ st',
    OnRecv pb st seq rtt now = Some st' ∧
    ring_inv (mem st') (ring st') ∧
    ring st' = ring st ∧
    history st' =
      <[Z.to_nat (pos_of (ring st) (idx p)) :=
          mkSample now (latency_ms rtt) seq SampleLate]> (history st) ∧
    pends st' = delete seq (pends st).
Proof.
  intros Hinv Hp Hpu Hsl Hx Hlate Hgr Hint.
  pose proof (in_grace_intro pb st seq rtt p Hp Hpu Hgr Hint) as Hin.
  destruct (OnRecv_cases pb st seq rtt now Hinv)
    as (st' & HR & Hinv' & Hd & Hps & Hts & _ &
        [(_ & _ & Hr & p' & Hp' & HU)|(Hno & _)]); [|tauto].
  assert (p' = p) as -> by congruence.
  exists st'. split; [done|]. split; [done|]. split; [done|]. split; [|done].
  destruct (slot_holds_contents _ _ _ _ Hinv Hsl) as (Hc & Hpos).
  destruct (UpdateAt_retained (mem st) (ring st) (idx p) (toLate rtt now) Hinv)
    as (h1 & HU' & _ & _ & _ & [(Hno & _)|(y & Hi & Hy & _ & Hr')]).
  { destruct Hsl as (? & _). lia. }
  rewrite HU in HU'. injection HU' as <-.
  rewrite index_contents in Hy by (apply Hinv || (unfold len in *; lia)).
  assert (y = x) as -> by congruence.
  unfold history. rewrite Hr, Hr'. unfold toLate. by rewrite Hx.
Qed.

(** C2, as the code has it. A reply arrives with round-trip time above
    [MaxRTT] and at most [MaxRTT + GraceLate], the deadline has already
    pushed the LOSS sample, and the slot written on the pending record still
    holds the sample of that sequence, the only one in the ring. Then the
    handler rewrites that slot to LATE with the measured latency and the
    receive time, pushes nothing, and removes the record: the ring keeps
    exactly one sample of the sequence. *)
Theorem OnRecv_grace_converts pb st seq rtt now p x :
  ring_inv (mem st) (ring st) →
  pends st !! seq = Some p → pushed p = true →
  slot_holds (mem st) (ring st) (idx p) x → Seq x = seq →
  with_seq seq (history st) = [x] →
  MaxRTT pb < rtt → rtt ≤ MaxRTT pb + GraceLate pb →
  int64 (MaxRTT pb + GraceLate pb) →
  ∃ st',
    OnRecv pb st seq rtt now = Some st' ∧
    ring st' = ring st ∧
    snapshot (mem st') (ring st') =
      Some (<[Z.to_nat (pos_of (ring st) (idx p)) :=
                mkSample now (latency_ms rtt) seq SampleLate]> (history st)) ∧
    length (history st') = length (history st) ∧
    with_seq seq (history st') = [mkSample now (latency_ms rtt) seq SampleLate] ∧
    pends st' !! seq = None.
Proof.
  intros Hinv Hp Hpu Hsl Hx Hone Hlate Hgr Hint.
  destruct (OnRecv_grace_slot pb st seq rtt now p x)
    as (st' & HR & Hinv' & Hr & Hh & Hps); [done..|].
  exists st'. split; [done|]. split; [done|].
  split; [rewrite snapshot_retained by done; by f_equal|].
  split; [by rewrite Hh, length_insert|].
  split; [|rewrite Hps; apply lookup_delete_eq].
  rewrite Hh. destruct Hsl as (_ & Hk). by eapply with_seq_insert.
Qed.

(** C5, as the code has it. A reply with round-trip time above [MaxRTT],
    when the overage exceeds [GraceLate] or the record is gone or shows no
    LOSS pushed: the handler pushes a separate LATE sample, rewrites no slot,
    and removes the record. If the ring holds the LOSS of that sequence and
    the push does not evict it (the ring is not full, or the LOSS is not its
    oldest sample), the ring then holds two samples of the sequence, the
    LOSS and the LATE marker. *)
Theorem OnRecv_late_marker pb st seq rtt now :
  ring_inv (mem st) (ring st) →
  MaxRTT pb < rtt →
  (MaxRTT pb + GraceLate pb < rtt ∨ pends st !! seq = None ∨
   ∃ p, pends st !! seq = Some p ∧ pushed p = false) →
  int64 (MaxRTT pb + GraceLate pb) →
  ∃ st',
    OnRecv pb st seq rtt now = Some st' ∧
    snapshot (mem st') (ring st') =
      Some (lastn (Z.to_nat (len (ring st)))
              (history st ++ [mkSample now (latency_ms rtt) seq SampleLate])) ∧
    pends st' !! seq = None ∧
    ∀ k x,
      history st !! k = Some x → Seq x = seq →
      with_seq seq (history st) = [x] →
      (count (ring st) < len (ring st) ∨ (0 < k)%nat) →
      with_seq seq (lastn (Z.to_nat (len (ring st)))
                      (history st ++ [mkSample now (latency_ms rtt) seq SampleLate]))
        = [x; mkSample now (latency_ms rtt) seq SampleLate].
Proof.
  intros Hinv Hlate Hwhy Hint.
  destruct (OnRecv_cases pb st seq rtt now Hinv)
    as (st' & HR & Hinv' & Hd & Hps & Hts & _ &
        [(_ & (p & Hp & Hpu & Hg) & _)|(_ & i & HP)]).
  { rewrite wrap64_id in Hg by done.
    destruct Hwhy as [?|[?|(p' & ? & ?)]]; [lia|congruence|congruence]. }
  unfold reply_sample in HP. rewrite bool_decide_eq_false_2 in HP by lia.
  destruct (Push_history st _ _ _ _ Hinv HP) as (_ & _ & Hsnap).
  exists st'. split; [done|]. split; [done|].
  split; [rewrite Hps; apply lookup_delete_eq|].
  intros k x Hk Hx Hone Hkeep.
  pose proof (retained_length _ _ Hinv) as Hl. fold (history st) in Hl.
  pose proof Hinv as (_ & Hc & _).
  apply lookup_lt_Some in Hk as Hlt.
  eapply with_seq_push_second; [done..|lia|lia|lia].
Qed.

(** Runs cannot fail on a well-formed ring, and keep it well formed. *)
Lemma run_total pb evs : ∀ st,
  ring_inv (mem st) (ring st) →
  ∃ st', run pb st evs = Some st' ∧ ring_inv (mem st') (ring st') ∧
         data (ring st') = data (ring st).
Proof.
  induction evs as [|ev evs IH]; intros st Hinv; simpl; [by eauto|].
  destruct (step_spec pb st ev Hinv) as (st1 & zs1 & -> & Hinv1 & Hd1 & _).
  simpl. destruct (IH st1 Hinv1) as (st2 & -> & Hinv2 & Hd2).
  exists st2. split; [done|]. split; [done|]. congruence.
Qed.

Lemma after_inv pb c evs :
  0 ≤ c →
  ring_inv (mem (after pb (fresh_loop c) evs)) (ring (after pb (fresh_loop c) evs)).
Proof.
  intros Hc. unfold after.
  destruct (run_total pb evs (fresh_loop c) (fresh_loop_inv c Hc)) as (st' & -> & ? & _).
  done.
Qed.

Lemma OnRecv_grace_converts_witness :
  ∃ st',
    OnRecv ui_backend
      (after ui_backend (fresh_loop 3) [EvSend 7; EvFire 0 (300 * Millisecond)])
      7 (350 * Millisecond) (350 * Millisecond) = Some st' ∧
    snapshot (mem st') (ring st')
      = Some [mkSample (350 * Millisecond) 350%float 7 SampleLate] ∧
    pends st' !! 7 = None.
Proof.
  destruct (OnRecv_grace_converts ui_backend
      (after ui_backend (fresh_loop 3) [EvSend 7; EvFire 0 (300 * Millisecond)])
      7 (350 * Millisecond) (350 * Millisecond) (mkPending 0 0 true)
      (loss_sample 7 (300 * Millisecond)))
    as (st' & HR & _ & Hs & _ & _ & Hp).
  - apply after_inv. lia.
  - reflexivity.
  - reflexivity.
  - split; [by vm_compute | reflexivity].
  - reflexivity.
  - reflexivity.
  - by vm_compute.
  - by vm_compute.
  - by vm_compute.
  - exists st'. split; [exact HR|]. split; [exact Hs | exact Hp].
Defined.

(** C2 as the specification words it fails once the ring has wrapped. In a
    ring of capacity 1, probe 1 times out (its LOSS goes to slot 0), the
    on-time reply of probe 2 overwrites that slot, and the reply of probe 1
    then arrives within the grace window: the handler rewrites slot 0, which
    holds the sample of probe 2. The ring ends with no sample of probe 1. *)
Lemma grace_reply_after_wraparound :
  ∃ st st',
    run ui_backend (fresh_loop 1)
        [EvSend 1; EvSend 2; EvFire 0 (300 * Millisecond);
         EvRecv 2 (220 * Millisecond) (320 * Millisecond)] = Some st ∧
    pends st !! 1 = Some (mkPending 0 0 true) ∧
    snapshot (mem st) (ring st)
      = Some [mkSample (320 * Millisecond) 220%float 2 SampleOK] ∧
    MaxRTT ui_backend < 350 * Millisecond ∧
    350 * Millisecond ≤ MaxRTT ui_backend + GraceLate ui_backend ∧
    OnRecv ui_backend st 1 (350 * Millisecond) (350 * Millisecond) = Some st' ∧
    snapshot (mem st') (ring st')
      = Some [mkSample (350 * Millisecond) 350%float 2 SampleLate] ∧
    with_seq 1 (history st') = [].
Proof.
  do 2 eexists.
  split; [reflexivity|]. split; [reflexivity|]. split; [reflexivity|].
  split; [reflexivity|]. split; [vm_compute; discriminate|].
  split; [reflexivity|]. split; reflexivity.
Qed.

Lemma OnRecv_late_marker_witness :
  ∃ st',
    OnRecv ui_backend
      (after ui_backend (fresh_loop 3) [EvSend 7; EvFire 0 (300 * Millisecond)])
      7 (500 * Millisecond) (500 * Millisecond) = Some st' ∧
    snapshot (mem st') (ring st')
      = Some [mkSample (300 * Millisecond) (-1)%float 7 SampleLoss;
              mkSample (500 * Millisecond) 500%float 7 SampleLate] ∧
    with_seq 7 [mkSample (300 * Millisecond) (-1)%float 7 SampleLoss;
                mkSample (500 * Millisecond) 500%float 7 SampleLate]
      = [mkSample (300 * Millisecond) (-1)%float 7 SampleLoss;
         mkSample (500 * Millisecond) 500%float 7 SampleLate].
Proof.
  destruct (OnRecv_late_marker ui_backend
      (after ui_backend (fresh_loop 3) [EvSend 7; EvFire 0 (300 * Millisecond)])
      7 (500 * Millisecond) (500 * Millisecond))
    as (st' & HR & Hs & _ & Htwo).
  - apply after_inv. lia.
  - reflexivity.
  - left. reflexivity.
  - by vm_compute.
  - exists st'. split; [exact HR|]. split; [exact Hs|].
    apply (Htwo 0%nat (loss_sample 7 (300 * Millisecond))).
    + reflexivity.
    + reflexivity.
    + reflexivity.
    + left. reflexivity.
Defined.

(** C5 as the specification words it fails in a ring of capacity 1: the
    LOSS of the probe is already in the ring, the reply arrives after
    [MaxRTT + GraceLate], and the LATE marker that is pushed takes the only
    slot. The ring holds one sample of the sequence, not two. *)
Lemma late_marker_evicts_loss :
  ∃ st st',
    run ui_backend (fresh_loop 1) [EvSend 7; EvFire 0 (300 * Millisecond)]
      = Some st ∧
    pends st !! 7 = Some (mkPending 0 0 true) ∧
    snapshot (mem st) (ring st)
      = Some [mkSample (300 * Millisecond) (-1)%float 7 SampleLoss] ∧
    MaxRTT ui_backend + GraceLate ui_backend < 500 * Millisecond ∧
    OnRecv ui_backend st 7 (500 * Millisecond) (500 * Millisecond) = Some st' ∧
    snapshot (mem st') (ring st')
      = Some [mkSample (500 * Millisecond) 500%float 7 SampleLate] ∧
    with_seq 7 (history st')
      = [mkSample (500 * Millisecond) 500%float 7 SampleLate].
Proof.
  do 2 eexists.
  split; [reflexivity|]. split; [reflexivity|]. split; [reflexivity|].
  split; [reflexivity|]. split; [reflexivity|]. split; reflexivity.
Qed.

(** ** The defaults of [RunForHost] *)

Lemma stopTimer_keeps_after d ts t :
  Forall (λ tm, tafter tm = d) ts → Forall (λ tm, tafter tm = d) (stopTimer ts t).
Proof.
  intros H. unfold stopTimer. destruct (ts !! t) as [tm|] eqn:Et; [|done].
  case_bool_decide; [|done]. apply Forall_insert; [done|]. simpl.
  exact (Forall_lookup_1 _ _ _ _ H Et).
Qed.

(** Every timer a run arms waits for the backend's [MaxRTT]. *)
Lemma step_keeps_after pb st ev st' :
  Forall (λ tm, tafter tm = MaxRTT pb) (timers st) →
  step pb st ev = Some st' →
  Forall (λ tm, tafter tm = MaxRTT pb) (timers st').
Proof.
  intros H. destruct ev as [s|t now|s rtt now]; simpl.
  - intros [= <-]. simpl. apply Forall_app. split; [done|]. by apply Forall_singleton.
  - destruct (timers st !! t) as [tm|] eqn:Et; [|by intros [= <-]].
    case_bool_decide; [|by intros [= <-]].
    assert (Forall (λ tm0, tafter tm0 = MaxRTT pb)
              (<[t := mkTimer (tseq tm) (tafter tm) Fired]> (timers st))) as H'.
    { apply Forall_insert; [done|]. simpl. exact (Forall_lookup_1 _ _ _ _ H Et). }
    unfold onDeadline. simpl. destruct (pends st !! tseq tm); [|by intros [= <-]].
    destruct (Push _ _ _) as [[[h' r'] i]|]; [|done]. simpl. by intros [= <-].
  - unfold OnRecv.
    assert (Forall (λ tm, tafter tm = MaxRTT pb)
              (match pends st !! s with
               | Some p => stopTimer (timers st) (timer p)
               | None => timers st
               end)) as H'.
    { destruct (pends st !! s); [by apply stopTimer_keeps_after|done]. }
    repeat (case_bool_decide || case_match).
    all: try (destruct (Push _ _ _) as [[[? ?] ?]|]; simpl;
              [by intros [= <-] | done]).
    all: destruct (UpdateAt _ _ _ _) as [?|]; simpl; [by intros [= <-] | done].
Qed.

Lemma run_keeps_after pb evs : ∀ st st',
  Forall (λ tm, tafter tm = MaxRTT pb) (timers st) →
  run pb st evs = Some st' →
  Forall (λ tm, tafter tm = MaxRTT pb) (timers st').
Proof.
  induction evs as [|ev evs IH]; intros st st' H; simpl; [by intros [= <-]|].
  destruct (step pb st ev) as [st1|] eqn:E; [|done]. simpl.
  apply IH. by eapply step_keeps_after.
Qed.

(** C7, as the code has it. With a non-positive [MaxRTT], [RunForHost]
    sets it to the larger of three intervals and 150 ms, where the interval
    is 1 s when it was non-positive; every deadline timer of the run is
    armed with that value. *)
Theorem default_MaxRTT pb :
  MaxRTT pb ≤ 0 →
  Interval (withDefaults pb)
    = (if bool_decide (Interval pb ≤ 0) then Second else Interval pb) ∧
  MaxRTT (withDefaults pb)
    = maxDur (wrap64 (3 * Interval (withDefaults pb))) (150 * Millisecond) ∧
  (3 * Interval (withDefaults pb) ≤ max_int64 →
   MaxRTT (withDefaults pb)
     = Z.max (3 * Interval (withDefaults pb)) (150 * Millisecond)) ∧
  ∀ m host evs fin st e,
    RunForHost pb m (Some host) None evs fin = Some (Some st, e) →
    ∀ t tm, timers st !! t = Some tm → tafter tm = MaxRTT (withDefaults pb).
Proof.
  intros Hm.
  assert (MaxRTT (withDefaults pb)
          = maxDur (wrap64 (3 * Interval (withDefaults pb))) (150 * Millisecond))
    as Hmax.
  { unfold withDefaults. simpl. by rewrite bool_decide_eq_true_2. }
  assert (0 < Interval (withDefaults pb)) as Hpos.
  { unfold withDefaults. simpl. case_bool_decide; [done|lia]. }
  split; [done|]. split; [done|]. split.
  { intros Hfit. rewrite Hmax.
    rewrite wrap64_id by (unfold int64, max_int64 in *; lia).
    unfold maxDur. case_bool_decide; lia. }
  intros m host evs fin st e. unfold RunForHost.
  destruct (run _ _ evs) as [st1|] eqn:Er; [|done]. simpl.
  assert (Forall (λ tm, tafter tm = MaxRTT (withDefaults pb)) (timers st1)) as Hall.
  { eapply run_keeps_after; [|exact Er]. simpl. constructor. }
  destruct fin as [c|e']; intros [= <- <-]; intros t tm Ht.
  - assert (Forall (λ tm, tafter tm = MaxRTT (withDefaults pb))
              (timers (onCancel st1))) as Hc.
    { unfold onCancel. simpl.
      apply (map_fold_weak_ind
               (λ ts _, Forall (λ tm, tafter tm = MaxRTT (withDefaults pb)) ts));
        [done|].
      intros k p mp ts _ Hts. by apply stopTimer_keeps_after. }
    exact (Forall_lookup_1 _ _ _ _ Hc Ht).
  - exact (Forall_lookup_1 _ _ _ _ Hall Ht).
Qed.

Lemma default_MaxRTT_witness :
  MaxRTT (withDefaults (mkBackend false 0 0 0)) = 3 * Second.
Proof.
  destruct (default_MaxRTT (mkBackend false 0 0 0)) as (_ & H & _).
  - by vm_compute.
  - rewrite H. reflexivity.
Defined.

(** C7 as the specification words it: with nothing configured the interval
    is 1 s and the specification's default would be 2 s; the code's is 3 s. *)
Lemma default_MaxRTT_not_twice_interval :
  Interval (withDefaults (mkBackend false 0 0 0)) = Second ∧
  MaxRTT (withDefaults (mkBackend false 0 0 0)) = 3 * Second ∧
  Z.max (2 * Second) (300 * Millisecond) = 2 * Second ∧
  MaxRTT (withDefaults (mkBackend false 0 0 0))
    ≠ Z.max (2 * Interval (withDefaults (mkBackend false 0 0 0)))
            (300 * Millisecond).
Proof. repeat split; by vm_compute. Qed.

(** ** Ring capacities of new hosts *)

Lemma NewRing_Some h c :
  0 ≤ c → NewRing h c = Some ((make h c).1, mkRing (make h c).2 0 0).
Proof. intros Hc. unfold NewRing. by rewrite bool_decide_eq_false_2 by lia. Qed.

Lemma zero_ring_push_all xs : ∀ h r,
  len r = 0 → push_all h r xs = Some (h, r).
Proof.
  induction xs as [|x xs IH]; intros h r H0; [done|]. simpl.
  rewrite Push_empty by done. simpl. by apply IH.
Qed.

(** C10, as the code has it. [AddHostWithCap] replaces a non-positive
    capacity by 600. [AddHost] passes the capacity on as it is: with a
    negative one [NewRing] panics and no host is added; with zero the host's
    ring has no slot, every push into it returns [-1] and stores nothing, and
    its snapshot stays empty. *)
Theorem AddHost_capacity m name addr c :
  (c ≤ 0 →
   ∃ m' p h, AddHostWithCap m name addr c = Some (m', p) ∧
             objects m' !! p = Some h ∧ len (buf h) = DefaultRingCap) ∧
  (c < 0 → AddHost m name addr c = None) ∧
  (c = 0 →
   ∃ m' p h, AddHost m name addr c = Some (m', p) ∧
             objects m' !! p = Some h ∧ host_at m' (length (hosts m)) = Some h ∧
             len (buf h) = 0 ∧
             snapshot (arrays m') (buf h) = Some [] ∧
             (∀ hp s, Push hp (buf h) s = Some (hp, buf h, -1)) ∧
             (∀ xs, ∃ hp r, push_all (arrays m') (buf h) xs = Some (hp, r) ∧
                            hp = arrays m' ∧ r = buf h ∧
                            snapshot hp r = Some [])) ∧
  (0 < c →
   AddHost m name addr c = AddHostWithCap m name addr c ∧
   ∃ m' p h, AddHost m name addr c = Some (m', p) ∧
             objects m' !! p = Some h ∧ len (buf h) = c).
Proof.
  split; [|split; [|split]].
  - intros Hc. unfold AddHostWithCap. rewrite bool_decide_eq_true_2 by done.
    rewrite NewRing_Some by done. simpl. eexists _, _, _. split; [done|].
    simpl. rewrite lookup_app_r by lia. rewrite Nat.sub_diag. done.
  - intros Hc. unfold AddHost, NewRing. by rewrite bool_decide_eq_true_2.
  - intros ->. unfold AddHost. rewrite NewRing_Some by done. simpl.
    eexists _, _, _. split; [done|]. simpl.
    assert ((objects m ++ [mkHost name addr (Z.of_nat (length (hosts m)))
                             HostStopped
                             (mkRing (mkSlice (Some (length (arrays m))) 0 0 0) 0 0)])
              !! length (objects m) = Some (mkHost name addr
                             (Z.of_nat (length (hosts m))) HostStopped
                             (mkRing (mkSlice (Some (length (arrays m))) 0 0 0) 0 0)))
      as Hobj.
    { rewrite lookup_app_r by lia. by rewrite Nat.sub_diag. }
    split; [done|]. split.
    { unfold host_at. simpl. rewrite lookup_app_r by lia.
      rewrite Nat.sub_diag. simpl. done. }
    split; [done|]. split; [done|]. split; [by intros; apply Push_empty|].
    intros xs. eexists _, _. split; [by apply zero_ring_push_all|]. done.
  - intros Hc. split.
    + unfold AddHost, AddHostWithCap. by rewrite bool_decide_eq_false_2 by lia.
    + unfold AddHost. rewrite NewRing_Some by lia. simpl.
      eexists _, _, _. split; [done|]. simpl.
      rewrite lookup_app_r by lia. rewrite Nat.sub_diag. done.
Qed.

(** C10 as it is worded fails for a negative capacity: [AddHost] creates
    no host with an empty ring there, it panics; [AddHostWithCap] on the same
    input creates one with 600 slots. *)
Lemma AddHost_negative_panics :
  AddHost NewAppModel "gw" "10.0.0.1" (-1) = None ∧
  (∃ m p h, AddHostWithCap NewAppModel "gw" "10.0.0.1" (-1) = Some (m, p) ∧
            objects m !! p = Some h ∧ len (buf h) = 600).
Proof. split; [reflexivity|]. eexists _, _, _. by vm_compute. Qed.

(** ** The target registry *)

(** The renumbering loop over a list of distinct, valid pointers: the host
    at position [j] gets color index [i0 + j], and nothing else changes. *)
Lemma renumber_spec hs : ∀ objs i0,
  NoDup hs → (∀ p, p ∈ hs → is_Some (objs !! p)) →
  length (renumber objs hs i0) = length objs ∧
  (∀ j p, hs !! j = Some p →
          renumber objs hs i0 !! p = setColorI (i0 + Z.of_nat j) <$> objs !! p) ∧
  (∀ p, p ∉ hs → renumber objs hs i0 !! p = objs !! p).
Proof.
  induction hs as [|p hs IH]; intros objs i0 Hnd Hval; simpl.
  - split; [done|]. split; [by intros j p Hj|done].
  - apply NoDup_cons in Hnd as [Hp Hnd].
    destruct (IH (alter (setColorI i0) p objs) (i0 + 1) Hnd) as (Hlen & Hin & Hout).
    { intros q Hq. destruct (decide (p = q)) as [->|Hne].
      - rewrite list_lookup_alter_eq. apply fmap_is_Some. apply Hval. by left.
      - rewrite list_lookup_alter_ne by done. apply Hval. by right. }
    split; [by rewrite Hlen, length_alter|]. split.
    + intros [|j] q Hj; simpl in Hj.
      * injection Hj as <-. rewrite Hout by done.
        rewrite list_lookup_alter_eq. by rewrite Z.add_0_r.
      * assert (q ∈ hs) as Hq by (by eapply list_elem_of_lookup_2).
        rewrite (Hin j q Hj).
        rewrite list_lookup_alter_ne by (intros ->; done).
        do 2 f_equal. lia.
    + intros q Hq. apply not_elem_of_cons in Hq as [Hne Hq].
      rewrite Hout by done. by rewrite list_lookup_alter_ne.
Qed.

Lemma reg_inv_valid m i p : reg_inv m → hosts m !! i = Some p → is_Some (objects m !! p).
Proof. intros (_ & H) Hi. destruct (H i p Hi) as (h & -> & _). by eexists. Qed.

(** [RemoveHostAt] in range: the list loses that position, and each
    remaining host is the host it was, with its new position as color. *)
Lemma RemoveHostAt_spec m idx :
  reg_inv m → 0 ≤ idx < Count m →
  ∃ m',
    RemoveHostAt m idx = (m', true) ∧ reg_inv m' ∧
    hosts m' = delete (Z.to_nat idx) (hosts m) ∧
    Count m' = Count m - 1 ∧
    ∀ j p, hosts m' !! j = Some p →
           objects m' !! p = setColorI (Z.of_nat j) <$> objects m !! p.
Proof.
  intros Hreg Hidx. pose proof Hreg as (Hnd & Hcol). unfold Count in *.
  unfold RemoveHostAt. rewrite bool_decide_eq_false_2 by lia.
  replace (Z.to_nat (idx + 1)) with (S (Z.to_nat idx)) by lia.
  rewrite <- delete_take_drop.
  set (hs := delete (Z.to_nat idx) (hosts m)).
  assert (NoDup hs) as Hnd' by exact (sublist_NoDup _ _ Hnd (sublist_delete _ _)).
  assert (∀ p, p ∈ hs → is_Some (objects m !! p)) as Hval.
  { intros p Hp. apply list_elem_of_lookup in Hp as [j Hj].
    subst hs. rewrite list_lookup_delete in Hj.
    case_decide; eapply reg_inv_valid; done. }
  destruct (renumber_spec hs (objects m) 0 Hnd' Hval) as (Hlen & Hin & Hout).
  eexists. split; [done|]. simpl.
  assert (∀ j p, hs !! j = Some p →
            renumber (objects m) hs 0 !! p
            = setColorI (Z.of_nat j) <$> objects m !! p) as Hin'.
  { intros j p Hj. by rewrite (Hin j p Hj), Z.add_0_l. }
  split; [|split; [done|split; [|done]]].
  - split; [done|]. simpl. intros j p Hj. rewrite (Hin' j p Hj).
    destruct (Hval p) as [h Hh]; [by eapply list_elem_of_lookup_2|].
    rewrite Hh. simpl. by eexists.
  - subst hs. rewrite length_delete by (apply lookup_lt_is_Some_2; lia). lia.
Qed.

Lemma AddHost_reg_inv m name addr c m' p :
  reg_inv m → (∀ q, q ∈ hosts m → (q < length (objects m))%nat) →
  AddHost m name addr c = Some (m', p) →
  reg_inv m' ∧ (∀ q, q ∈ hosts m' → (q < length (objects m'))%nat).
Proof.
  intros (Hnd & Hcol) Hlt. unfold AddHost.
  destruct (NewRing (arrays m) c) as [[h' r]|]; [|done]. simpl.
  intros [= <- <-]. simpl. split; [split|].
  - apply NoDup_app. split; [done|]. split; [|apply NoDup_singleton].
    intros q Hq ->%list_elem_of_singleton. specialize (Hlt _ Hq). lia.
  - intros i q Hi. apply lookup_app_Some in Hi as [Hi|[Hge Hi]].
    + destruct (Hcol i q Hi) as (h & Hh & Hc). exists h. split; [|done].
      by apply lookup_app_l_Some.
    + apply list_lookup_singleton_Some in Hi as [Hi0 <-].
      eexists. simpl. rewrite lookup_app_r by lia. rewrite Nat.sub_diag.
      split; [done|]. simpl. f_equal. lia.
  - intros q Hq. rewrite length_app. simpl.
    apply elem_of_app in Hq as [Hq|Hq].
    + specialize (Hlt _ Hq). lia.
    + apply list_elem_of_singleton in Hq as ->. lia.
Qed.

Lemma reg_inv_lt m q : reg_inv m → q ∈ hosts m → (q < length (objects m))%nat.
Proof.
  intros Hreg Hq. apply list_elem_of_lookup in Hq as [i Hi].
  destruct (reg_inv_valid m i q Hreg Hi) as [h Hh]. by eapply lookup_lt_Some.
Qed.

Lemma apply_op_reg_inv m o m' : reg_inv m → apply_op m o = Some m' → reg_inv m'.
Proof.
  intros Hreg. destruct o as [n a c|n a c|idx|]; simpl.
  - destruct (AddHost m n a c) as [[m1 p]|] eqn:E; [|done]. simpl. intros [= <-].
    by apply (AddHost_reg_inv m n a c m1 p Hreg (λ q, reg_inv_lt m q Hreg)).
  - destruct (AddHostWithCap m n a c) as [[m1 p]|] eqn:E; [|done]. simpl.
    intros [= <-].
    by apply (AddHost_reg_inv m n a
                (if bool_decide (c ≤ 0) then DefaultRingCap else c) m1 p Hreg
                (λ q, reg_inv_lt m q Hreg)).
  - intros [= <-]. destruct (decide (0 ≤ idx < Count m)) as [Hin|Hout].
    + by destruct (RemoveHostAt_spec m idx Hreg Hin) as (m1 & -> & ? & _).
    + unfold RemoveHostAt, Count in *. by rewrite bool_decide_eq_true_2 by lia.
  - intros [= <-]. split; [apply NoDup_nil_2|]. by intros i p Hi.
Qed.

Lemma apply_ops_reg_inv os : ∀ m m',
  reg_inv m → apply_ops m os = Some m' → reg_inv m'.
Proof.
  induction os as [|o os IH]; intros m m' Hreg; simpl; [by intros [= <-]|].
  destruct (apply_op m o) as [m1|] eqn:E; [|done]. simpl.
  apply IH. by eapply apply_op_reg_inv.
Qed.

(** C9. After every sequence of registry operations from the empty
    registry, each listed host carries its position as color index.
    [RemoveHostAt] out of range returns false and changes nothing; in range
    it returns true and removes that position: the hosts after it move up by
    one, and each remaining host is the host it was, renumbered to its new
    position. *)
Theorem registry_identity_is_position ops m :
  apply_ops NewAppModel ops = Some m →
  (∀ i, (i < length (hosts m))%nat →
        ∃ h, host_at m i = Some h ∧ ColorI h = Z.of_nat i) ∧
  (∀ idx, idx < 0 ∨ Count m ≤ idx → RemoveHostAt m idx = (m, false)) ∧
  (∀ idx, 0 ≤ idx < Count m →
     ∃ m',
       RemoveHostAt m idx = (m', true) ∧
       hosts m' = delete (Z.to_nat idx) (hosts m) ∧
       Count m' = Count m - 1 ∧
       ∀ j, (j < length (hosts m'))%nat →
         ∃ h h0,
           host_at m' j = Some h ∧ ColorI h = Z.of_nat j ∧
           host_at m (if decide (j < Z.to_nat idx)%nat then j else S j) = Some h0 ∧
           h = setColorI (Z.of_nat j) h0).
Proof.
  intros Hops.
  assert (reg_inv m) as Hreg.
  { eapply apply_ops_reg_inv; [|done]. split; [apply NoDup_nil_2|]. by intros i p Hi. }
  split; [|split].
  - intros i Hi. destruct (lookup_lt_is_Some_2 _ _ Hi) as [p Hp].
    destruct Hreg as (_ & Hcol). destruct (Hcol i p Hp) as (h & Hh & Hc).
    exists h. unfold host_at. rewrite Hp. simpl. done.
  - intros idx Hout. unfold RemoveHostAt, Count in *.
    by rewrite bool_decide_eq_true_2.
  - intros idx Hin.
    destruct (RemoveHostAt_spec m idx Hreg Hin) as (m' & HR & Hreg' & Hh & Hc & Hobj).
    exists m'. split; [done|]. split; [done|]. split; [done|].
    intros j Hj. destruct (lookup_lt_is_Some_2 _ _ Hj) as [p Hp].
    pose proof Hp as Hp0. rewrite Hh, list_lookup_delete in Hp0.
    destruct (reg_inv_valid m _ p Hreg Hp0) as [h0 Hh0].
    exists (setColorI (Z.of_nat j) h0), h0. unfold host_at.
    rewrite Hp, Hp0. simpl. rewrite (Hobj j p Hp), Hh0. done.
Qed.

Lemma registry_identity_is_position_witness :
  ∃ h,
    host_at (default NewAppModel
               (apply_ops NewAppModel
                  [OpAdd "a" "10.0.0.1" 3; OpAdd "b" "10.0.0.2" 3;
                   OpAdd "c" "10.0.0.3" 3; OpRemoveAt 0])) 1 = Some h ∧
    ColorI h = 1.
Proof.
  refine (proj1 (registry_identity_is_position
            [OpAdd "a" "10.0.0.1" 3; OpAdd "b" "10.0.0.2" 3;
             OpAdd "c" "10.0.0.3" 3; OpRemoveAt 0]
            (default NewAppModel
               (apply_ops NewAppModel
                  [OpAdd "a" "10.0.0.1" 3; OpAdd "b" "10.0.0.2" 3;
                   OpAdd "c" "10.0.0.3" 3; OpRemoveAt 0])) _) 1%nat _).
  - reflexivity.
  - vm_compute. lia.
Defined.

Example remove_renumbers :
  (m ← apply_ops NewAppModel
         [OpAdd "a" "10.0.0.1" 3; OpAdd "b" "10.0.0.2" 3;
          OpAdd "c" "10.0.0.3" 3; OpRemoveAt 0];
   Some ((λ i, (λ h, (Name h, ColorI h)) <$> host_at m i) <$> [0; 1; 2]%nat))
  = Some [Some ("b", 0); Some ("c", 1); None].
Proof. reflexivity. Qed.

(** ** Cancellation *)

Lemma stopTimer_lookup ts t t' tm :
  stopTimer ts t !! t' = Some tm → tstate tm = Armed →
  ts !! t' = Some tm ∧ t' ≠ t.
Proof.
  unfold stopTimer. intros Ht Harm.
  destruct (ts !! t) as [tm0|] eqn:E0.
  - case_bool_decide as Ha.
    + destruct (decide (t' = t)) as [->|Hne].
      * rewrite list_lookup_insert_eq in Ht by (by eapply lookup_lt_Some).
        injection Ht as <-. done.
      * by rewrite list_lookup_insert_ne in Ht.
    + split; [done|]. intros ->. congruence.
  - split; [done|]. intros ->. congruence.
Qed.

(** What a step does to the map of pending records and to the timers. *)
Lemma step_pends_timers pb st ev st' :
  step pb st ev = Some st' →
  match ev with
  | EvSend s =>
      pends st' = <[s := mkPending (length (timers st)) (-1) false]> (pends st) ∧
      timers st' = timers st ++ [mkTimer s (MaxRTT pb) Armed]
  | EvFire t now =>
      (timers st' = timers st ∧ pends st' = pends st) ∨
      ∃ tm, timers st !! t = Some tm ∧ tstate tm = Armed ∧
            timers st' = <[t := mkTimer (tseq tm) (tafter tm) Fired]> (timers st) ∧
            (pends st' = pends st ∨
             ∃ p i, pends st !! tseq tm = Some p ∧
                    pends st' = <[tseq tm := mkPending (timer p) i true]> (pends st))
  | EvRecv s _ _ =>
      pends st' = delete s (pends st) ∧
      timers st' = match pends st !! s with
                   | Some p => stopTimer (timers st) (timer p)
                   | None => timers st
                   end
  end.
Proof.
  destruct ev as [s|t now|s rtt now]; simpl.
  - by intros [= <-].
  - destruct (timers st !! t) as [tm|] eqn:Et; [|intros [= <-]; by left].
    case_bool_decide; [|intros [= <-]; by left].
    unfold onDeadline. simpl. intros Hst. right. exists tm.
    split; [done|]. split; [done|].
    destruct (pends st !! tseq tm) as [p|] eqn:Ep.
    + destruct (Push _ _ _) as [[[h' r'] i]|]; [|done]. simpl in Hst.
      injection Hst as <-. simpl. split; [done|]. right. by exists p, i.
    + injection Hst as <-. simpl. by eauto.
  - unfold OnRecv. intros Hst.
    repeat (case_bool_decide || case_match).
    all: try (destruct (Push _ _ _) as [[[? ?] ?]|]; simpl in Hst;
              [by injection Hst as <- | done]).
    all: destruct (UpdateAt _ _ _ _) as [?|]; simpl in Hst;
      [by injection Hst as <- | done].
Qed.

(** A step keeps every armed timer tied to the pending record of its
    sequence, provided a send does not reuse a sequence number that still
    has a record. *)
Lemma step_tracked pb st ev st' :
  tracked st →
  (∀ s, ev = EvSend s → pends st !! s = None) →
  step pb st ev = Some st' → tracked st'.
Proof.
  intros Htr Hfresh Hst. apply step_pends_timers in Hst.
  destruct ev as [s|t now|s rtt now].
  - destruct Hst as (Hps & Hts). intros t tm Ht Harm. rewrite Hts in Ht. rewrite Hps.
    apply lookup_app_Some in Ht as [Ht|[Hge Ht]].
    + destruct (Htr t tm Ht Harm) as (p & Hp & Htp).
      assert (tseq tm ≠ s) as Hne.
      { intros Heq. rewrite Heq, (Hfresh s eq_refl) in Hp. done. }
      exists p. by rewrite lookup_insert_ne.
    + apply list_lookup_singleton_Some in Ht as [Ht0 <-]. simpl.
      eexists. rewrite lookup_insert_eq. split; [done|]. simpl.
      apply lookup_ge_None_2 in Hge as Hn. lia.
  - destruct Hst as [(Hts & Hps)|(tm0 & Ht0 & Harm0 & Hts & Hps)].
    { intros t' tm Ht Harm. rewrite Hts in Ht. rewrite Hps. by apply Htr. }
    intros t' tm Ht Harm. rewrite Hts in Ht.
    destruct (decide (t' = t)) as [->|Hne].
    { rewrite list_lookup_insert_eq in Ht by (by eapply lookup_lt_Some).
      injection Ht as <-. done. }
    rewrite list_lookup_insert_ne in Ht by done.
    destruct (Htr t' tm Ht Harm) as (p & Hp & Htp).
    destruct Hps as [->|(p0 & i & Hp0 & ->)]; [by eauto|].
    destruct (decide (tseq tm0 = tseq tm)) as [Heq|Hneq].
    + rewrite Heq, lookup_insert_eq. eexists. split; [done|]. simpl.
      rewrite Heq in Hp0. congruence.
    + rewrite lookup_insert_ne by done. by eauto.
  - destruct Hst as (Hps & Hts). intros t' tm Ht Harm. rewrite Hps.
    assert (timers st !! t' = Some tm ∧
            ∀ p, pends st !! s = Some p → t' ≠ timer p) as (Ht0 & Hnp).
    { rewrite Hts in Ht. destruct (pends st !! s) as [p|].
      - destruct (stopTimer_lookup _ _ _ _ Ht Harm). split; [done|].
        by intros ? [= <-].
      - done. }
    destruct (Htr t' tm Ht0 Harm) as (p & Hp & Htp).
    assert (tseq tm ≠ s) as Hne.
    { intros Heq. rewrite Heq in Hp. by destruct (Hnp p Hp). }
    exists p. by rewrite lookup_delete_ne.
Qed.

Lemma step_pends_fresh pb st ev st' s :
  pends st !! s = None → ev ≠ EvSend s →
  step pb st ev = Some st' → pends st' !! s = None.
Proof.
  intros Hs Hev Hst. apply step_pends_timers in Hst.
  destruct ev as [s0|t now|s0 rtt now].
  - destruct Hst as (-> & _). rewrite lookup_insert_ne; [done|congruence].
  - destruct Hst as [(_ & ->)|(tm & _ & _ & _ & [->|(p & i & Hp & ->)])];
      [done|done|].
    rewrite lookup_insert_ne; [done|congruence].
  - destruct Hst as (-> & _).
    destruct (decide (s0 = s)) as [->|?];
      [apply lookup_delete_eq|by rewrite lookup_delete_ne].
Qed.

(** With each sequence number sent once, every armed timer of a run stays
    tied to its pending record. *)
Lemma run_tracked pb evs : ∀ st st',
  tracked st → NoDup (sends evs) →
  (∀ s, s ∈ sends evs → pends st !! s = None) →
  run pb st evs = Some st' → tracked st'.
Proof.
  induction evs as [|ev evs IH]; intros st st' Htr Hnd Hfresh; simpl.
  - by intros [= <-].
  - destruct (step pb st ev) as [st1|] eqn:Est; [|done]. simpl.
    assert (NoDup (sends evs) ∧
            (∀ s, ev = EvSend s → (s ∉ sends evs) ∧ s ∈ sends (ev :: evs)) ∧
            (∀ s, s ∈ sends evs → s ∈ sends (ev :: evs))) as (Hnd' & Hhd & Htl).
    { destruct ev as [s0| |]; simpl in *.
      - apply NoDup_cons in Hnd as [? ?]. split; [done|]. split.
        + intros s [= <-]. split; [done|by left].
        + intros s Hs. by right.
      - done.
      - done. }
    apply (IH st1); [|done|].
    + eapply step_tracked; [done| |done].
      intros s ->. apply Hfresh. by apply (Hhd s).
    + intros s Hs. eapply step_pends_fresh; [|  |done].
      * by apply Hfresh, Htl.
      * intros ->. by destruct (Hhd s eq_refl).
Qed.




(** ** The recorded slot between the deadline and a late reply *)

(** What a step does to the ring: nothing, one push, or one rewrite of a
    slot by the grace branch. *)
Lemma step_effect pb st ev st' :
  ring_inv (mem st) (ring st) → step pb st ev = Some st' →
  (mem st' = mem st ∧ ring st' = ring st) ∨
  (∃ s i, Push (mem st) (ring st) s = Some (mem st', ring st', i)) ∨
  (ring st' = ring st ∧
   ∃ j rtt now, UpdateAt (mem st) (ring st) j (toLate rtt now) = Some (mem st')).
Proof.
  intros Hinv Hst. destruct ev as [s|t now|s rtt now]; simpl in Hst.
  - injection Hst as <-. by left.
  - destruct (timers st !! t) as [tm|] eqn:Et; [|injection Hst as <-; by left].
    case_bool_decide; [|injection Hst as <-; by left].
    match type of Hst with
    | onDeadline ?s1 _ _ = _ =>
        destruct (onDeadline_cases s1 (tseq tm) now Hinv)
          as (st2 & HD & _ & _ & _ & _ & [(_ & Heq)|(p & i & _ & HP & _)])
    end; rewrite Hst in HD; injection HD as <-.
    + rewrite Heq. by left.
    + right. left. by eauto.
  - destruct (OnRecv_cases pb st s rtt now Hinv)
      as (st2 & HR & _ & _ & _ & _ & _ & [(_ & _ & Hr & p & _ & HU)|(_ & i & HP)]);
      rewrite Hst in HR; injection HR as <-.
    + right. right. by eauto 10.
    + right. left. by eauto.
Qed.

(** A rewrite by the grace branch, wherever it lands, leaves in each
    retained slot a sample of the sequence number it had. *)
Lemma UpdateAt_keeps_slot h r i x j rtt now h' :
  ring_inv h r → slot_holds h r i x →
  UpdateAt h r j (toLate rtt now) = Some h' →
  ∃ x', slot_holds h' r i x' ∧ Seq x' = Seq x.
Proof.
  intros Hinv Hsl HU.
  destruct (slot_holds_contents h r i x Hinv Hsl) as (Hc & Hp).
  destruct Hsl as (Hi & Hx).
  destruct (UpdateAt_retained h r j (toLate rtt now) Hinv)
    as (h1 & HU' & _ & _ & _ & [(_ & ->)|(y & Hj & Hy & _ & Hr)]);
    rewrite HU in HU'; injection HU' as <-.
  { exists x. by split. }
  destruct (decide (Z.to_nat (pos_of r j) = Z.to_nat (pos_of r i))) as [Heq|Hne].
  - exists (toLate rtt now y). split; [split; [done|]|].
    + rewrite Hr, Heq. apply list_lookup_insert_eq.
      by eapply lookup_lt_Some.
    + assert (0 ≤ pos_of r j) by (apply Z.mod_pos_bound; lia).
      rewrite index_contents in Hy by (apply Hinv || (unfold len in *; lia)).
      rewrite <- retained_pos in Hy by (done || lia).
      rewrite Heq, Hx in Hy. by injection Hy as <-.
  - exists x. split; [|done]. split; [done|].
    rewrite Hr. by rewrite list_lookup_insert_ne.
Qed.

(** Through a run of fewer events than the sample has pushes left before
    eviction, the slot keeps holding a sample of the same sequence. *)
Lemma run_keeps_slot pb seq i evs : ∀ st x,
  ring_inv (mem st) (ring st) →
  slot_holds (mem st) (ring st) i x → Seq x = seq →
  count (ring st) - pos_of (ring st) i + Z.of_nat (length evs) ≤ len (ring st) →
  ∃ st' x',
    run pb st evs = Some st' ∧ ring_inv (mem st') (ring st') ∧
    slot_holds (mem st') (ring st') i x' ∧ Seq x' = seq.
Proof.
  induction evs as [|ev evs IH]; intros st x Hinv Hsl Hx Hage; simpl.
  - by exists st, x.
  - destruct (step_spec pb st ev Hinv) as (st1 & zs & Hst & Hinv1 & Hd1 & _).
    rewrite Hst. simpl. simpl in Hage.
    assert (len (ring st1) = len (ring st)) as Hl1 by (unfold len; by rewrite Hd1).
    assert (∃ x1, slot_holds (mem st1) (ring st1) i x1 ∧ Seq x1 = seq ∧
                  count (ring st1) - pos_of (ring st1) i
                  ≤ count (ring st) - pos_of (ring st) i + 1)
      as (x1 & Hsl1 & Hx1 & Hage1).
    { destruct (step_effect pb st ev st1 Hinv Hst)
        as [(-> & ->)|[(s & k & HP)|(-> & j & rtt & now & HU)]].
      - exists x. split; [done|]. split; [done|]. lia.
      - destruct (Push_keeps_slot _ _ _ _ _ _ i x Hinv Hsl ltac:(lia) HP) as (? & ?).
        exists x. split; [done|]. split; [done|]. lia.
      - destruct (UpdateAt_keeps_slot _ _ i x _ _ _ _ Hinv Hsl HU) as (x1 & ? & ?).
        exists x1. split; [done|]. split; [congruence|]. lia. }
    destruct (IH st1 x1 Hinv1 Hsl1 Hx1) as (st2 & x2 & -> & ? & ? & ?); [lia|].
    by exists st2, x2.
Qed.

(** X1. The deadline of a probe fires, fewer than [len] other events
    follow, none of them a send or a reply of that sequence, and the reply
    arrives within the grace window: the ring then holds exactly one sample
    of the sequence, the LATE one, and the reply pushed nothing. *)
Lemma grace_reply_within_capacity pb st t tm now0 p evs rtt now :
  ring_inv (mem st) (ring st) →
  timers st !! t = Some tm → tstate tm = Armed →
  pends st !! tseq tm = Some p →
  (∀ t' tm', timers st !! t' = Some tm' → tseq tm' = tseq tm →
             tstate tm' = Armed → t' = t) →
  with_seq (tseq tm) (history st) = [] →
  Forall (silent (tseq tm)) evs →
  Z.of_nat (length evs) < len (ring st) →
  MaxRTT pb < rtt → rtt ≤ MaxRTT pb + GraceLate pb →
  int64 (MaxRTT pb + GraceLate pb) →
  ∃ st1 st2 st3,
    step pb st (EvFire t now0) = Some st1 ∧
    run pb st1 evs = Some st2 ∧
    OnRecv pb st2 (tseq tm) rtt now = Some st3 ∧
    with_seq (tseq tm) (history st3)
      = [mkSample now (latency_ms rtt) (tseq tm) SampleLate] ∧
    length (history st3) = length (history st2) ∧
    pends st3 !! tseq tm = None.
Proof.
  intros Hinv Ht Harm Hp Honly Hnone Hsil Hlen Hlate Hgr Hint.
  assert (0 < len (ring st)) as Hpos by lia.
  destruct (step_spec pb st (EvFire t now0) Hinv) as (st1 & zs0 & Hst & Hinv1 & Hd1 & _).
  pose proof Hst as Hst'. simpl in Hst'. rewrite Ht in Hst'.
  rewrite bool_decide_eq_true_2 in Hst' by done.
  match type of Hst' with onDeadline ?s1 _ _ = _ => set (sf := s1) in * end.
  destruct (onDeadline_cases sf (tseq tm) now0 Hinv)
    as (st1' & HD & _ & _ & Hts & _ & [(Hno & _)|(p' & i & Hp' & HP & Hps)]).
  { simpl in Hno. congruence. }
  rewrite Hst' in HD. injection HD as <-.
  simpl in Hp'. assert (p' = p) as -> by congruence.
  destruct (Push_slot_holds _ _ _ _ _ _ Hinv Hpos HP) as (Hsl1 & Hage1 & _).
  assert (len (ring st1) = len (ring st)) as Hl1 by (unfold len; by rewrite Hd1).
  assert (history st1 = lastn (Z.to_nat (len (ring st)))
                          (history st ++ [loss_sample (tseq tm) now0])) as Hh1.
  { unfold history at 1. by rewrite (Push_retained _ _ _ _ _ _ Hinv HP). }
  assert (with_seq (tseq tm) (history st1) = [loss_sample (tseq tm) now0]) as Hone1.
  { rewrite Hh1. apply with_seq_push_fresh; (done || lia). }
  assert (no_armed (tseq tm) (timers st1)) as Hna.
  { rewrite Hts. intros t' tm' Ht' Hseq Harm'. simpl in Ht'.
    destruct (decide (t' = t)) as [->|Hne].
    - rewrite list_lookup_insert_eq in Ht' by (by eapply lookup_lt_Some).
      injection Ht' as <-. done.
    - rewrite list_lookup_insert_ne in Ht' by done. eauto. }
  destruct (run_silent pb (tseq tm) evs st1 Hinv1 Hsil Hna)
    as (st2 & zs & Hrun & Hinv2 & Hd2 & Hz & Hs2 & _ & Hp2).
  destruct (run_keeps_slot pb (tseq tm) i evs st1 (loss_sample (tseq tm) now0))
    as (st2' & x2 & Hrun' & _ & Hsl2 & Hx2); [done|done|done|lia|].
  rewrite Hrun in Hrun'. injection Hrun' as <-.
  assert (with_seq (tseq tm) (history st2) = [x2]) as Hone2.
  { destruct Hsl2 as (_ & Hk). eapply with_seq_single; [exact Hk|done|].
    rewrite with_seq_length, Hs2.
    etrans; [by apply filter_lastn_fresh|].
    by rewrite <- with_seq_length, Hone1. }
  destruct (OnRecv_grace_slot pb st2 (tseq tm) rtt now
              (mkPending (timer p) i true) x2)
    as (st3 & HR & _ & _ & Hh3 & Hps3); [done| |done..|].
  { rewrite Hp2, Hps. apply lookup_insert_eq. }
  exists st1, st2, st3. split; [done|]. split; [done|]. split; [done|].
  split; [|split].
  - rewrite Hh3. destruct Hsl2 as (_ & Hk). by eapply with_seq_insert.
  - by rewrite Hh3, length_insert.
  - rewrite Hps3. apply lookup_delete_eq.
Qed.

(** Before any loop starts: a nil host yields [context.Canceled], and a
    pinger that cannot be made yields its own error. *)
Example RunForHost_setup pb m host e evs fin :
  RunForHost pb m None None evs fin = Some (None, Some Canceled) ∧
  RunForHost pb m (Some host) (Some e) evs fin = Some (None, Some e).
Proof. done. Qed.

(** ** Further properties of the ring *)







Lemma Push_frame h r s h' r' i :
  ring_inv h r → Push h r s = Some (h', r', i) →
  length h' = length h ∧ data r' = data r ∧
  (∀ a, arr (data r) ≠ Some a → h' !! a = h !! a) ∧
  (∀ a l, h !! a = Some l → ∃ l', h' !! a = Some l' ∧ length l' = length l) ∧
  ((len r = 0 ∧ i = -1 ∧ h' = h ∧ r' = r) ∨
   (0 < len r ∧ i = head r ∧ head r' = (head r + 1) `mod` len r ∧
    count r' = Z.min (count r + 1) (len r))).
Proof.
  intros Hinv HP. pose proof Hinv as (Hok & Hc & Hh & Hb & _).
  destruct (decide (len r = 0)) as [H0|H0].
  - rewrite Push_empty in HP by done. injection HP as <- <- <-.
    repeat (split; [done|]). split; [by eauto|]. by left.
  - assert (0 < len r) as Hpos by (unfold len in *; destruct Hok as (_ & ? & _); lia).
    destruct (Push_spec h r s Hinv Hpos) as (h1 & HP1 & _ & Hl & Hf & Hm & _).
    rewrite HP1 in HP. injection HP as <- <- <-. simpl.
    repeat (split; [done|]). right. repeat (split; [done|]).
    split; [|done]. apply Z.rem_mod_nonneg; lia.
Qed.

Lemma push_all_cursor xs : ∀ h r h' r',
  ring_inv h r → 0 < len r → push_all h r xs = Some (h', r') →
  ring_inv h' r' ∧ data r' = data r ∧
  head r' = (head r + Z.of_nat (length xs)) `mod` len r ∧
  count r' = Z.min (count r + Z.of_nat (length xs)) (len r).
Proof.
  induction xs as [|x xs IH]; intros h r h' r' Hinv Hpos; simpl.
  - intros [= <- <-]. split; [done|]. split; [done|].
    destruct Hinv as (_ & Hc & Hh & Hb & _).
    rewrite Z.add_0_r, Z.mod_small by lia. lia.
  - destruct (Push h r x) as [[[h1 r1] i]|] eqn:EP; [|done]. simpl.
    intros Hall.
    destruct (Push_total h r x Hinv) as (h1' & r1' & i' & EP' & Hinv1 & Hd1).
    rewrite EP in EP'. injection EP' as <- <- <-.
    destruct (Push_frame _ _ _ _ _ _ Hinv EP)
      as (_ & _ & _ & _ & [(? & _)|(_ & _ & Hh1 & Hc1)]);
      [lia|].
    assert (len r1 = len r) as Hlen by (unfold len; by rewrite Hd1).
    destruct (IH h1 r1 h' r' Hinv1 ltac:(lia) Hall) as (Hinv' & Hd' & Hh' & Hc').
    split; [done|]. split; [congruence|].
    rewrite Hh', Hc', Hh1, Hc1, Hlen. split.
    + rewrite Zplus_mod_idemp_l. f_equal. lia.
    + lia.
Qed.

(** X4. A slot index counts pushes modulo the capacity: after [N] pushes
    into a ring made with capacity [C > 0] the ring holds [min N C] samples,
    and the next push stores into, and returns, slot [N mod C]. An index is
    therefore handed out again after exactly [C] further pushes. *)
Theorem Push_index_cycles h0 C h r xs h1 r1 s :
  NewRing h0 C = Some (h, r) → 0 < C →
  push_all h r xs = Some (h1, r1) →
  count r1 = Z.min (Z.of_nat (length xs)) C ∧
  ∃ h2 r2,
    Push h1 r1 s = Some (h2, r2, Z.of_nat (length xs) `mod` C) ∧
    index h2 (data r2) (Z.of_nat (length xs) `mod` C) = Some s ∧
    count r2 = Z.min (Z.of_nat (length xs) + 1) C.
Proof.
  intros HN HC Hall.
  destruct (NewRing_spec _ _ _ _ HN) as (_ & Hinv & Hlen & Hc0 & Hh0 & _).
  destruct (push_all_cursor xs h r h1 r1 Hinv ltac:(lia) Hall)
    as (Hinv1 & Hd1 & Hh1 & Hc1).
  rewrite Hh0, Hc0, Hlen in *. rewrite Z.add_0_l in Hh1, Hc1. split; [done|].
  assert (len r1 = C) as Hlen1 by (unfold len in *; by rewrite Hd1).
  destruct (Push_spec h1 r1 s Hinv1 ltac:(lia))
    as (h2 & HP & Hcont & _ & _ & _ & Hinv2).
  exists h2, (mkRing (data r1) (Z.rem (head r1 + 1) (len r1))
                     (Z.min (count r1 + 1) (len r1))).
  rewrite <- Hh1. split; [done|]. simpl. split.
  - pose proof Hinv1 as (Hok1 & _ & Hhn & Hb & _).
    assert (slice_ok h2 (data r1)) as Hok2 by (by destruct Hinv2).
    rewrite index_contents by (done || (unfold len in *; lia)).
    rewrite Hcont. apply list_lookup_insert_eq.
    rewrite contents_length by done. unfold len in *. lia.
  - rewrite Hc1, Hlen1. lia.
Qed.

Lemma Push_index_cycles_witness :
  ∃ h2 r2,
    Push (default (make [] 2).1
            (fst <$> push_all (make [] 2).1 (mkRing (make [] 2).2 0 0)
                              (sample_of <$> [1; 2; 3])))
         (mkRing (make [] 2).2 1 2)
         (sample_of 4) = Some (h2, r2, 1).
Proof.
  destruct (Push_index_cycles [] 2 (make [] 2).1 (mkRing (make [] 2).2 0 0)
              (sample_of <$> [1; 2; 3])
              (default (make [] 2).1
                 (fst <$> push_all (make [] 2).1 (mkRing (make [] 2).2 0 0)
                                   (sample_of <$> [1; 2; 3])))
              (mkRing (make [] 2).2 1 2)
              (sample_of 4))
    as (_ & h2 & r2 & HP & _).
  - by vm_compute.
  - lia.
  - by vm_compute.
  - by exists h2, r2.
Defined.
(** X5. [UpdateAt] only rejects an index when the ring is empty or the index
    is outside the backing array. On a ring that is not yet full, an index
    of a slot that no push has filled is accepted: the mutator is applied to
    the unused element there, and no snapshot shows it. *)
Theorem UpdateAt_unfilled_slot h r i f :
  ring_inv h r → 0 < count r → count r ≤ i < len r →
  ∃ x h',
    index h (data r) i = Some x ∧
    UpdateAt h r i f = Some h' ∧
    index h' (data r) i = Some (f x) ∧
    ring_inv h' r ∧
    snapshot h' r = Some (retained h r) ∧ snapshot h r = Some (retained h r).
Proof.
  intros Hinv Hpos Hi.
  destruct (UpdateAt_retained h r i f Hinv)
    as (h' & HU & Hinv' & _ & _ & [([?|[?|?]] & _)|(x & _ & Hx & Hx' & Hret)]);
    try lia.
  exists x, h'. repeat (split; [done|]).
  rewrite !snapshot_retained by done. split; [|done]. f_equal.
  rewrite Hret. apply list_insert_ge.
  rewrite (retained_length h r Hinv).
  unfold pos_of. rewrite (start_of_short h r Hinv) by lia.
  rewrite Z.sub_0_r, Z.mod_small by lia. lia.
Qed.

Lemma UpdateAt_unfilled_slot_witness :
  ∃ x h',
    index (mem (after ui_backend (fresh_loop 3) [EvRecv 1 5 5]))
          (data (ring (after ui_backend (fresh_loop 3) [EvRecv 1 5 5]))) 2 = Some x ∧
    UpdateAt (mem (after ui_backend (fresh_loop 3) [EvRecv 1 5 5]))
             (ring (after ui_backend (fresh_loop 3) [EvRecv 1 5 5])) 2 (toLate 5 9)
      = Some h' ∧
    snapshot h' (ring (after ui_backend (fresh_loop 3) [EvRecv 1 5 5]))
      = Some [mkSample 5 (latency_ms 5) 1 SampleOK].
Proof.
  destruct (UpdateAt_unfilled_slot
              (mem (after ui_backend (fresh_loop 3) [EvRecv 1 5 5]))
              (ring (after ui_backend (fresh_loop 3) [EvRecv 1 5 5]))
              2 (toLate 5 9))
    as (x & h' & Hx & HU & _ & _ & Hs & _).
  - by apply after_inv.
  - by vm_compute.
  - by vm_compute.
  - exists x, h'. split; [done|]. split; [done|]. rewrite Hs. by vm_compute.
Defined.

(** X6. The handlers never index the ring out of range: on a ring made by
    [NewRing], of any capacity (zero included), [RunForHost] runs every
    sequence of sends, deadline firings and replies to its end, whichever
    way it ends. The ring keeps its backing array and capacity, never holds
    more samples than the capacity, and a snapshot of it succeeds. *)
Theorem handlers_never_panic h0 c h r host pb evs fin :
  NewRing h0 c = Some (h, r) → buf host = r →
  ∃ st e,
    RunForHost pb h (Some host) None evs fin = Some (Some st, e) ∧
    data (ring st) = data r ∧ len (ring st) = c ∧
    (length (history st) ≤ Z.to_nat c)%nat ∧
    snapshot (mem st) (ring st) = Some (history st).
Proof.
  intros HN Hb.
  destruct (NewRing_spec _ _ _ _ HN) as (_ & Hinv & Hlen & _).
  destruct (run_total (withDefaults pb) evs (mkLoop h (buf host) ∅ [] true))
    as (st & Hrun & Hinv' & Hd); [simpl; by rewrite Hb|].
  simpl in Hd. rewrite Hb in Hd.
  assert (len (ring st) = c) as Hlen' by (unfold len in *; by rewrite Hd).
  assert ((length (history st) ≤ Z.to_nat c)%nat) as Hle.
  { unfold history. rewrite retained_length by done.
    destruct Hinv' as (_ & ? & _). lia. }
  unfold RunForHost. rewrite Hrun. simpl.
  destruct fin as [d|e]; eexists _, _; (split; [done|]); simpl;
    repeat (split; [done|]); by apply snapshot_retained.
Qed.

Lemma handlers_never_panic_witness :
  ∃ st e,
    RunForHost ui_backend (make [] 0).1
      (Some (mkHost "gw" "10.0.0.1" 0 HostStopped (mkRing (make [] 0).2 0 0)))
      None [EvSend 1; EvFire 0 (300 * Millisecond); EvRecv 1 (350 * Millisecond) 5]
      (CtxDone ByCancel) = Some (Some st, e) ∧
    snapshot (mem st) (ring st) = Some [].
Proof.
  destruct (handlers_never_panic [] 0 (make [] 0).1 (mkRing (make [] 0).2 0 0)
              (mkHost "gw" "10.0.0.1" 0 HostStopped (mkRing (make [] 0).2 0 0))
              ui_backend
              [EvSend 1; EvFire 0 (300 * Millisecond); EvRecv 1 (350 * Millisecond) 5]
              (CtxDone ByCancel))
    as (st & e & HR & _ & _ & Hl & Hs).
  - by vm_compute.
  - done.
  - exists st, e. split; [done|]. rewrite Hs.
    by destruct (history st); [|simpl in Hl; lia].
Defined.

Lemma UpdateAt_frame h r i f h' :
  ring_inv h r → UpdateAt h r i f = Some h' →
  length h' = length h ∧
  (∀ a, arr (data r) ≠ Some a → h' !! a = h !! a) ∧
  (∀ a l, h !! a = Some l → ∃ l', h' !! a = Some l' ∧ length l' = length l).
Proof.
  intros Hinv HU.
  destruct (decide (count r = 0 ∨ i < 0 ∨ len r ≤ i)) as [Hno|Hin].
  - rewrite UpdateAt_noop in HU by done. injection HU as <-. by eauto.
  - destruct (UpdateAt_spec h r i f Hinv) as (x & h1 & _ & HU1 & _ & Hl & Hf & Hm);
      [lia|lia|].
    rewrite HU in HU1. injection HU1 as <-. done.
Qed.

Lemma step_frame pb st ev st' :
  ring_inv (mem st) (ring st) → step pb st ev = Some st' →
  length (mem st') = length (mem st) ∧
  (∀ a, arr (data (ring st)) ≠ Some a → mem st' !! a = mem st !! a) ∧
  (∀ a l, mem st !! a = Some l →
          ∃ l', mem st' !! a = Some l' ∧ length l' = length l).
Proof.
  intros Hinv Hst.
  destruct (step_effect pb st ev st' Hinv Hst)
    as [(-> & _)|[(s & i & HP)|(_ & j & rtt & now & HU)]].
  - by eauto.
  - by destruct (Push_frame _ _ _ _ _ _ Hinv HP) as (? & _ & ? & ? & _).
  - by eapply UpdateAt_frame.
Qed.

Lemma run_frame pb evs : ∀ st st',
  ring_inv (mem st) (ring st) → run pb st evs = Some st' →
  length (mem st') = length (mem st) ∧
  (∀ a, arr (data (ring st)) ≠ Some a → mem st' !! a = mem st !! a) ∧
  (∀ a l, mem st !! a = Some l →
          ∃ l', mem st' !! a = Some l' ∧ length l' = length l).
Proof.
  induction evs as [|ev evs IH]; intros st st' Hinv; simpl.
  - intros [= <-]. by eauto.
  - destruct (step pb st ev) as [st1|] eqn:Est; [|done]. simpl. intros Hrun.
    destruct (step_spec pb st ev Hinv) as (st1' & zs & Est' & Hinv1 & Hd1 & _).
    rewrite Est in Est'. injection Est' as <-.
    destruct (step_frame pb st ev st1 Hinv Est) as (Hl1 & Hf1 & Hm1).
    destruct (IH st1 st' Hinv1 Hrun) as (Hl & Hf & Hm).
    split; [congruence|]. split.
    + intros a Ha. rewrite Hf by (by rewrite Hd1). by apply Hf1.
    + intros a l Hal. destruct (Hm1 a l Hal) as (l1 & Hl1' & Hlen1).
      destruct (Hm a l1 Hl1') as (l2 & Hl2' & Hlen2).
      exists l2. split; [done|]. congruence.
Qed.

(** X7. A probe loop writes only into the array of its own host's ring:
    whatever is sent, received or timed out, no array is allocated, every
    other array keeps its content, and so a ring that does not share the
    loop's storage shows the same snapshot after the run as before. *)
Theorem run_writes_own_ring_only pb st evs r2 :
  ring_inv (mem st) (ring st) → ring_inv (mem st) r2 →
  ¬ shares (data (ring st)) (data r2) →
  ∃ st',
    run pb st evs = Some st' ∧
    length (mem st') = length (mem st) ∧
    (∀ a, arr (data (ring st)) ≠ Some a → mem st' !! a = mem st !! a) ∧
    ring_inv (mem st') r2 ∧
    contents (mem st') (data r2) = contents (mem st) (data r2) ∧
    snapshot (mem st') r2 = snapshot (mem st) r2.
Proof.
  intros Hinv Hinv2 Hns.
  destruct (run_total pb evs st Hinv) as (st' & Hrun & Hinv' & Hd).
  destruct (run_frame pb evs st st' Hinv Hrun) as (Hl & Hf & Hm).
  exists st'. repeat (split; [done|]).
  assert (contents (mem st') (data r2) = contents (mem st) (data r2)) as Hc.
  { apply contents_frame. intros a Ha. apply Hf. intros Ha'. apply Hns. by exists a. }
  assert (ring_inv (mem st') r2) as Hinv2' by (by eapply ring_inv_mono).
  repeat (split; [done|]).
  rewrite !snapshot_retained by done. unfold retained. by rewrite Hc.
Qed.

(** A concrete ring is well formed, by computation. *)
Ltac concrete_ring_inv :=
  repeat split; simpl; unfold len; simpl; try lia; try (left; lia);
  try (eexists; split; by vm_compute).

Lemma run_writes_own_ring_only_witness :
  ∃ st',
    run ui_backend
        (mkLoop (make (make [] 2).1 2).1 (mkRing (make [] 2).2 0 0) ∅ [] true)
        [EvSend 1; EvRecv 1 5 5] = Some st' ∧
    snapshot (mem st') (mkRing (make (make [] 2).1 2).2 0 0) = Some [].
Proof.
  destruct (run_writes_own_ring_only ui_backend
              (mkLoop (make (make [] 2).1 2).1 (mkRing (make [] 2).2 0 0) ∅ [] true)
              [EvSend 1; EvRecv 1 5 5]
              (mkRing (make (make [] 2).1 2).2 0 0))
    as (st' & Hrun & _ & _ & _ & _ & Hs).
  - concrete_ring_inv.
  - concrete_ring_inv.
  - intros (a & Ha & Hb). simpl in Ha, Hb. congruence.
  - exists st'. split; [done|]. rewrite Hs. by vm_compute.
Defined.

(** ** Further properties of the handlers *)

(** X8. Replies are not deduplicated. Whatever [OnRecv] did with the first
    reply of a sequence, the sequence has no pending record afterwards; a
    second reply of it finds none, so it never converts a sample in place:
    it pushes one more sample (OK when within [MaxRTT], else LATE) and
    changes neither the timers nor the map. *)
Theorem OnRecv_duplicate_reply pb st seq rtt1 now1 rtt2 now2 :
  ring_inv (mem st) (ring st) →
  ∃ st1 st2,
    OnRecv pb st seq rtt1 now1 = Some st1 ∧
    pends st1 !! seq = None ∧
    OnRecv pb st1 seq rtt2 now2 = Some st2 ∧
    snapshot (mem st2) (ring st2) =
      Some (lastn (Z.to_nat (len (ring st)))
                  (history st1 ++ [reply_sample pb seq rtt2 now2])) ∧
    timers st2 = timers st1 ∧ pends st2 = pends st1.
Proof.
  intros Hinv.
  destruct (OnRecv_cases pb st seq rtt1 now1 Hinv)
    as (st1 & HR1 & Hinv1 & Hd1 & Hps1 & _).
  assert (pends st1 !! seq = None) as Hnone by (rewrite Hps1; apply lookup_delete_eq).
  destruct (OnRecv_cases pb st1 seq rtt2 now2 Hinv1)
    as (st2 & HR2 & Hinv2 & Hd2 & Hps2 & Hts2 & _ &
        [(_ & (p & Hp & _) & _)|(_ & i & HP)]); [congruence|].
  exists st1, st2. repeat (split; [done|]).
  destruct (Push_history st1 _ _ _ _ Hinv1 HP) as (_ & _ & Hs).
  assert (len (ring st1) = len (ring st)) as Hl by (unfold len; by rewrite Hd1).
  rewrite Hl in Hs. split; [done|]. rewrite Hnone in Hts2. split; [done|].
  rewrite Hps2. by apply delete_id.
Qed.

Lemma OnRecv_duplicate_reply_witness :
  ∃ st1 st2,
    OnRecv ui_backend (OnSend ui_backend (fresh_loop 3) 7) 7 5 5 = Some st1 ∧
    OnRecv ui_backend st1 7 6 6 = Some st2 ∧
    with_seq 7 (history st2)
      = [mkSample 5 (latency_ms 5) 7 SampleOK; mkSample 6 (latency_ms 6) 7 SampleOK].
Proof.
  destruct (OnRecv_duplicate_reply ui_backend (OnSend ui_backend (fresh_loop 3) 7)
              7 5 5 6 6)
    as (st1 & st2 & HR1 & _ & HR2 & _).
  - by apply (fresh_loop_inv 3).
  - exists st1, st2. split; [done|]. split; [done|].
    vm_compute in HR1. injection HR1 as <-.
    vm_compute in HR2. injection HR2 as <-. by vm_compute.
Defined.

(** X9. The on-time branch of [OnRecv] does not look at the record's
    [pushed] flag. A reply whose round-trip time is within [MaxRTT] but
    which is handled after the deadline callback already inserted the LOSS
    is pushed as a new OK sample; the LOSS is not converted, so while the
    push does not evict it the ring holds both, LOSS then OK, for that one
    sequence. *)
Theorem OnRecv_on_time_after_loss pb st seq rtt now p :
  ring_inv (mem st) (ring st) →
  pends st !! seq = Some p → pushed p = true →
  rtt ≤ MaxRTT pb →
  ∃ st',
    OnRecv pb st seq rtt now = Some st' ∧
    snapshot (mem st') (ring st') =
      Some (lastn (Z.to_nat (len (ring st)))
                  (history st ++ [mkSample now (latency_ms rtt) seq SampleOK])) ∧
    pends st' !! seq = None ∧
    ∀ k x,
      history st !! k = Some x → Seq x = seq →
      with_seq seq (history st) = [x] →
      (count (ring st) < len (ring st) ∨ (0 < k)%nat) →
      with_seq seq (history st') = [x; mkSample now (latency_ms rtt) seq SampleOK].
Proof.
  intros Hinv Hp Hpu Hrtt.
  destruct (OnRecv_cases pb st seq rtt now Hinv)
    as (st' & HR & Hinv' & Hd & Hps & _ & _ & [(? & _)|(_ & i & HP)]); [lia|].
  unfold reply_sample in HP. rewrite bool_decide_eq_true_2 in HP by done.
  destruct (Push_history st _ _ _ _ Hinv HP) as (_ & _ & Hs).
  exists st'. repeat (split; [done|]).
  split; [rewrite Hps; apply lookup_delete_eq|].
  intros k x Hk Hx Honly Hroom.
  assert (history st' = lastn (Z.to_nat (len (ring st)))
            (history st ++ [mkSample now (latency_ms rtt) seq SampleOK])) as ->.
  { rewrite snapshot_retained in Hs by done. by injection Hs. }
  pose proof (retained_length _ _ Hinv) as Hlen. fold (history st) in Hlen.
  pose proof Hinv as (_ & Hc & _).
  assert (0 < len (ring st)).
  { apply lookup_lt_Some in Hk. lia. }
  eapply with_seq_push_second; try done; lia.
Qed.

Lemma OnRecv_on_time_after_loss_witness :
  ∃ st',
    OnRecv ui_backend
      (after ui_backend (fresh_loop 3) [EvSend 7; EvFire 0 (300 * Millisecond)])
      7 (299 * Millisecond) (301 * Millisecond) = Some st' ∧
    snapshot (mem st') (ring st')
      = Some [mkSample (300 * Millisecond) (-1)%float 7 SampleLoss;
              mkSample (301 * Millisecond) 299%float 7 SampleOK].
Proof.
  destruct (OnRecv_on_time_after_loss ui_backend
      (after ui_backend (fresh_loop 3) [EvSend 7; EvFire 0 (300 * Millisecond)])
      7 (299 * Millisecond) (301 * Millisecond) (mkPending 0 0 true))
    as (st' & HR & Hs & _).
  - apply after_inv. lia.
  - reflexivity.
  - reflexivity.
  - by vm_compute.
  - exists st'. split; [exact HR|]. rewrite Hs. by vm_compute.
Defined.





(** X11. When the pinger's own run ends, [RunForHost] returns without
    stopping anything: the deadlines that are still armed stay armed, and
    each of them, when it fires afterwards, still pushes a LOSS sample of
    its sequence into the host's ring and marks the record. (Sequence
    numbers sent once each.) *)
Theorem pinger_exit_leaves_deadlines pb m host evs e :
  ring_inv m (buf host) → NoDup (sends evs) →
  ∃ st,
    RunForHost pb m (Some host) None evs (RunReturned e) = Some (Some st, e) ∧
    running st = true ∧
    ∀ t tm now, timers st !! t = Some tm → tstate tm = Armed →
      ∃ st' i,
        step (withDefaults pb) st (EvFire t now) = Some st' ∧
        snapshot (mem st') (ring st') =
          Some (lastn (Z.to_nat (len (buf host)))
                      (history st ++ [loss_sample (tseq tm) now])) ∧
        pends st' !! tseq tm = Some (mkPending t i true).
Proof.
  intros Hinv Hnd.
  destruct (run_total (withDefaults pb) evs (start_loop m host) Hinv)
    as (st & Hrun & Hinv' & Hd).
  assert (tracked st) as Htr.
  { by eapply (run_tracked (withDefaults pb) evs (start_loop m host)). }
  assert (running st = true) as Hrunning.
  { assert (∀ evs st st', run (withDefaults pb) st evs = Some st' →
                          running st' = running st) as Hgen.
    { clear. induction evs as [|ev evs IH]; intros st st'; simpl.
      - by intros [= <-].
      - destruct (step _ st ev) as [st1|] eqn:Est; [|done]. simpl. intros Hr.
        rewrite (IH _ _ Hr). clear Hr IH.
        destruct ev as [s|t now|s rtt now]; simpl in Est.
        + by injection Est as <-.
        + destruct (timers st !! t) as [tm|]; [|by injection Est as <-].
          case_bool_decide; [|by injection Est as <-].
          unfold onDeadline in Est. simpl in Est.
          destruct (pends st !! tseq tm); [|by injection Est as <-].
          destruct (Push _ _ _) as [[[? ?] ?]|]; [|done]. by injection Est as <-.
        + unfold OnRecv in Est.
          repeat (case_bool_decide || case_match).
          all: try (destruct (Push _ _ _) as [[[? ?] ?]|]; simpl in Est;
                    [by injection Est as <- | done]).
          all: destruct (UpdateAt _ _ _ _) as [?|]; simpl in Est;
            [by injection Est as <- | done]. }
    by rewrite (Hgen _ _ _ Hrun). }
  exists st. unfold RunForHost. fold (start_loop m host). rewrite Hrun. simpl.
  split; [done|]. split; [done|].
  intros t tm now Ht Harm.
  destruct (Htr t tm Ht Harm) as (p & Hp & Htp).
  simpl. rewrite Ht. rewrite bool_decide_eq_true_2 by done.
  match goal with |- ∃ _ _, onDeadline ?s1 _ _ = _ ∧ _ => set (sf := s1) end.
  destruct (onDeadline_cases sf (tseq tm) now Hinv')
    as (st' & HD & _ & _ & _ & _ & [(Hno & _)|(p' & i & Hp' & HP & Hps)]).
  { simpl in Hno. congruence. }
  simpl in Hp', HP, Hps. rewrite Hp in Hp'. injection Hp' as <-.
  exists st', i. split; [done|]. split.
  - destruct (Push_history st _ _ _ _ Hinv' HP) as (_ & _ & Hs).
    rewrite Hs. unfold len. by rewrite Hd.
  - rewrite Hps, lookup_insert_eq. by rewrite Htp.
Qed.

Lemma pinger_exit_leaves_deadlines_witness :
  ∃ st st',
    RunForHost ui_backend (make [] 3).1
      (Some (mkHost "gw" "10.0.0.1" 0 HostStopped (mkRing (make [] 3).2 0 0)))
      None [EvSend 1] (RunReturned (Some (PingerError "network is unreachable")))
      = Some (Some st, Some (PingerError "network is unreachable")) ∧
    step ui_backend st (EvFire 0 (300 * Millisecond)) = Some st' ∧
    snapshot (mem st') (ring st')
      = Some [mkSample (300 * Millisecond) (-1)%float 1 SampleLoss].
Proof.
  destruct (pinger_exit_leaves_deadlines ui_backend (make [] 3).1
              (mkHost "gw" "10.0.0.1" 0 HostStopped (mkRing (make [] 3).2 0 0))
              [EvSend 1] (Some (PingerError "network is unreachable")))
    as (st & HR & _ & Hfire).
  - by apply (fresh_loop_inv 3).
  - apply (bool_decide_unpack _). by vm_compute.
  - vm_compute in HR. injection HR as <-.
    destruct (Hfire 0%nat (mkTimer 1 (300 * Millisecond) Armed) (300 * Millisecond))
      as (st' & i & Hst & Hs & _); [done|done|].
    eexists _, st'. split; [by vm_compute|]. split.
    + rewrite <- Hst. by vm_compute.
    + rewrite Hs. by vm_compute.
Defined.

Lemma grace_reply_within_capacity_witness :
  ∃ st1 st2 st3,
    step ui_backend (OnSend ui_backend (fresh_loop 3) 7)
         (EvFire 0 (300 * Millisecond)) = Some st1 ∧
    run ui_backend st1 [EvSend 8; EvRecv 8 (5 * Millisecond) (305 * Millisecond)]
      = Some st2 ∧
    OnRecv ui_backend st2 7 (350 * Millisecond) (350 * Millisecond) = Some st3 ∧
    with_seq 7 (history st3)
      = [mkSample (350 * Millisecond) (latency_ms (350 * Millisecond)) 7 SampleLate].
Proof.
  destruct (grace_reply_within_capacity ui_backend
              (OnSend ui_backend (fresh_loop 3) 7) 0
              (mkTimer 7 (300 * Millisecond) Armed) (300 * Millisecond)
              (mkPending 0 (-1) false)
              [EvSend 8; EvRecv 8 (5 * Millisecond) (305 * Millisecond)]
              (350 * Millisecond) (350 * Millisecond))
    as (st1 & st2 & st3 & H1 & H2 & H3 & H4 & _).
  - by apply (fresh_loop_inv 3).
  - reflexivity.
  - reflexivity.
  - reflexivity.
  - intros [|t'] tm'; [done|]. simpl. by rewrite lookup_nil.
  - by vm_compute.
  - repeat constructor; simpl; lia.
  - by vm_compute.
  - by vm_compute.
  - by vm_compute.
  - by vm_compute.
  - by exists st1, st2, st3.
Defined.

(** X12. The backend [StartPinging] builds from a slider value [v > 0] (the
    slider ranges over 100..1000) is complete: the interval is [v] ms, the
    MaxRTT is max(2 x interval, 300 ms), which is longer than the interval,
    and the grace window is 100 ms. None of these is zero, so the defaults
    of [RunForHost] change nothing (its fallback MaxRTT of max(3 x interval,
    150 ms) is never used for a loop the UI starts), MaxRTT + GraceLate fits
    a 64-bit duration, and every deadline such a loop arms waits
    max(2 x interval, 300 ms). *)
Theorem StartPinging_backend_complete v :
  0 < v → int64 (2 * v * Millisecond + 100 * Millisecond) →
  withDefaults (StartPinging_backend v) = StartPinging_backend v ∧
  Interval (StartPinging_backend v) = v * Millisecond ∧
  MaxRTT (StartPinging_backend v)
    = Z.max (2 * (v * Millisecond)) (300 * Millisecond) ∧
  GraceLate (StartPinging_backend v) = 100 * Millisecond ∧
  Interval (StartPinging_backend v) < MaxRTT (StartPinging_backend v) ∧
  int64 (MaxRTT (StartPinging_backend v) + GraceLate (StartPinging_backend v)) ∧
  ∀ m host evs fin st e,
    RunForHost (StartPinging_backend v) m (Some host) None evs fin
      = Some (Some st, e) →
    ∀ t tm, timers st !! t = Some tm →
            tafter tm = Z.max (2 * (v * Millisecond)) (300 * Millisecond).
Proof.
  intros Hv Hfit. unfold int64, max_int64, Millisecond in Hfit.
  assert (Interval (StartPinging_backend v) = v * Millisecond) as Hi.
  { unfold StartPinging_backend. simpl. apply wrap64_id.
    unfold int64, max_int64, Millisecond. lia. }
  assert (MaxRTT (StartPinging_backend v)
          = Z.max (2 * (v * Millisecond)) (300 * Millisecond)) as Hm.
  { unfold StartPinging_backend. simpl.
    rewrite (wrap64_id (2 * v)) by (unfold int64, max_int64; lia).
    rewrite wrap64_id by (unfold int64, max_int64, Millisecond; lia).
    unfold maxDur. case_bool_decide; lia. }
  assert (GraceLate (StartPinging_backend v) = 100 * Millisecond) as Hg by done.
  assert (withDefaults (StartPinging_backend v) = StartPinging_backend v) as Hd.
  { assert (0 < Interval (StartPinging_backend v)) by (rewrite Hi; unfold Millisecond; lia).
    assert (0 < MaxRTT (StartPinging_backend v)) by (rewrite Hm; unfold Millisecond; lia).
    assert (0 < GraceLate (StartPinging_backend v)) by (rewrite Hg; unfold Millisecond; lia).
    unfold withDefaults. rewrite !bool_decide_eq_false_2 by lia.
    by destruct (StartPinging_backend v). }
  split; [done|]. split; [done|]. split; [done|]. split; [done|].
  split; [rewrite Hi, Hm; unfold Millisecond; lia|].
  split; [rewrite Hg, Hm; unfold int64, max_int64, Millisecond; lia|].
  intros m host evs fin st e. unfold RunForHost. rewrite Hd.
  destruct (run _ _ evs) as [st1|] eqn:Er; [|done]. simpl.
  assert (Forall (λ tm, tafter tm = MaxRTT (StartPinging_backend v)) (timers st1))
    as Hall.
  { eapply run_keeps_after; [|exact Er]. simpl. constructor. }
  rewrite <- Hm.
  destruct fin as [c|e']; intros [= <- <-]; intros t tm Ht.
  - assert (Forall (λ tm, tafter tm = MaxRTT (StartPinging_backend v))
              (timers (onCancel st1))) as Hc.
    { unfold onCancel. simpl.
      apply (map_fold_weak_ind
               (λ ts _, Forall (λ tm, tafter tm = MaxRTT (StartPinging_backend v)) ts));
        [done|].
      intros k p mp ts _ Hts. by apply stopTimer_keeps_after. }
    exact (Forall_lookup_1 _ _ _ _ Hc Ht).
  - exact (Forall_lookup_1 _ _ _ _ Hall Ht).
Qed.

Lemma StartPinging_backend_complete_witness :
  withDefaults (StartPinging_backend 100) = StartPinging_backend 100 ∧
  MaxRTT (StartPinging_backend 100) = 300 * Millisecond ∧
  MaxRTT (StartPinging_backend 1000) = 2 * Second.
Proof.
  split; [|split].
  - apply (StartPinging_backend_complete 100); [lia|by vm_compute].
  - by vm_compute.
  - by vm_compute.
Defined.

Lemma retained_empty h r : count r = 0 → retained h r = [].
Proof. intros Hc. unfold retained. by rewrite Hc. Qed.

Lemma lastn_Forall {A} (P : A → Prop) n l : Forall P l → Forall P (lastn n l).
Proof. unfold lastn. apply Forall_drop. Qed.

Lemma step_loss_ok pb st ev st' :
  ring_inv (mem st) (ring st) → Forall loss_ok (history st) →
  step pb st ev = Some st' → Forall loss_ok (history st').
Proof.
  intros Hinv Hall Hst. destruct ev as [s|t now|s rtt now]; simpl in Hst.
  - by injection Hst as <-.
  - destruct (timers st !! t) as [tm|]; [|by injection Hst as <-].
    case_bool_decide; [|by injection Hst as <-].
    match type of Hst with onDeadline ?s1 _ _ = _ => set (sf := s1) in * end.
    destruct (onDeadline_cases sf (tseq tm) now Hinv)
      as (st1 & HD & _ & _ & _ & _ & [(_ & Heq)|(p & i & _ & HP & _)]);
      rewrite Hst in HD; injection HD as <-.
    { by rewrite Heq. }
    unfold history. rewrite (Push_retained _ _ _ _ _ _ Hinv HP).
    apply lastn_Forall, Forall_app. split; [done|]. by repeat constructor.
  - destruct (OnRecv_cases pb st s rtt now Hinv)
      as (st1 & HR & _ & _ & _ & _ & _ & [(_ & _ & Hr & p & _ & HU)|(_ & i & HP)]);
      rewrite Hst in HR; injection HR as <-.
    + unfold history. rewrite Hr.
      destruct (UpdateAt_retained (mem st) (ring st) (idx p) (toLate rtt now) Hinv)
        as (h' & HU' & _ & _ & _ & [(_ & Heq)|(x & _ & _ & _ & Hret)]);
        rewrite HU in HU'; injection HU' as <-.
      { by rewrite Heq. }
      rewrite Hret. apply Forall_insert; [done|]. by intros [=].
    + unfold history. rewrite (Push_retained _ _ _ _ _ _ Hinv HP).
      apply lastn_Forall, Forall_app. split; [done|].
      repeat constructor. unfold loss_ok, reply_sample. simpl.
      by case_bool_decide.
Qed.

(** X13. The comment on [Sample.MS], "negative for loss/timeouts", holds of
    everything the probe loop writes: after any run started on an empty
    ring, every sample a snapshot shows in state LOSS has latency -1, which
    tests as negative. Neither wraparound nor the in-place conversion to
    LATE leaves a LOSS with another latency. *)
Theorem loss_samples_are_negative pb m host evs :
  ring_inv m (buf host) → count (buf host) = 0 →
  ∃ st,
    run pb (start_loop m host) evs = Some st ∧
    snapshot (mem st) (ring st) = Some (history st) ∧
    ∀ s, s ∈ history st → State s = SampleLoss →
         MS s = (-1)%float ∧ PrimFloat.ltb (MS s) 0 = true.
Proof.
  intros Hinv Hc.
  assert (∀ evs st,
            ring_inv (mem st) (ring st) → Forall loss_ok (history st) →
            ∃ st', run pb st evs = Some st' ∧ ring_inv (mem st') (ring st') ∧
                   Forall loss_ok (history st')) as Hgen.
  { clear. induction evs as [|ev evs IH]; intros st Hinv Hall; simpl.
    - by exists st.
    - destruct (step_spec pb st ev Hinv) as (st1 & zs & Est & Hinv1 & _).
      rewrite Est. simpl. apply IH; [done|].
      by apply (step_loss_ok pb st ev st1). }
  destruct (Hgen evs (start_loop m host)) as (st & Hrun & Hinv' & Hall).
  - done.
  - unfold history. cbn [start_loop mem ring]. by rewrite retained_empty.
  - exists st. split; [done|]. split; [by apply snapshot_retained|].
    intros s Hs Hloss. rewrite Forall_forall in Hall.
    rewrite (Hall s Hs Hloss). by split.
Qed.

Lemma loss_samples_are_negative_witness :
  ∃ st,
    run ui_backend
        (start_loop (make [] 3).1
           (mkHost "gw" "10.0.0.1" 0 HostStopped (mkRing (make [] 3).2 0 0)))
        [EvSend 1; EvFire 0 (300 * Millisecond)] = Some st ∧
    snapshot (mem st) (ring st)
      = Some [mkSample (300 * Millisecond) (-1)%float 1 SampleLoss].
Proof.
  destruct (loss_samples_are_negative ui_backend (make [] 3).1
              (mkHost "gw" "10.0.0.1" 0 HostStopped (mkRing (make [] 3).2 0 0))
              [EvSend 1; EvFire 0 (300 * Millisecond)])
    as (st & Hrun & Hs & _).
  - by apply (fresh_loop_inv 3).
  - done.
  - exists st. split; [done|]. rewrite Hs.
    vm_compute in Hrun. injection Hrun as <-. by vm_compute.
Defined.

(** ** The registry with its configuration *)

Lemma NewRing_ext h c h' r :
  NewRing h c = Some (h', r) →
  length h' = S (length h) ∧ ∀ a l, h !! a = Some l → h' !! a = Some l.
Proof.
  unfold NewRing, make. case_bool_decide; [done|]. intros [= <- <-].
  split; [rewrite length_app; simpl; lia|].
  intros a l Hl. by apply lookup_app_l_Some.
Qed.

Lemma AddHostWithCap_AddHost m n a c :
  AddHostWithCap m n a c
  = AddHost m n a (if bool_decide (c ≤ 0) then DefaultRingCap else c).
Proof. done. Qed.

Lemma AddHost_rings m n a c m' p :
  rings_inv m → AddHost m n a c = Some (m', p) →
  rings_inv m' ∧ pingIntervalMs m' = pingIntervalMs m.
Proof.
  intros (Hlen & Hobj). unfold AddHost.
  destruct (NewRing (arrays m) c) as [[h' r]|] eqn:EN; [|done]. simpl.
  intros [= <- <-]. split; [|done].
  destruct (NewRing_ext _ _ _ _ EN) as (Hl' & Hext).
  destruct (NewRing_spec _ _ _ _ EN) as (_ & Hinv & _ & Hc0 & _ & Harr & _).
  split; simpl.
  - rewrite length_app. simpl. lia.
  - intros q h Hq. apply lookup_app_Some in Hq as [Hq|[Hge Hq]].
    + destruct (Hobj q h Hq) as (Hi & Ha & Hc). split; [|done].
      eapply ring_inv_mono; [|done]. intros a0 l Hl. exists l. by auto.
    + apply list_lookup_singleton_Some in Hq as [Hq0 <-]. simpl.
      split; [done|]. split; [|done]. rewrite Harr. f_equal. lia.
Qed.

Lemma renumber_buf hs : ∀ objs i p h',
  renumber objs hs i !! p = Some h' →
  ∃ h, objs !! p = Some h ∧ buf h' = buf h.
Proof.
  induction hs as [|q hs IH]; intros objs i p h'; simpl.
  - by eauto.
  - intros Hp. destruct (IH _ _ _ _ Hp) as (h1 & Hh1 & Hb).
    destruct (decide (q = p)) as [->|Hne].
    + rewrite list_lookup_alter_eq in Hh1.
      destruct (objs !! p) as [h|]; [|done]. simpl in Hh1. injection Hh1 as <-.
      by exists h.
    + rewrite list_lookup_alter_ne in Hh1 by done. by exists h1.
Qed.

Lemma renumber_length hs : ∀ objs i, length (renumber objs hs i) = length objs.
Proof.
  induction hs as [|q hs IH]; intros objs i; simpl; [done|].
  by rewrite IH, length_alter.
Qed.

Lemma apply_op_rings m o m' :
  rings_inv m → apply_op m o = Some m' →
  rings_inv m' ∧ pingIntervalMs m' = pingIntervalMs m.
Proof.
  intros Hr. destruct o as [n a c|n a c|i|]; simpl.
  - destruct (AddHost m n a c) as [[m1 p]|] eqn:E; [|done]. intros [= <-].
    by eapply AddHost_rings.
  - rewrite AddHostWithCap_AddHost.
    destruct (AddHost m n a _) as [[m1 p]|] eqn:E; [|done]. intros [= <-].
    by eapply AddHost_rings.
  - intros [= <-]. unfold RemoveHostAt. case_bool_decide; [done|]. simpl.
    split; [|done]. destruct Hr as (Hlen & Hobj). split; simpl.
    + by rewrite renumber_length.
    + intros p h' Hp. destruct (renumber_buf _ _ _ _ _ Hp) as (h & Hh & ->).
      by apply Hobj.
  - by intros [= <-].
Qed.

Lemma AddHost_inv m n a c m' p :
  reg_inv m → rings_inv m → AddHost m n a c = Some (m', p) →
  reg_inv m' ∧ rings_inv m' ∧ pingIntervalMs m' = pingIntervalMs m.
Proof.
  intros Hreg Hr HA.
  destruct (AddHost_rings _ _ _ _ _ _ Hr HA) as (? & ?).
  destruct (AddHost_reg_inv m n a c m' p Hreg) as (? & _); [|done|done].
  intros q Hq. by apply reg_inv_lt.
Qed.

Lemma load_hosts_cons m hc hs :
  load_hosts m (hc :: hs)
  = if Cfg.Enabled hc
    then '(m1, _) ← AddHost m (Cfg.Name hc) (Cfg.Addr hc) DefaultRingCap;
         load_hosts m1 hs
    else load_hosts m hs.
Proof. done. Qed.

Lemma load_hosts_inv hs : ∀ m m',
  reg_inv m → rings_inv m → load_hosts m hs = Some m' →
  reg_inv m' ∧ rings_inv m' ∧ pingIntervalMs m' = pingIntervalMs m.
Proof.
  induction hs as [|hc hs IH]; intros m m' Hreg Hr.
  - by intros [= <-].
  - rewrite load_hosts_cons. destruct (Cfg.Enabled hc); [|by apply IH].
    destruct (AddHost m (Cfg.Name hc) (Cfg.Addr hc) DefaultRingCap)
      as [[m1 p]|] eqn:EA; [|done]. simpl. intros Hl.
    destruct (AddHost_inv _ _ _ _ _ _ Hreg Hr EA) as (Hreg1 & Hr1 & Hi1).
    destruct (IH m1 m' Hreg1 Hr1 Hl) as (? & ? & ?).
    split; [done|]. split; [done|]. congruence.
Qed.

Lemma host_configs_spec objs ps : ∀ out,
  (∀ q, q ∈ ps → is_Some (objs !! q)) →
  host_configs objs ps out
  = Some (out ++ (host_entry <$> omap (λ p, objs !! p) ps)).
Proof.
  induction ps as [|p ps IH]; intros out Hv; simpl.
  - by rewrite app_nil_r.
  - destruct (Hv p) as [h Hh]; [by left|]. rewrite Hh. simpl.
    rewrite IH by (intros q Hq; apply Hv; by right).
    by rewrite <- app_assoc.
Qed.

Lemma listed_length m :
  reg_inv m → length (listed m) = length (hosts m) ∧
  ∀ i, host_at m i = listed m !! i.
Proof.
  intros (_ & Hv). unfold listed, host_at.
  assert (∀ q, q ∈ hosts m → is_Some (objects m !! q)) as Hq.
  { intros q (i & Hi)%list_elem_of_lookup. destruct (Hv i q Hi) as (h & -> & _). done. }
  clear Hv. induction (hosts m) as [|p ps IH]; simpl; [by split|].
  destruct (Hq p) as [h Hh]; [by left|]. rewrite Hh. simpl.
  destruct IH as (IH1 & IH2); [intros q ?; apply Hq; by right|].
  split; [f_equal; exact IH1|]. intros [|i]; simpl; [done|]. apply IH2.
Qed.

Lemma apply_app_op_inv a o a' : app_inv a → apply_app_op a o = Some a' → app_inv a'.
Proof.
  intros (Hreg & Hr & Hpos & Hcfg).
  destruct o as [o|v|conf|p conf|c|w]; simpl.
  - destruct (apply_op (model a) o) as [m|] eqn:Eo; [|done]. simpl. intros [= <-].
    destruct (apply_op_rings _ _ _ Hr Eo) as (? & Hi).
    split; [by eapply apply_op_reg_inv|]. split; [done|]. simpl.
    split; [by rewrite Hi|done].
  - intros [= <-]. split; [done|]. split; [done|]. simpl.
    split; [case_bool_decide; lia|done].
  - intros [= <-]. split; [done|]. split; [done|]. split; [done|]. simpl.
    intros q Hq. rewrite length_app. specialize (Hcfg q Hq). lia.
  - case_bool_decide; [|done]. intros [= <-].
    split; [done|]. split; [done|]. split; [done|]. simpl.
    intros q Hq. rewrite length_insert. by apply Hcfg.
  - unfold LoadFromConfig.
    destruct (match c with
              | Some p => (configs a, p)
              | None => (configs a ++ [defaultConfig], length (configs a))
              end) as [store p] eqn:Ec.
    destruct (store !! p) as [conf|] eqn:Ep; [|done]. simpl.
    destruct (load_hosts _ _) as [m'|] eqn:El; [|done]. simpl. intros [= <-].
    apply load_hosts_inv in El as (Hreg' & Hr' & Hi').
    + split; [done|]. split; [done|]. simpl. split.
      * rewrite Hi'. simpl. case_bool_decide; [|done]. simpl.
        case_bool_decide; lia.
      * intros q [= <-]. by eapply lookup_lt_Some.
    + split; simpl; [apply NoDup_nil_2|]. intros i q Hq. by rewrite lookup_nil in Hq.
    + by case_bool_decide.
  - unfold SnapshotConfig.
    destruct (match cfg a with
              | Some p => (configs a, p)
              | None => (configs a ++ [defaultConfig], length (configs a))
              end) as [store p] eqn:Ec.
    destruct (host_configs _ _ _) as [hs|]; [|done]. simpl.
    destruct (store !! p) as [conf|] eqn:Ep; [|done]. simpl. intros [= <-].
    split; [done|]. split; [done|]. split; [done|]. simpl.
    intros q [= <-]. rewrite length_insert. by eapply lookup_lt_Some.
Qed.

Lemma apply_app_ops_inv os : ∀ a a',
  app_inv a → apply_app_ops a os = Some a' → app_inv a'.
Proof.
  induction os as [|o os IH]; intros a a' Hinv; simpl.
  - by intros [= <-].
  - destruct (apply_app_op a o) as [a1|] eqn:E; [|done]. simpl.
    apply IH. by eapply apply_app_op_inv.
Qed.

Lemma NewApp_inv : app_inv NewApp.
Proof.
  split; [|split; [|split]]; simpl.
  - split; simpl; [apply NoDup_nil_2|]. intros i p Hp. by destruct i.
  - split; [done|]. intros p h Hp. by destruct p.
  - lia.
  - done.
Qed.

Lemma reachable_inv os a : apply_app_ops NewApp os = Some a → app_inv a.
Proof. apply apply_app_ops_inv, NewApp_inv. Qed.

Lemma listed_seq (l k : list Host) :
  omap (λ p, (l ++ k) !! p) (seq (length l) (length k)) = k.
Proof.
  revert l. induction k as [|x k IH]; intros l; [done|].
  cbn [length seq]. cbn [omap list_omap].
  rewrite list_lookup_middle by done. f_equal.
  specialize (IH (l ++ [x])). rewrite length_app in IH. cbn [length] in IH.
  replace (length l + 1)%nat with (S (length l)) in IH by lia.
  rewrite <- app_assoc in IH. exact IH.
Qed.

(** What the loop of [LoadFromConfig] adds: one new host object per enabled
    entry, in order, listed after the hosts already there. *)
Lemma load_hosts_spec hs : ∀ m,
  ∃ m' news,
    load_hosts m hs = Some m' ∧
    objects m' = objects m ++ news ∧
    hosts m' = hosts m ++ seq (length (objects m)) (length news) ∧
    pingIntervalMs m' = pingIntervalMs m ∧
    (∀ a l, arrays m !! a = Some l → arrays m' !! a = Some l) ∧
    Forall2 (λ hc h, Name h = Cfg.Name hc ∧ Addr h = Cfg.Addr hc ∧
                     RunState h = HostStopped ∧ len (buf h) = DefaultRingCap ∧
                     count (buf h) = 0 ∧ ring_inv (arrays m') (buf h))
            (filter (λ hc, Cfg.Enabled hc = true) hs) news ∧
    ∀ i h, news !! i = Some h → ColorI h = Z.of_nat (length (hosts m) + i).
Proof.
  induction hs as [|hc hs IH]; intros m.
  - exists m, []. simpl. rewrite !app_nil_r. repeat (split; [done|]).
    intros i h Hi. by destruct i.
  - rewrite load_hosts_cons. destruct (Cfg.Enabled hc) eqn:Een.
    + rewrite filter_cons_True by done.
      destruct (NewRing (arrays m) DefaultRingCap) as [[h1 r]|] eqn:EN;
        [|by rewrite NewRing_Some in EN].
      assert (AddHost m (Cfg.Name hc) (Cfg.Addr hc) DefaultRingCap
              = Some (mkAppModel h1
                        (objects m ++ [mkHost (Cfg.Name hc) (Cfg.Addr hc)
                                         (Z.of_nat (length (hosts m))) HostStopped r])
                        (hosts m ++ [length (objects m)]) (pingIntervalMs m),
                      length (objects m))) as ->.
      { unfold AddHost. by rewrite EN. }
      cbn [mbind option_bind].
      destruct (NewRing_ext _ _ _ _ EN) as (_ & Hext).
      destruct (NewRing_spec _ _ _ _ EN) as (_ & Hinv & Hlen & Hc0 & _).
      match goal with |- ∃ _ _, load_hosts ?m1 _ = _ ∧ _ =>
        destruct (IH m1) as (m' & news & -> & Hobj & Hhs & Hint & Hext' & Hall & Hcol)
      end.
      cbn [arrays objects hosts pingIntervalMs] in *.
      eexists m', (_ :: news). split; [done|].
      split; [by rewrite Hobj, <- app_assoc|]. split.
      { rewrite Hhs, <- app_assoc, length_app. cbn [length seq app].
        by replace (length (objects m) + 1)%nat with (S (length (objects m))) by lia. }
      split; [done|]. split; [by auto|]. split.
      * constructor; [|done]. cbn [Name Addr RunState buf].
        repeat (split; [done|]).
        eapply ring_inv_mono; [|done]. intros a l Hl. exists l. by auto.
      * intros [|i] h Hi.
        { injection Hi as <-. cbn [ColorI]. f_equal. lia. }
        cbn in Hi. rewrite (Hcol i h Hi), length_app. cbn [length]. f_equal. lia.
    + rewrite filter_cons_False by (by rewrite Een). apply IH.
Qed.

(** X14. Whatever the callers do to an [AppModel] - adding, removing and
    clearing hosts, moving the interval slider, loading a configuration
    (nil included), snapshotting it, writing to configuration objects - the
    ping interval stays positive, every listed host carries its list
    position as color index, and once a configuration has been loaded or
    snapshotted [Config()] is a valid, non-nil pointer. *)
Theorem app_model_invariants ops a :
  apply_app_ops NewApp ops = Some a →
  0 < PingIntervalMs (model a) ∧
  (∀ i, (i < length (hosts (model a)))%nat →
        ∃ h, host_at (model a) i = Some h ∧ ColorI h = Z.of_nat i) ∧
  (∀ p, Config a = Some p → is_Some (configs a !! p)) ∧
  (∀ c, (∀ p, c = Some p → is_Some (configs a !! p)) →
           ∃ a' p, LoadFromConfig a c = Some a' ∧ Config a' = Some p ∧
                   is_Some (configs a' !! p)) ∧
  (∀ w, ∃ a' p, SnapshotConfig a w = Some (a', p) ∧ Config a' = Some p ∧
                is_Some (configs a' !! p)).
Proof.
  intros Hre. pose proof (reachable_inv _ _ Hre) as Hinv.
  destruct Hinv as (Hreg & Hr & Hpos & Hcfg).
  split; [done|]. split.
  { intros i Hi. destruct (lookup_lt_is_Some_2 _ _ Hi) as [p Hp].
    destruct Hreg as (_ & Hv). destruct (Hv i p Hp) as (h & Hh & Hc).
    exists h. unfold host_at. rewrite Hp. done. }
  split.
  { intros p Hp. apply lookup_lt_is_Some_2. by apply Hcfg. }
  split.
  - intros c Hc.
    assert (∃ store p conf,
              match c with
              | Some p => (configs a, p)
              | None => (configs a ++ [defaultConfig], length (configs a))
              end = (store, p) ∧ store !! p = Some conf) as (store & p & conf & Ec & Ep).
    { destruct c as [p|].
      - destruct (Hc p eq_refl) as [conf Hconf]. by exists (configs a), p, conf.
      - eexists _, _, defaultConfig. split; [done|]. by apply list_lookup_middle. }
    unfold LoadFromConfig. rewrite Ec, Ep. cbn [mbind option_bind].
    match goal with |- ∃ _ _, (load_hosts ?m0 ?hs ≫= _) = _ ∧ _ =>
      destruct (load_hosts_spec hs m0) as (m' & news & -> & _)
    end.
    cbn [mbind option_bind]. eexists _, p. split; [done|]. split; [done|].
    simpl. by rewrite Ep.
  - intros w. unfold SnapshotConfig.
    assert (∃ store p conf,
              match cfg a with
              | Some p => (configs a, p)
              | None => (configs a ++ [defaultConfig], length (configs a))
              end = (store, p) ∧ store !! p = Some conf) as (store & p & conf & Ec & Ep).
    { destruct (cfg a) as [p|] eqn:Ecfg.
      - destruct (lookup_lt_is_Some_2 (configs a) p) as [conf Hconf]; [by apply Hcfg|].
        by exists (configs a), p, conf.
      - eexists _, _, defaultConfig. split; [done|]. by apply list_lookup_middle. }
    rewrite Ec. rewrite host_configs_spec.
    2:{ intros q (i & Hi)%list_elem_of_lookup. destruct Hreg as (_ & Hv).
        destruct (Hv i q Hi) as (h & -> & _). done. }
    cbn [mbind option_bind]. rewrite Ep. cbn [mbind option_bind].
    eexists _, p. split; [done|]. split; [done|]. simpl.
    apply lookup_lt_is_Some_2. rewrite length_insert. by eapply lookup_lt_Some.
Qed.

Lemma app_model_invariants_witness :
  0 < PingIntervalMs
        (model (default NewApp
                  (apply_app_ops NewApp
                     [OpLoad None; OpSetInterval (-5);
                      OpReg (OpAdd "gw" "10.0.0.1" 3)]))).
Proof.
  apply (app_model_invariants
           [OpLoad None; OpSetInterval (-5); OpReg (OpAdd "gw" "10.0.0.1" 3)]).
  by vm_compute.
Defined.

Lemma load_objects a v :
  objects (ClearHosts (if bool_decide (v > 0)
                       then SetPingIntervalMs (model a) v else model a))
  = objects (model a).
Proof. by case_bool_decide. Qed.

(** What [LoadFromConfig] makes of the configuration at [p]: the new host
    objects [news], one per enabled entry, are the whole list. *)
Lemma LoadFromConfig_ok a p conf :
  configs a !! p = Some conf →
  ∃ m' news,
    LoadFromConfig a (Some p) = Some (mkApp m' (configs a) (Some p)) ∧
    objects m' = objects (model a) ++ news ∧
    hosts m' = seq (length (objects (model a))) (length news) ∧
    listed m' = news ∧
    (∀ i, host_at m' i = news !! i) ∧
    pingIntervalMs m'
      = (if bool_decide (0 < Cfg.IntervalMs (Cfg.Ping conf))
         then Cfg.IntervalMs (Cfg.Ping conf) else pingIntervalMs (model a)) ∧
    Forall2 (λ hc h, Name h = Cfg.Name hc ∧ Addr h = Cfg.Addr hc ∧
                     RunState h = HostStopped ∧ len (buf h) = DefaultRingCap ∧
                     count (buf h) = 0 ∧ ring_inv (arrays m') (buf h))
            (enabled_hosts conf) news ∧
    ∀ i h, news !! i = Some h → ColorI h = Z.of_nat i.
Proof.
  intros Hp. unfold LoadFromConfig. rewrite Hp. cbn [mbind option_bind].
  match goal with |- ∃ _ _, (load_hosts ?m0 ?hs ≫= _) = _ ∧ _ =>
    destruct (load_hosts_spec hs m0)
      as (m' & news & -> & Hobj & Hhs & Hint & _ & Hall & Hcol)
  end.
  rewrite load_objects in Hobj, Hhs. cbn [hosts ClearHosts app] in Hhs, Hcol.
  cbn [mbind option_bind]. exists m', news. split; [done|].
  split; [done|]. split; [done|].
  assert (listed m' = news) as Hlisted.
  { unfold listed. rewrite Hhs, Hobj. apply listed_seq. }
  split; [done|]. split.
  { intros i. unfold host_at. rewrite Hhs.
    destruct (decide (i < length news)%nat) as [Hlt|Hge].
    - rewrite lookup_seq_lt by done. cbn [mbind option_bind].
      rewrite Hobj, lookup_app_r by lia. f_equal. lia.
    - rewrite lookup_seq_ge by lia. cbn [mbind option_bind].
      symmetry. apply lookup_ge_None_2. lia. }
  split.
  { rewrite Hint. cbn [ClearHosts pingIntervalMs].
    destruct (decide (0 < Cfg.IntervalMs (Cfg.Ping conf))) as [H1|H1].
    - rewrite !bool_decide_eq_true_2 by lia.
      cbn [SetPingIntervalMs pingIntervalMs]. by rewrite bool_decide_eq_false_2 by lia.
    - by rewrite !bool_decide_eq_false_2 by lia. }
  split; [done|]. intros i h Hi. by rewrite (Hcol i h Hi).
Qed.

(** X15. [LoadFromConfig] replaces the host list by the enabled entries of
    the configuration, in their order: entry [i] of the enabled ones becomes
    the host at position [i], a new host object with that name and address,
    color index [i], state stopped and an empty ring of the default capacity
    of 600. Disabled entries create nothing, no host object from before the
    call remains listed, and [m.cfg] is the pointer passed. *)
Theorem LoadFromConfig_hosts a p conf :
  configs a !! p = Some conf →
  ∃ a',
    LoadFromConfig a (Some p) = Some a' ∧
    Config a' = Some p ∧ configs a' = configs a ∧
    Count (model a') = Z.of_nat (length (enabled_hosts conf)) ∧
    (∀ q, q ∈ hosts (model a') → (length (objects (model a)) ≤ q)%nat) ∧
    ∀ i hc, enabled_hosts conf !! i = Some hc →
      ∃ h, host_at (model a') i = Some h ∧
           Name h = Cfg.Name hc ∧ Addr h = Cfg.Addr hc ∧
           ColorI h = Z.of_nat i ∧ RunState h = HostStopped ∧
           len (buf h) = DefaultRingCap ∧
           snapshot (arrays (model a')) (buf h) = Some [].
Proof.
  intros Hp.
  destruct (LoadFromConfig_ok a p conf Hp)
    as (m' & news & HL & Hobj & Hhs & _ & Hat & _ & Hall & Hcol).
  eexists. split; [exact HL|]. cbn [model configs cfg Config].
  split; [done|]. split; [done|].
  pose proof (Forall2_length _ _ _ Hall) as Hlen.
  split; [unfold Count; by rewrite Hhs, length_seq, Hlen|]. split.
  { intros q Hq. rewrite Hhs in Hq. apply elem_of_seq in Hq. lia. }
  intros i hc Hi.
  destruct (Forall2_lookup_l _ _ _ _ _ Hall Hi)
    as (h & Hh & Hn & Ha & Hs & Hl & Hc & Hinv).
  exists h. split; [by rewrite Hat|].
  repeat (split; [done|]). split; [by apply Hcol|].
  repeat (split; [done|]).
  rewrite snapshot_retained by done. by rewrite retained_empty.
Qed.

Lemma LoadFromConfig_hosts_witness :
  ∃ a',
    LoadFromConfig
      (mkApp NewAppModel
         [Cfg.mkAppConfig
            (Cfg.mkPingConfig 200
               [Cfg.mkHostConfig "gw" "10.0.0.1" true;
                Cfg.mkHostConfig "old" "10.0.0.9" false;
                Cfg.mkHostConfig "dns" "9.9.9.9" true])
            (Cfg.Speed defaultConfig) (Cfg.Trace defaultConfig)
            (Cfg.Window defaultConfig)] None) (Some 0%nat) = Some a' ∧
    Count (model a') = 2.
Proof.
  destruct (LoadFromConfig_hosts
      (mkApp NewAppModel
         [Cfg.mkAppConfig
            (Cfg.mkPingConfig 200
               [Cfg.mkHostConfig "gw" "10.0.0.1" true;
                Cfg.mkHostConfig "old" "10.0.0.9" false;
                Cfg.mkHostConfig "dns" "9.9.9.9" true])
            (Cfg.Speed defaultConfig) (Cfg.Trace defaultConfig)
            (Cfg.Window defaultConfig)] None) 0%nat
      (Cfg.mkAppConfig
            (Cfg.mkPingConfig 200
               [Cfg.mkHostConfig "gw" "10.0.0.1" true;
                Cfg.mkHostConfig "old" "10.0.0.9" false;
                Cfg.mkHostConfig "dns" "9.9.9.9" true])
            (Cfg.Speed defaultConfig) (Cfg.Trace defaultConfig)
            (Cfg.Window defaultConfig)))
    as (a' & HL & _ & _ & Hc & _).
  - reflexivity.
  - exists a'. split; [exact HL|]. rewrite Hc. by vm_compute.
Defined.

(** X16. [LoadFromConfig] never leaves [m.cfg] nil. Given nil it allocates
    the default configuration: the interval becomes 1000 ms and the host
    list is empty. Given a configuration, an [IntervalMs] greater than zero
    becomes the ping interval, while zero or a negative value leaves the
    interval the model had (it is not reset to a default). *)
Theorem LoadFromConfig_interval a c :
  (∀ p, c = Some p → is_Some (configs a !! p)) →
  ∃ a' p conf,
    LoadFromConfig a c = Some a' ∧
    Config a' = Some p ∧ configs a' !! p = Some conf ∧
    PingIntervalMs (model a')
      = (if bool_decide (0 < Cfg.IntervalMs (Cfg.Ping conf))
         then Cfg.IntervalMs (Cfg.Ping conf) else PingIntervalMs (model a)) ∧
    match c with
    | Some q => p = q ∧ configs a' = configs a
    | None =>
        p = length (configs a) ∧ configs a' = configs a ++ [defaultConfig] ∧
        conf = defaultConfig ∧ PingIntervalMs (model a') = 1000 ∧
        hosts (model a') = []
    end.
Proof.
  intros Hc.
  assert (∃ store p conf,
            match c with
            | Some p => (configs a, p)
            | None => (configs a ++ [defaultConfig], length (configs a))
            end = (store, p) ∧ store !! p = Some conf ∧
            match c with
            | Some q => p = q ∧ store = configs a
            | None => p = length (configs a) ∧
                      store = configs a ++ [defaultConfig] ∧ conf = defaultConfig
            end) as (store & p & conf & Ec & Ep & Hcase).
  { destruct c as [p|].
    - destruct (Hc p eq_refl) as [conf Hconf]. by exists (configs a), p, conf.
    - eexists _, _, defaultConfig. split; [done|].
      split; [by apply list_lookup_middle|done]. }
  unfold LoadFromConfig. rewrite Ec, Ep. cbn [mbind option_bind].
  match goal with |- ∃ _ _ _, (load_hosts ?m0 ?hs ≫= _) = _ ∧ _ =>
    destruct (load_hosts_spec hs m0)
      as (m' & news & EL & Hobj & Hhs & Hint & _ & Hall & _)
  end.
  rewrite EL. cbn [mbind option_bind]. eexists _, p, conf. split; [done|].
  cbn [model configs cfg Config]. split; [done|]. split; [done|].
  assert (PingIntervalMs m'
          = (if bool_decide (0 < Cfg.IntervalMs (Cfg.Ping conf))
             then Cfg.IntervalMs (Cfg.Ping conf) else PingIntervalMs (model a)))
    as Hi.
  { unfold PingIntervalMs. rewrite Hint. cbn [ClearHosts pingIntervalMs].
    destruct (decide (0 < Cfg.IntervalMs (Cfg.Ping conf))) as [H1|H1].
    - rewrite !bool_decide_eq_true_2 by lia.
      cbn [SetPingIntervalMs pingIntervalMs]. by rewrite bool_decide_eq_false_2 by lia.
    - by rewrite !bool_decide_eq_false_2 by lia. }
  split; [done|].
  destruct c as [q|]; [done|].
  destruct Hcase as (-> & -> & ->). repeat (split; [done|]).
  rewrite Hhs. apply Forall2_length in Hall. by destruct news.
Qed.

Lemma LoadFromConfig_interval_witness :
  ∃ a',
    LoadFromConfig (mkApp (SetPingIntervalMs NewAppModel 250) [] None) None = Some a' ∧
    Config a' = Some 0%nat ∧ PingIntervalMs (model a') = 1000.
Proof.
  destruct (LoadFromConfig_interval (mkApp (SetPingIntervalMs NewAppModel 250) [] None) None)
    as (a' & p & conf & HL & Hp & _ & _ & -> & _ & _ & Hi & _).
  - intros p [=].
  - by exists a'.
Defined.

Lemma listed_valid m :
  reg_inv m → ∀ q, q ∈ hosts m → is_Some (objects m !! q).
Proof.
  intros (_ & Hv) q (i & Hi)%list_elem_of_lookup.
  destruct (Hv i q Hi) as (h & -> & _). done.
Qed.

(** [SnapshotConfig] on a model whose listed pointers are valid and whose
    [m.cfg], if set, points at [conf]. *)
Lemma SnapshotConfig_eq a w :
  reg_inv (model a) → (∀ p, cfg a = Some p → is_Some (configs a !! p)) →
  ∃ store p conf,
    match cfg a with
    | Some q => p = q ∧ store = configs a
    | None => p = length (configs a) ∧ store = configs a ++ [defaultConfig] ∧
              conf = defaultConfig
    end ∧
    store !! p = Some conf ∧
    SnapshotConfig a w
    = Some (mkApp (model a)
              (<[p := Cfg.mkAppConfig
                        (Cfg.mkPingConfig (PingIntervalMs (model a))
                           (host_entry <$> listed (model a)))
                        (Cfg.Speed conf) (Cfg.Trace conf) w]> store)
              (Some p), p).
Proof.
  intros Hreg Hcfg. unfold SnapshotConfig.
  rewrite host_configs_spec by (by apply listed_valid).
  destruct (cfg a) as [q|] eqn:Ec.
  - destruct (Hcfg q eq_refl) as [conf Hconf]. exists (configs a), q, conf.
    split; [done|]. split; [done|]. cbn [mbind option_bind]. by rewrite Hconf.
  - exists (configs a ++ [defaultConfig]), (length (configs a)), defaultConfig.
    split; [done|]. split; [by apply list_lookup_middle|].
    cbn [mbind option_bind]. by rewrite list_lookup_middle.
Qed.

(** X17. [SnapshotConfig] writes through [m.cfg] and returns that same
    pointer: in the configuration object the caller loaded, the interval
    becomes the model's current ping interval, the host list becomes the
    listed hosts in list order, every one marked enabled, and the window
    becomes the geometry passed; the speed-test and traceroute sections keep
    their values. With [m.cfg] nil a default configuration is allocated
    first. No other configuration object and nothing of the registry is
    changed. *)
Theorem SnapshotConfig_spec ops a w :
  apply_app_ops NewApp ops = Some a →
  ∃ a' p conf',
    SnapshotConfig a w = Some (a', p) ∧
    model a' = model a ∧ Config a' = Some p ∧
    configs a' !! p = Some conf' ∧
    Cfg.Window conf' = w ∧
    Cfg.IntervalMs (Cfg.Ping conf') = PingIntervalMs (model a) ∧
    Cfg.Hosts (Cfg.Ping conf') = host_entry <$> listed (model a) ∧
    length (Cfg.Hosts (Cfg.Ping conf')) = length (hosts (model a)) ∧
    match Config a with
    | Some q =>
        p = q ∧ length (configs a') = length (configs a) ∧
        ∃ conf, configs a !! q = Some conf ∧
                Cfg.Speed conf' = Cfg.Speed conf ∧ Cfg.Trace conf' = Cfg.Trace conf
    | None =>
        p = length (configs a) ∧
        Cfg.Speed conf' = Cfg.Speed defaultConfig ∧
        Cfg.Trace conf' = Cfg.Trace defaultConfig
    end ∧
    ∀ q, q ≠ p → (q < length (configs a))%nat → configs a' !! q = configs a !! q.
Proof.
  intros Hre. destruct (reachable_inv _ _ Hre) as (Hreg & _ & _ & Hcfg).
  destruct (SnapshotConfig_eq a w Hreg) as (store & p & conf & Hcase & Hp & ->).
  { intros q Hq. apply lookup_lt_is_Some_2. by apply Hcfg. }
  eexists _, p, _. split; [done|]. cbn [model configs cfg Config].
  split; [done|]. split; [done|].
  split; [apply list_lookup_insert_eq; by eapply lookup_lt_Some|].
  cbn [Cfg.Window Cfg.Ping Cfg.IntervalMs Cfg.Hosts Cfg.Speed Cfg.Trace].
  repeat (split; [done|]).
  split; [rewrite length_fmap; by apply listed_length|].
  unfold Config. destruct (cfg a) as [q|] eqn:Ec.
  - destruct Hcase as (-> & ->). split.
    + split; [done|]. split; [by rewrite length_insert|]. by exists conf.
    + intros q' Hne _. by rewrite list_lookup_insert_ne.
  - destruct Hcase as (-> & -> & ->). split; [done|].
    intros q' Hne Hlt. rewrite list_lookup_insert_ne by done.
    by rewrite lookup_app_l.
Qed.

Lemma SnapshotConfig_spec_witness :
  ∃ a' p conf',
    SnapshotConfig
      (default NewApp
         (apply_app_ops NewApp
            [OpReg (OpAdd "gw" "10.0.0.1" 3); OpSetInterval 250]))
      (Cfg.mkWindowConfig 10 20 800 600) = Some (a', p) ∧
    configs a' !! p = Some conf' ∧
    Cfg.Ping conf' = Cfg.mkPingConfig 250 [Cfg.mkHostConfig "gw" "10.0.0.1" true].
Proof.
  destruct (SnapshotConfig_spec
              [OpReg (OpAdd "gw" "10.0.0.1" 3); OpSetInterval 250]
              (default NewApp
                 (apply_app_ops NewApp
                    [OpReg (OpAdd "gw" "10.0.0.1" 3); OpSetInterval 250]))
              (Cfg.mkWindowConfig 10 20 800 600))
    as (a' & p & conf' & HS & _ & _ & Hc & _ & Hi & Hh & _).
  - by vm_compute.
  - exists a', p, conf'. split; [done|]. split; [done|].
    destruct conf' as [[iv hs] ? ? ?]. simpl in Hi, Hh. rewrite Hi, Hh. by vm_compute.
Defined.

(** X18. Loading a configuration and saving it again rewrites the loaded
    object itself: its host list keeps only the entries that were enabled
    (a disabled entry does not survive the round trip), its interval is the
    loaded one when that was positive and the model's previous interval
    otherwise, its window is the geometry passed, and the speed-test and
    traceroute sections are unchanged. *)
Theorem Load_then_Snapshot a p conf w :
  configs a !! p = Some conf →
  ∃ a1 a2,
    LoadFromConfig a (Some p) = Some a1 ∧
    SnapshotConfig a1 w = Some (a2, p) ∧
    configs a2 =
      <[p := Cfg.mkAppConfig
               (Cfg.mkPingConfig
                  (if bool_decide (0 < Cfg.IntervalMs (Cfg.Ping conf))
                   then Cfg.IntervalMs (Cfg.Ping conf)
                   else PingIntervalMs (model a))
                  ((λ hc, Cfg.mkHostConfig (Cfg.Name hc) (Cfg.Addr hc) true)
                     <$> enabled_hosts conf))
               (Cfg.Speed conf) (Cfg.Trace conf) w]> (configs a).
Proof.
  intros Hp.
  destruct (LoadFromConfig_ok a p conf Hp)
    as (m' & news & HL & Hobj & Hhs & Hlisted & _ & Hint & Hall & _).
  exists (mkApp m' (configs a) (Some p)).
  assert (host_entry <$> news
          = (λ hc, Cfg.mkHostConfig (Cfg.Name hc) (Cfg.Addr hc) true)
              <$> enabled_hosts conf) as Hent.
  { clear -Hall.
    induction Hall as [|hc h l k (Hn & Ha & _) _ IH]; [done|].
    cbn [fmap list_fmap]. unfold host_entry at 1. rewrite Hn, Ha. f_equal. exact IH. }
  unfold SnapshotConfig. cbn [model configs cfg].
  rewrite host_configs_spec.
  2:{ intros q Hq. unfold Hosts in Hq. rewrite Hhs in Hq. apply elem_of_seq in Hq.
      apply lookup_lt_is_Some_2. rewrite Hobj, length_app. lia. }
  unfold Hosts. fold (listed m'). rewrite Hlisted, Hent.
  cbn [mbind option_bind app]. rewrite Hp. cbn [mbind option_bind].
  eexists. split; [done|]. split; [done|]. cbn [configs].
  unfold PingIntervalMs. by rewrite Hint.
Qed.

Lemma Load_then_Snapshot_witness :
  ∃ a1 a2,
    LoadFromConfig
      (mkApp NewAppModel
         [Cfg.mkAppConfig
            (Cfg.mkPingConfig 0
               [Cfg.mkHostConfig "gw" "10.0.0.1" true;
                Cfg.mkHostConfig "old" "10.0.0.9" false])
            (Cfg.Speed defaultConfig) (Cfg.Trace defaultConfig)
            (Cfg.Window defaultConfig)] None) (Some 0%nat) = Some a1 ∧
    SnapshotConfig a1 (Cfg.mkWindowConfig 10 20 800 600) = Some (a2, 0%nat) ∧
    Cfg.Ping <$> configs a2 !! 0%nat
      = Some (Cfg.mkPingConfig 1000 [Cfg.mkHostConfig "gw" "10.0.0.1" true]).
Proof.
  destruct (Load_then_Snapshot
      (mkApp NewAppModel
         [Cfg.mkAppConfig
            (Cfg.mkPingConfig 0
               [Cfg.mkHostConfig "gw" "10.0.0.1" true;
                Cfg.mkHostConfig "old" "10.0.0.9" false])
            (Cfg.Speed defaultConfig) (Cfg.Trace defaultConfig)
            (Cfg.Window defaultConfig)] None) 0%nat
      (Cfg.mkAppConfig
            (Cfg.mkPingConfig 0
               [Cfg.mkHostConfig "gw" "10.0.0.1" true;
                Cfg.mkHostConfig "old" "10.0.0.9" false])
            (Cfg.Speed defaultConfig) (Cfg.Trace defaultConfig)
            (Cfg.Window defaultConfig))
      (Cfg.mkWindowConfig 10 20 800 600))
    as (a1 & a2 & HL & HS & Hc).
  - reflexivity.
  - exists a1, a2. split; [exact HL|]. split; [exact HS|]. rewrite Hc. by vm_compute.
Defined.

Lemma filter_host_entry (l : list Host) :
  filter (λ hc, Cfg.Enabled hc = true) (host_entry <$> l) = host_entry <$> l.
Proof.
  induction l as [|h l IH]; [done|]. cbn [fmap list_fmap].
  rewrite filter_cons_True by done. f_equal. exact IH.
Qed.

(** X19. Saving and loading again restores the registry only in part: the
    hosts come back at the same positions with the same names, addresses
    and color indexes, and the ping interval is the same, but every host is
    a new object in state stopped, with a new, empty ring of the default
    capacity of 600, whatever capacity its ring was created with. *)
Theorem Snapshot_then_Load ops a w :
  apply_app_ops NewApp ops = Some a →
  ∃ a1 p a2,
    SnapshotConfig a w = Some (a1, p) ∧
    LoadFromConfig a1 (Some p) = Some a2 ∧
    Config a2 = Some p ∧
    PingIntervalMs (model a2) = PingIntervalMs (model a) ∧
    Count (model a2) = Count (model a) ∧
    ∀ i h, host_at (model a) i = Some h →
      ∃ h2, host_at (model a2) i = Some h2 ∧
            Name h2 = Name h ∧ Addr h2 = Addr h ∧ ColorI h2 = ColorI h ∧
            RunState h2 = HostStopped ∧ len (buf h2) = DefaultRingCap ∧
            snapshot (arrays (model a2)) (buf h2) = Some [].
Proof.
  intros Hre. destruct (reachable_inv _ _ Hre) as (Hreg & _ & Hpos & Hcfg).
  destruct (SnapshotConfig_eq a w Hreg) as (store & p & conf & Hcase & Hp & HS).
  { intros q Hq. apply lookup_lt_is_Some_2. by apply Hcfg. }
  match type of HS with _ = Some (mkApp _ (<[_ := ?c]> _) _, _) => set (conf' := c) in * end.
  match type of HS with _ = Some (?a1', _) => set (a1 := a1') in * end.
  assert (configs a1 !! p = Some conf') as Hp1.
  { apply list_lookup_insert_eq. by eapply lookup_lt_Some. }
  destruct (LoadFromConfig_ok a1 p conf' Hp1)
    as (m' & news & HL & Hobj & Hhs & Hlisted & Hat & Hint & Hall & Hcol).
  exists a1, p, (mkApp m' (configs a1) (Some p)).
  split; [done|]. split; [done|]. cbn [model configs cfg Config].
  split; [done|].
  assert (enabled_hosts conf' = host_entry <$> listed (model a)) as Hen.
  { unfold enabled_hosts, conf'. cbn [Cfg.Ping Cfg.Hosts]. apply filter_host_entry. }
  rewrite Hen in Hall.
  destruct (listed_length (model a) Hreg) as (Hll & Hla).
  split.
  { unfold PingIntervalMs. rewrite Hint. unfold conf'. cbn [Cfg.Ping Cfg.IntervalMs].
    unfold PingIntervalMs. by rewrite bool_decide_eq_true_2 by done. }
  split.
  { unfold Count. rewrite Hhs, length_seq.
    rewrite <- (Forall2_length _ _ _ Hall), length_fmap. by rewrite Hll. }
  intros i h Hi. rewrite Hla in Hi.
  assert ((host_entry <$> listed (model a)) !! i = Some (host_entry h)) as Hi'.
  { by rewrite list_lookup_fmap, Hi. }
  destruct (Forall2_lookup_l _ _ _ _ _ Hall Hi')
    as (h2 & Hh2 & Hn & Ha & Hs & Hl & Hc & Hinv).
  exists h2. split; [by rewrite Hat|].
  repeat (split; [done|]). split.
  { rewrite (Hcol i h2 Hh2). destruct Hreg as (_ & Hv).
    rewrite <- Hla in Hi. unfold host_at in Hi.
    destruct (hosts (model a) !! i) as [q|] eqn:Eq; [|done].
    destruct (Hv i q Eq) as (h0 & Hh0 & Hc0). cbn in Hi. congruence. }
  repeat (split; [done|]).
  rewrite snapshot_retained by done. by rewrite retained_empty.
Qed.

Lemma Snapshot_then_Load_witness :
  ∃ a1 p a2 h2,
    SnapshotConfig
      (default NewApp
         (apply_app_ops NewApp
            [OpReg (OpAdd "gw" "10.0.0.1" 3); OpSetInterval 250]))
      (Cfg.mkWindowConfig 10 20 800 600) = Some (a1, p) ∧
    LoadFromConfig a1 (Some p) = Some a2 ∧
    PingIntervalMs (model a2) = 250 ∧
    host_at (model a2) 0 = Some h2 ∧ Name h2 = "gw" ∧ len (buf h2) = 600.
Proof.
  destruct (Snapshot_then_Load
              [OpReg (OpAdd "gw" "10.0.0.1" 3); OpSetInterval 250]
              (default NewApp
                 (apply_app_ops NewApp
                    [OpReg (OpAdd "gw" "10.0.0.1" 3); OpSetInterval 250]))
              (Cfg.mkWindowConfig 10 20 800 600))
    as (a1 & p & a2 & HS & HL & _ & Hi & _ & Hh).
  - by vm_compute.
  - destruct (Hh 0%nat (mkHost "gw" "10.0.0.1" 0 HostStopped (mkRing (make [] 3).2 0 0)))
      as (h2 & Hh2 & Hn & _ & _ & _ & Hl & _); [by vm_compute|].
    exists a1, p, a2, h2. by rewrite Hi.
Defined.



(** ** The debounced saver, the tickers and the series colors *)

Lemma stopSave_quiet {F} (ts : list (SaveTimer F)) t :
  (∀ t' tm, ts !! t' = Some tm → sstate tm = Armed → t' = t) →
  Forall (λ tm, sstate tm ≠ Armed) (stopSave ts t) ∧
  length (stopSave ts t) = length ts.
Proof.
  intros Honly. unfold stopSave.
  destruct (ts !! t) as [tm|] eqn:Et.
  - case_bool_decide as Ha.
    + split; [|by rewrite length_insert]. apply Forall_lookup_2. intros t' tm' Ht'.
      destruct (decide (t' = t)) as [->|Hne].
      * rewrite list_lookup_insert_eq in Ht' by (by eapply lookup_lt_Some).
        by injection Ht' as <-.
      * rewrite list_lookup_insert_ne in Ht' by done.
        intros Harm. by destruct Hne; eapply Honly.
    + split; [|done]. apply Forall_lookup_2. intros t' tm' Ht' Harm.
      rewrite (Honly t' tm' Ht' Harm) in Ht'. congruence.
  - split; [|done]. apply Forall_lookup_2. intros t' tm' Ht' Harm.
    rewrite (Honly t' tm' Ht' Harm) in Ht'. congruence.
Qed.

(** After [Trigger] the timers are a list without an armed one, followed by
    the new timer, which [d.timer] holds. *)
Lemma Trigger_shape {F} (d : Saver F) delay fn :
  saver_inv d →
  ∃ ts, stimers (Trigger d delay fn) = ts ++ [mkSaveTimer delay fn Armed] ∧
        Forall (λ tm, sstate tm ≠ Armed) ts ∧
        stimer (Trigger d delay fn) = Some (length ts) ∧
        ran (Trigger d delay fn) = ran d.
Proof.
  intros Hinv. unfold Trigger. destruct (stimer d) as [t|] eqn:Et; simpl.
  - eexists. split; [done|]. split; [|done].
    apply stopSave_quiet. intros t' tm Ht' Harm.
    specialize (Hinv t' tm Ht' Harm). congruence.
  - eexists. split; [done|]. split; [|done].
    apply Forall_lookup_2. intros t' tm Ht' Harm.
    specialize (Hinv t' tm Ht' Harm). congruence.
Qed.

Lemma save_step_inv {F} (d : Saver F) ev : saver_inv d → saver_inv (save_step d ev).
Proof.
  intros Hinv. destruct ev as [delay fn|t]; simpl.
  - destruct (Trigger_shape d delay fn Hinv) as (ts & Hts & Hq & Ht & _).
    intros t' tm. rewrite Hts, Ht. intros Ht' Harm.
    apply lookup_app_Some in Ht' as [Ht'|[Hge Ht']].
    + by destruct (Forall_lookup_1 _ _ _ _ Hq Ht').
    + apply list_lookup_singleton_Some in Ht' as [Ht0 _]. f_equal. lia.
  - unfold expire. destruct (stimers d !! t) as [tm|] eqn:Et; [|done].
    case_bool_decide as Ha; [|done]. intros t' tm'. simpl. intros Ht' Harm.
    destruct (decide (t' = t)) as [->|Hne].
    + rewrite list_lookup_insert_eq in Ht' by (by eapply lookup_lt_Some).
      by injection Ht' as <-.
    + rewrite list_lookup_insert_ne in Ht' by done. by eapply Hinv.
Qed.

Lemma save_run_inv {F} (evs : list (saveEvent F)) : ∀ d,
  saver_inv d → saver_inv (save_run d evs).
Proof.
  induction evs as [|ev evs IH]; intros d Hinv; [done|].
  apply IH. by apply save_step_inv.
Qed.

Lemma save_run_cons {F} (d : Saver F) ev evs :
  save_run d (ev :: evs) = save_run (save_step d ev) evs.
Proof. done. Qed.

Lemma expire_quiet {F} (d : Saver F) t :
  Forall (λ tm, sstate tm ≠ Armed) (stimers d) → expire d t = d.
Proof.
  intros Hq. unfold expire. destruct (stimers d !! t) as [tm|] eqn:Et; [|done].
  rewrite bool_decide_eq_false_2; [done|]. exact (Forall_lookup_1 _ _ _ _ Hq Et).
Qed.

Lemma expire_all_quiet {F} (exps : list nat) : ∀ d : Saver F,
  Forall (λ tm, sstate tm ≠ Armed) (stimers d) →
  save_run d (SvExpire <$> exps) = d.
Proof.
  induction exps as [|t exps IH]; intros d Hq; [done|].
  rewrite fmap_cons, save_run_cons. cbn [save_step].
  rewrite expire_quiet by done. by apply IH.
Qed.

Lemma expire_last_armed {F} (exps : list nat) : ∀ (ts : list (SaveTimer F)) delay fn s r,
  Forall (λ tm, sstate tm ≠ Armed) ts →
  ran (save_run (mkSaver (ts ++ [mkSaveTimer delay fn Armed]) s r) (SvExpire <$> exps))
  = r ++ (if bool_decide (length ts ∈ exps) then [fn] else []).
Proof.
  induction exps as [|t exps IH]; intros ts delay fn s r Hq.
  - simpl. by rewrite app_nil_r.
  - rewrite fmap_cons, save_run_cons. cbn [save_step].
    destruct (decide (t = length ts)) as [->|Hne].
    + rewrite (bool_decide_eq_true_2 (length ts ∈ length ts :: exps)) by (by left).
      unfold expire at 1. cbn [stimers]. rewrite list_lookup_middle by done.
      cbn [sstate]. rewrite bool_decide_eq_true_2 by done.
      rewrite expire_all_quiet; [done|].
      cbn [stimers]. rewrite insert_app_r_alt, Nat.sub_diag by lia. cbn.
      apply Forall_app. split; [done|]. by repeat constructor.
    + assert (expire (mkSaver (ts ++ [mkSaveTimer delay fn Armed]) s r) t
              = mkSaver (ts ++ [mkSaveTimer delay fn Armed]) s r) as ->.
      { unfold expire. cbn [stimers].
        destruct ((ts ++ [mkSaveTimer delay fn Armed]) !! t) as [tm|] eqn:Et; [|done].
        apply lookup_app_Some in Et as [Et|[Hge Et]].
        - rewrite bool_decide_eq_false_2; [done|]. exact (Forall_lookup_1 _ _ _ _ Hq Et).
        - apply list_lookup_singleton_Some in Et as [Et0 _]. lia. }
      rewrite IH by done. f_equal.
      destruct (decide (length ts ∈ exps)) as [Hin|Hnin].
      * by rewrite !bool_decide_eq_true_2 by (done || by right).
      * rewrite (bool_decide_eq_false_2 (length ts ∈ exps)) by done.
        rewrite bool_decide_eq_false_2; [done|].
        intros [?|?]%elem_of_cons; [congruence|done].
Qed.

(** X21. [Trigger] debounces. Whatever happened to the saver before, after
    a call [Trigger(delay, fn)] the only armed timer is the new one, held by
    [d.timer] and carrying that delay and callback: a timer armed by an
    earlier call has been stopped and never runs its callback. When the
    delays then elapse, in any order and any number of times, [fn] runs
    once if the new timer is among them and nothing runs otherwise. *)
Theorem Trigger_debounces {F} (evs : list (saveEvent F)) delay fn exps :
  ∃ t,
    stimer (Trigger (save_run zeroSaver evs) delay fn) = Some t ∧
    (∀ t' tm, stimers (Trigger (save_run zeroSaver evs) delay fn) !! t' = Some tm →
              sstate tm = Armed → t' = t ∧ sdelay tm = delay ∧ sfn tm = fn) ∧
    ran (save_run (Trigger (save_run zeroSaver evs) delay fn) (SvExpire <$> exps))
    = ran (save_run zeroSaver evs)
      ++ (if bool_decide (t ∈ exps) then [fn] else []).
Proof.
  assert (saver_inv (save_run (zeroSaver (F := F)) evs)) as Hinv.
  { apply save_run_inv. intros t tm Ht. by destruct t. }
  destruct (Trigger_shape _ delay fn Hinv) as (ts & Hts & Hq & Ht & Hran).
  exists (length ts). split; [done|]. split.
  - intros t' tm. rewrite Hts. intros Ht' Harm.
    apply lookup_app_Some in Ht' as [Ht'|[Hge Ht']].
    + by destruct (Forall_lookup_1 _ _ _ _ Hq Ht').
    + apply list_lookup_singleton_Some in Ht' as [Ht0 <-]. split; [lia|done].
  - rewrite <- Hran.
    destruct (Trigger (save_run zeroSaver evs) delay fn) as [ts' s' r'] eqn:Ed.
    cbn [stimers stimer ran] in *. subst ts'. by apply expire_last_armed.
Qed.

Example Trigger_burst :
  ran (save_run (zeroSaver (F := string))
         [SvTrigger 400 "save 1"; SvTrigger 400 "save 2"; SvTrigger 400 "save 3";
          SvExpire 0; SvExpire 1; SvExpire 2; SvExpire 2])
  = ["save 3"].
Proof. by vm_compute. Qed.

(** X22. [GraphWidget.StartTicker] starts its ticker with a period between
    1 and 1000 ms whatever the frame rate is: 1000/frameRate for a rate of
    1..1000, and 33 ms both for a rate of zero or less and for a rate above
    1000, where the division gives 0. [SpeedGraphWidget.StartTicker]
    computes the same period for every rate but zero, where it divides by
    zero. *)
Theorem StartTicker_period f :
  1 ≤ StartTicker f ≤ 1000 ∧
  (f ≤ 0 ∨ 1000 < f → StartTicker f = 33) ∧
  (0 < f ≤ 1000 → StartTicker f = 1000 `quot` f) ∧
  SpeedStartTicker 0 = None ∧
  (f ≠ 0 → SpeedStartTicker f = Some (StartTicker f)).
Proof.
  assert (0 < f ≤ 1000 → 1 ≤ 1000 `quot` f ≤ 1000) as Hin.
  { intros Hf. rewrite Z.quot_div_nonneg by lia. split.
    - apply Z.div_le_lower_bound; lia.
    - apply Z.div_le_upper_bound; lia. }
  assert (1000 < f → 1000 `quot` f = 0) as Hbig.
  { intros Hf. apply Z.quot_small. lia. }
  assert (f < 0 → 1000 `quot` f ≤ 0) as Hneg.
  { intros Hf. replace f with (- (- f)) by lia. rewrite Z.quot_opp_r by lia.
    assert (0 ≤ 1000 `quot` (- f)) by (apply Z.quot_pos; lia). lia. }
  unfold StartTicker, SpeedStartTicker, frameRateToMs.
  repeat split; repeat case_bool_decide; try lia; try done.
  all: try (f_equal; lia).
Qed.

Lemma palette_NoDup : NoDup palette.
Proof. apply (bool_decide_unpack _). by vm_compute. Qed.

(** X23. [seriesColor] is defined for every index that is not negative and
    walks the eight palette entries cyclically: hosts at list positions [i]
    and [j] are drawn in the same color exactly when [i] and [j] agree
    modulo 8, so the first eight hosts have eight different colors. A
    negative index that is not a multiple of 8 indexes the palette below
    zero. *)
Theorem seriesColor_cycles i :
  0 ≤ i →
  ∃ c,
    seriesColor i = Some c ∧
    palette !! Z.to_nat (i `mod` 8) = Some (c.1.1.1, c.1.1.2, c.1.2) ∧ c.2 = 255 ∧
    (∀ j, 0 ≤ j → seriesColor j = Some c ↔ j `mod` 8 = i `mod` 8) ∧
    (∀ j, j < 0 → j `mod` 8 ≠ 0 → seriesColor j = None).
Proof.
  intros Hi.
  assert (Z.of_nat (length palette) = 8) as Hlen by done.
  assert (∀ j, 0 ≤ j →
            ∃ c, palette !! Z.to_nat (j `mod` 8) = Some c ∧
                 seriesColor j = Some (c.1.1, c.1.2, c.2, 255)) as Hdef.
  { intros j Hj. unfold seriesColor. rewrite Hlen.
    rewrite Z.rem_mod_nonneg by lia.
    pose proof (Z.mod_pos_bound j 8 ltac:(lia)).
    rewrite bool_decide_eq_true_2 by lia.
    destruct (lookup_lt_is_Some_2 palette (Z.to_nat (j `mod` 8))) as [c Hc];
      [simpl; lia|].
    exists c. split; [done|]. by rewrite Hc. }
  destruct (Hdef i Hi) as (c & Hc & Hs).
  exists (c.1.1, c.1.2, c.2, 255). split; [done|]. split; [by destruct c as [[? ?] ?]|].
  split; [done|]. split.
  - intros j Hj. destruct (Hdef j Hj) as (c' & Hc' & Hs'). rewrite Hs'. split.
    + intros [= H1 H2 H3].
      assert (c' = c) as -> by (destruct c as [[? ?] ?], c' as [[? ?] ?]; simpl in *; congruence).
      pose proof (NoDup_lookup _ _ _ _ palette_NoDup Hc' Hc).
      pose proof (Z.mod_pos_bound j 8 ltac:(lia)).
      pose proof (Z.mod_pos_bound i 8 ltac:(lia)). lia.
    + intros Heq. rewrite Heq in Hc'. congruence.
  - intros j Hj Hm. unfold seriesColor. rewrite Hlen.
    rewrite bool_decide_eq_false_2; [done|].
    pose proof (Z.rem_bound_pos_neg j 8 ltac:(lia) ltac:(lia)).
    assert (Z.rem j 8 ≠ 0); [|lia].
    intros H0. apply Hm. apply Z.rem_divide in H0; [|lia].
    by apply Z.mod0_divide.
Qed.

Lemma seriesColor_cycles_witness :
  ∃ c, seriesColor 9 = Some c ∧ c = (255, 120, 120, 255) ∧ seriesColor 1 = Some c.
Proof.
  destruct (seriesColor_cycles 9) as (c & Hs & Hp & H255 & Hiff & _); [lia|].
  exists c. split; [done|]. split.
  - destruct c as [[[r g] b] al]. vm_compute in Hp. simpl in H255. congruence.
  - apply Hiff; [lia|]. by vm_compute.
Defined.
